(** * SynapseDB query pipeline: cache, rate limiter, security validator,
      cost optimizer and orchestrator

    A shallow embedding of [lib/query-cache.ts], [lib/query-security.ts],
    [lib/query-optimizer.ts] and [app/api/query-pipeline/route.ts], followed
    by the properties of the specification that were checked against them.

    Conventions of the embedding.
    - JavaScript strings are Rocq [string]s.  The string primitives below
      implement the ECMAScript behaviour on the ASCII range; a character
      above 127 is an opaque code unit (no case, not white space).
    - JavaScript numbers that hold counts, sizes, page numbers and
      millisecond time stamps are integers ([Z]).
    - [Date.now()] is an explicit argument of the library operations and a
      clock oracle of the request handler.
    - A [Map] that is iterated or evicted by insertion order is an
      association list in insertion order; a [Map] used only by key is a
      [gmap].
    - A [params?: any] argument of the cache is a JSON value in
      [QueryCache], as the request handler passes one; [AnyCache] has the
      same operations for an arbitrary value and an arbitrary pattern,
      with [JSON.stringify] and the [RegExp] constructor as parameters. *)

From Stdlib Require Import ZArith Ascii String List Bool Lia.
From Stdlib Require Import DecimalString DecimalPos DecimalZ.
From stdpp Require Import base option list strings gmap.

Local Open Scope Z_scope.
Set Warnings "-register-all".

(* ===================================================================== *)
(** * Part I.  The program                                                *)
(* ===================================================================== *)

(** ** String primitives *)
Module Str.

Definition code (c : ascii) : nat := nat_of_ascii c.

Definition in_range (lo hi c : ascii) : bool :=
  (code lo <=? code c)%nat && (code c <=? code hi)%nat.

Definition is_upper (c : ascii) : bool := in_range "A" "Z" c.
Definition is_lower (c : ascii) : bool := in_range "a" "z" c.
Definition is_digit (c : ascii) : bool := in_range "0" "9" c.

(** [\w]: letters, digits and underscore. *)
Definition is_word (c : ascii) : bool :=
  is_upper c || is_lower c || is_digit c || Ascii.eqb c "_".

(** WhiteSpace and LineTerminator: TAB, LF, VT, FF, CR, SPACE. *)
Definition is_space (c : ascii) : bool :=
  in_range "009" "013" c || Ascii.eqb c " ".

(** LineTerminator: the characters [.] does not match. *)
Definition is_newline (c : ascii) : bool :=
  Ascii.eqb c "010" || Ascii.eqb c "013".

Definition upper (c : ascii) : ascii :=
  if is_lower c then ascii_of_nat (code c - 32) else c.
Definition lower (c : ascii) : ascii :=
  if is_upper c then ascii_of_nat (code c + 32) else c.

Fixpoint map (f : ascii -> ascii) (s : string) : string :=
  match s with
  | EmptyString => EmptyString
  | String c s' => String (f c) (map f s')
  end.

Definition toUpperCase : string -> string := map upper.
Definition toLowerCase : string -> string := map lower.

Fixpoint trimStart (s : string) : string :=
  match s with
  | String c s' => if is_space c then trimStart s' else s
  | EmptyString => EmptyString
  end.

(** [trimEnd s] drops the white space at the end: a character is kept
    when it is not white space or when something is kept after it. *)
Fixpoint trimEnd (s : string) : string :=
  match s with
  | EmptyString => EmptyString
  | String c s' =>
      match trimEnd s' with
      | EmptyString => if is_space c then EmptyString else String c EmptyString
      | t => String c t
      end
  end.

Definition trim (s : string) : string := trimEnd (trimStart s).

Fixpoint startsWith (s p : string) : bool :=
  match p, s with
  | EmptyString, _ => true
  | String a p', String b s' => Ascii.eqb a b && startsWith s' p'
  | String _ _, EmptyString => false
  end.

Fixpoint includes (s p : string) : bool :=
  startsWith s p ||
  match s with
  | EmptyString => false
  | String _ s' => includes s' p
  end.

Fixpoint drop (n : nat) (s : string) : string :=
  match n, s with
  | O, _ => s
  | S n', String _ s' => drop n' s'
  | S _, EmptyString => EmptyString
  end.

Fixpoint take (n : nat) (s : string) : string :=
  match n, s with
  | S n', String c s' => String c (take n' s')
  | _, _ => EmptyString
  end.

(** [s.split(sep)] for a one-character separator (the only kind the
    program uses). *)
Fixpoint split_go (sep : ascii) (cur : string) (s : string) : list string :=
  match s with
  | EmptyString => [cur]
  | String c s' =>
      if Ascii.eqb c sep
      then cur :: split_go sep EmptyString s'
      else split_go sep (cur +:+ String c EmptyString) s'
  end.

Definition split (s : string) (sep : ascii) : list string :=
  split_go sep EmptyString s.

Fixpoint join (sep : string) (l : list string) : string :=
  match l with
  | [] => EmptyString
  | [x] => x
  | x :: l' => x +:+ sep +:+ join sep l'
  end.

(** Template-literal rendering of an integer. *)
Definition ofZ (z : Z) : string := NilZero.string_of_int (Z.to_int z).

Definition len (s : string) : Z := Z.of_nat (String.length s).

End Str.

(** ** Regular expressions

    The abstract syntax of the pattern language the program uses, and a
    backtracking matcher that follows the ECMAScript matching semantics:
    alternatives are tried left to right, a greedy quantifier tries one more
    iteration before it tries to stop, a lazy one the other way round, and
    an iteration of a quantifier that consumes nothing is rejected. *)
Module RegExp.

Inductive cls := Digit | Space | Word.

Inductive item :=
| ILit (c : ascii)
| IRange (lo hi : ascii)
| ICls (neg : bool) (k : cls).

Inductive atom :=
| Lit (c : ascii)                       (* a pattern character *)
| Dot                                   (* [.] *)
| Cls (neg : bool) (k : cls)            (* [\d \D \s \S \w \W] *)
| OneOf (neg : bool) (items : list item). (* [[...]] and [[^...]] *)

Inductive regex :=
| Eps
| Atom (a : atom)
| Seq (r1 r2 : regex)
| Alt (r1 r2 : regex)
| Star (greedy : bool) (r : regex)      (* [r*], [r*?] *)
| Plus (greedy : bool) (r : regex)      (* [r+], [r+?] *)
| Opt (greedy : bool) (r : regex)       (* [r?], [r??] *)
| Group (n : nat) (r : regex)           (* the n-th capturing group *)
| Bol                                   (* [^] *)
| Eol                                   (* [$] *)
| WordB (neg : bool).                   (* [\b], [\B] *)

(** A compiled expression: its source text, its syntax and its flags. *)
Record t := mk {
  source : string;
  re : regex;
  ignoreCase : bool;
  global : bool
}.

Definition cls_has (k : cls) (c : ascii) : bool :=
  match k with
  | Digit => Str.is_digit c
  | Space => Str.is_space c
  | Word => Str.is_word c
  end.

(** Under the [i] flag two characters match when their canonical (upper
    case) forms agree; a class contains a character when it contains one
    with the same canonical form. *)
Definition item_has (icase : bool) (c : ascii) (i : item) : bool :=
  match i with
  | ILit m => if icase then Ascii.eqb (Str.upper m) (Str.upper c) else Ascii.eqb m c
  | IRange lo hi =>
      if icase
      then Str.in_range lo hi c || Str.in_range lo hi (Str.upper c)
           || Str.in_range lo hi (Str.lower c)
      else Str.in_range lo hi c
  | ICls neg k => xorb neg (cls_has k c)
  end.

Definition atom_matches (icase : bool) (a : atom) (c : ascii) : bool :=
  match a with
  | Lit m => if icase then Ascii.eqb (Str.upper m) (Str.upper c) else Ascii.eqb m c
  | Dot => negb (Str.is_newline c)
  | Cls neg k => xorb neg (cls_has k c)
  | OneOf neg items => xorb neg (existsb (item_has icase c) items)
  end.

(** A position in the input: the character just before it (none at the
    start of the input) and the text that follows. *)
Record cursor := Cursor { prev : option ascii; rest : string }.

Definition start (s : string) : cursor := Cursor None s.

Definition step (cur : cursor) : option cursor :=
  match rest cur with
  | String c s' => Some (Cursor (Some c) s')
  | EmptyString => None
  end.

(** Captures: group number to captured text, latest binding first. *)
Definition caps := list (nat * string).

Fixpoint cap_get (n : nat) (cs : caps) : option string :=
  match cs with
  | [] => None
  | (m, s) :: cs' => if Nat.eqb m n then Some s else cap_get n cs'
  end.

Fixpoint groups_of (r : regex) : list nat :=
  match r with
  | Seq r1 r2 | Alt r1 r2 => groups_of r1 ++ groups_of r2
  | Star _ r1 | Plus _ r1 | Opt _ r1 => groups_of r1
  | Group n r1 => n :: groups_of r1
  | _ => []
  end.

(** A quantifier clears the captures of its body before each iteration. *)
Definition cap_clear (gs : list nat) (cs : caps) : caps :=
  List.filter (fun p => negb (existsb (Nat.eqb (fst p)) gs)) cs.

Definition at_word (o : option ascii) : bool :=
  match o with Some c => Str.is_word c | None => false end.

Definition next (cur : cursor) : option ascii :=
  match rest cur with String c _ => Some c | EmptyString => None end.

Section Matcher.
Context {R : Type} (icase : bool).

(** A continuation receives the position, the captures and whether a
    character was consumed since the enclosing quantifier iteration
    began. *)
Definition kont := cursor -> caps -> bool -> option R.

(** [n] bounds the number of iterations; every iteration consumes a
    character, so the length of the remaining input is enough. *)
Fixpoint repeat (body : kont -> kont) (greedy : bool) (k : kont)
    (n : nat) (cur : cursor) (cs : caps) (moved : bool) : option R :=
  match n with
  | O => k cur cs moved
  | S n' =>
      if greedy then
        match body (fun cur' cs' mv =>
                      if mv then repeat body greedy k n' cur' cs' true
                      else None) cur cs false with
        | Some x => Some x
        | None => k cur cs moved
        end
      else
        match k cur cs moved with
        | Some x => Some x
        | None => body (fun cur' cs' mv =>
                          if mv then repeat body greedy k n' cur' cs' true
                          else None) cur cs false
        end
  end.

Fixpoint run (r : regex) (k : kont) (cur : cursor) (cs : caps)
    (moved : bool) {struct r} : option R :=
  match r with
  | Eps => k cur cs moved
  | Atom a =>
      match rest cur with
      | String c s' =>
          if atom_matches icase a c then k (Cursor (Some c) s') cs true
          else None
      | EmptyString => None
      end
  | Seq r1 r2 => run r1 (run r2 k) cur cs moved
  | Alt r1 r2 =>
      match run r1 k cur cs moved with
      | Some x => Some x
      | None => run r2 k cur cs moved
      end
  | Star g r1 =>
      repeat (fun k' cur' cs' => run r1 k' cur' (cap_clear (groups_of r1) cs'))
             g k (String.length (rest cur)) cur cs moved
  | Plus g r1 =>
      run r1 (fun cur' cs' mv =>
                repeat (fun k' cur'' cs'' =>
                          run r1 k' cur'' (cap_clear (groups_of r1) cs''))
                       g k (String.length (rest cur')) cur' cs' (moved || mv))
          cur (cap_clear (groups_of r1) cs) false
  | Opt g r1 =>
      if g then
        match run r1 (fun cur' cs' mv => if mv then k cur' cs' true else None)
                  cur (cap_clear (groups_of r1) cs) false with
        | Some x => Some x
        | None => k cur cs moved
        end
      else
        match k cur cs moved with
        | Some x => Some x
        | None => run r1 (fun cur' cs' mv => if mv then k cur' cs' true else None)
                      cur (cap_clear (groups_of r1) cs) false
        end
  | Group n r1 =>
      run r1 (fun cur' cs' mv =>
                k cur' ((n, Str.take (String.length (rest cur)
                                      - String.length (rest cur'))
                                     (rest cur)) :: cs') mv)
          cur cs moved
  | Bol => match prev cur with None => k cur cs moved | Some _ => None end
  | Eol => match rest cur with EmptyString => k cur cs moved | _ => None end
  | WordB neg =>
      if xorb neg (xorb (at_word (prev cur)) (at_word (next cur)))
      then k cur cs moved else None
  end.
End Matcher.

(** The result of a successful match. *)
Record result := Result {
  index : nat;             (* offset of the match in the input *)
  matched : string;        (* the matched text *)
  groups : caps;
  stop : cursor            (* the position just after the match *)
}.

Definition match_at (icase : bool) (r : regex) (cur : cursor) (off : nat)
  : option result :=
  run icase r
      (fun cur' cs _ =>
         Some (Result off
                      (Str.take (String.length (rest cur)
                                 - String.length (rest cur')) (rest cur))
                      cs cur'))
      cur [] false.

(** Leftmost match at or after the position [prev]/[s]. *)
Fixpoint search (icase : bool) (r : regex) (prev : option ascii) (s : string)
    (off : nat) : option result :=
  match match_at icase r (Cursor prev s) off with
  | Some m => Some m
  | None =>
      match s with
      | EmptyString => None
      | String c s' => search icase r (Some c) s' (S off)
      end
  end.

(** [re.exec(s)] and [s.match(re)] without the [g] flag. *)
Definition exec (x : t) (s : string) : option result :=
  search (ignoreCase x) (re x) None s 0.

Definition test (x : t) (s : string) : bool :=
  match exec x s with Some _ => true | None => false end.

(** All successive matches, as [s.match(re)], [s.matchAll(re)] and
    [s.replace(re, _)] enumerate them under the [g] flag: the search
    resumes where the last match stopped, one character further when
    the match was empty. *)
Fixpoint matches_from (fuel : nat) (x : t) (cur : cursor) (off : nat)
  : list result :=
  match fuel with
  | O => []
  | S fuel' =>
      match search (ignoreCase x) (re x) (prev cur) (rest cur) off with
      | None => []
      | Some m =>
          m :: match matched m with
               | EmptyString =>
                   match step (stop m) with
                   | Some cur' => matches_from fuel' x cur' (S (index m))
                   | None => []
                   end
               | _ => matches_from fuel' x (stop m)
                        (index m + String.length (matched m))
               end
      end
  end.

Definition matchAll (x : t) (s : string) : list result :=
  matches_from (S (String.length s)) x (start s) 0.

(** The length of [s.match(re) || []] under the [g] flag. *)
Definition count (x : t) (s : string) : Z :=
  Z.of_nat (length (matchAll x s)).

(** Replacement patterns of [String.prototype.replace]: [$$], [$&],
    [$`], [$'] and [$n] for an existing group [n]. *)
Fixpoint substitute (ngroups : nat) (s : string) (m : result) (repl : string)
  : string :=
  match repl with
  | EmptyString => EmptyString
  | String "$" (String c r') =>
      if Ascii.eqb c "$" then String "$" (substitute ngroups s m r')
      else if Ascii.eqb c "&" then matched m +:+ substitute ngroups s m r'
      else if Ascii.eqb c "`" then Str.take (index m) s +:+ substitute ngroups s m r'
      else if Ascii.eqb c "'" then rest (stop m) +:+ substitute ngroups s m r'
      else
        let n := (Str.code c - 48)%nat in
        if Str.is_digit c && (1 <=? n)%nat && (n <=? ngroups)%nat
        then match cap_get n (groups m) with
             | Some g => g
             | None => EmptyString
             end +:+ substitute ngroups s m r'
        else String "$" (String c (substitute ngroups s m r'))
  | String c r' => String c (substitute ngroups s m r')
  end.

Definition ngroups (x : t) : nat := length (groups_of (re x)).

(** Rebuild [s] with every match of [ms] replaced; [pos] is the offset
    already copied. *)
Fixpoint splice (x : t) (s : string) (repl : string) (pos : nat)
    (ms : list result) : string :=
  match ms with
  | [] => Str.drop pos s
  | m :: ms' =>
      Str.take (index m - pos) (Str.drop pos s)
      +:+ substitute (ngroups x) s m repl
      +:+ splice x s repl (index m + String.length (matched m)) ms'
  end.

(** [s.replace(re, repl)]: the first match, or all of them under [g]. *)
Definition replace (x : t) (s : string) (repl : string) : string :=
  if global x then splice x s repl 0 (matchAll x s)
  else match exec x s with
       | Some m => splice x s repl 0 [m]
       | None => s
       end.

(** *** The [RegExp] constructor

    [new RegExp(pattern, flags)] parses its pattern and throws a
    [SyntaxError] when the pattern is malformed.  The parser below covers
    the pattern grammar without look-around, back references, braced
    quantifiers and numeric or control escapes; a pattern that uses one
    of those is reported as [Unsupported] rather than guessed at. *)
Inductive failure := SyntaxError | Unsupported.

Inductive parsed (A : Type) :=
| Parsed (a : A)
| Failed (e : failure).
Arguments Parsed {A} a.
Arguments Failed {A} e.

Definition pbind {A B} (x : parsed A) (f : A -> parsed B) : parsed B :=
  match x with Parsed a => f a | Failed e => Failed e end.

Notation "'let*' p := x 'in' k" := (pbind x (fun p => k))
  (at level 10, p pattern, x at level 100, k at level 200).

(** The character after a backslash, outside a class. *)
Definition parse_escape (c : ascii) : parsed regex :=
  if Ascii.eqb c "d" then Parsed (Atom (Cls false Digit))
  else if Ascii.eqb c "D" then Parsed (Atom (Cls true Digit))
  else if Ascii.eqb c "s" then Parsed (Atom (Cls false Space))
  else if Ascii.eqb c "S" then Parsed (Atom (Cls true Space))
  else if Ascii.eqb c "w" then Parsed (Atom (Cls false Word))
  else if Ascii.eqb c "W" then Parsed (Atom (Cls true Word))
  else if Ascii.eqb c "b" then Parsed (WordB false)
  else if Ascii.eqb c "B" then Parsed (WordB true)
  else if Ascii.eqb c "n" then Parsed (Atom (Lit "010"))
  else if Ascii.eqb c "r" then Parsed (Atom (Lit "013"))
  else if Ascii.eqb c "t" then Parsed (Atom (Lit "009"))
  else if Ascii.eqb c "v" then Parsed (Atom (Lit "011"))
  else if Ascii.eqb c "f" then Parsed (Atom (Lit "012"))
  else if Str.is_digit c || Ascii.eqb c "x" || Ascii.eqb c "u"
          || Ascii.eqb c "c" || Ascii.eqb c "k"
       then Failed Unsupported
  else Parsed (Atom (Lit c)).

(** The character after a backslash, inside a class. *)
Definition parse_class_escape (c : ascii) : parsed item :=
  if Ascii.eqb c "d" then Parsed (ICls false Digit)
  else if Ascii.eqb c "D" then Parsed (ICls true Digit)
  else if Ascii.eqb c "s" then Parsed (ICls false Space)
  else if Ascii.eqb c "S" then Parsed (ICls true Space)
  else if Ascii.eqb c "w" then Parsed (ICls false Word)
  else if Ascii.eqb c "W" then Parsed (ICls true Word)
  else if Ascii.eqb c "b" then Parsed (ILit "008")
  else if Ascii.eqb c "n" then Parsed (ILit "010")
  else if Ascii.eqb c "r" then Parsed (ILit "013")
  else if Ascii.eqb c "t" then Parsed (ILit "009")
  else if Ascii.eqb c "v" then Parsed (ILit "011")
  else if Ascii.eqb c "f" then Parsed (ILit "012")
  else if Str.is_digit c || Ascii.eqb c "x" || Ascii.eqb c "u"
          || Ascii.eqb c "c" || Ascii.eqb c "k"
       then Failed Unsupported
  else Parsed (ILit c).

(** A range [lo-hi] is built when the item before the dash and the one
    after it are single characters; a range out of order is an error. *)
Definition close_range (lo : item) (hi : item) : parsed (list item) :=
  match lo, hi with
  | ILit a, ILit b =>
      if (Str.code a <=? Str.code b)%nat then Parsed [IRange a b]
      else Failed SyntaxError
  | _, _ => Parsed [lo; ILit "-"; hi]
  end.

(** The items of a class up to its closing bracket; [pending] is the item
    read last, which a following dash may turn into a range.  A dash that
    opens the class or follows a range is an item like any other. *)
Fixpoint parse_items (s : string) (pending : option item)
  : parsed (list item * string) :=
  let flush := match pending with Some i => [i] | None => [] end in
  match s with
  | EmptyString => Failed SyntaxError
  | String "]" s' => Parsed (flush, s')
  | String "-" (String "]" s') => Parsed (flush ++ [ILit "-"], s')
  | String "-" (String "\" (String c s') as after) =>
      match pending with
      | Some lo =>
          let* hi := parse_class_escape c in
          let* rg := close_range lo hi in
          let* (its, s'') := parse_items s' None in
          Parsed (rg ++ its, s'')
      | None => parse_items after (Some (ILit "-"))
      end
  | String "-" (String c s' as after) =>
      match pending with
      | Some lo =>
          let* rg := close_range lo (ILit c) in
          let* (its, s'') := parse_items s' None in
          Parsed (rg ++ its, s'')
      | None => parse_items after (Some (ILit "-"))
      end
  | String "\" (String c s') =>
      let* i := parse_class_escape c in
      let* (its, s'') := parse_items s' (Some i) in
      Parsed (flush ++ its, s'')
  | String "\" EmptyString => Failed SyntaxError
  | String c s' =>
      let* (its, s'') := parse_items s' (Some (ILit c)) in
      Parsed (flush ++ its, s'')
  end.

Definition parse_class (s : string) : parsed (regex * string) :=
  match s with
  | String "^" s' =>
      let* (its, s'') := parse_items s' None in Parsed (Atom (OneOf true its), s'')
  | _ =>
      let* (its, s'') := parse_items s None in Parsed (Atom (OneOf false its), s'')
  end.

(** An optional quantifier after the atom [r]. *)
Definition parse_quantifier (r : regex) (s : string) : parsed (regex * string) :=
  match s with
  | String "*" (String "?" s') => Parsed (Star false r, s')
  | String "*" s' => Parsed (Star true r, s')
  | String "+" (String "?" s') => Parsed (Plus false r, s')
  | String "+" s' => Parsed (Plus true r, s')
  | String "?" (String "?" s') => Parsed (Opt false r, s')
  | String "?" s' => Parsed (Opt true r, s')
  | String "{" _ => Failed Unsupported
  | _ => Parsed (r, s)
  end.

(** An assertion takes no quantifier. *)
Definition no_quantifier (r : regex) (s : string) : parsed (regex * string) :=
  match s with
  | String "*" _ | String "+" _ | String "?" _ => Failed SyntaxError
  | String "{" _ => Failed Unsupported
  | _ => Parsed (r, s)
  end.

(** Disjunction, alternative and term; [g] counts the capturing groups
    opened so far.  The fuel bounds the depth of the descent. *)
Fixpoint parse_disj (fuel : nat) (s : string) (g : nat)
  : parsed (regex * string * nat) :=
  match fuel with
  | O => Failed Unsupported
  | S f =>
      let* (r1, s1, g1) := parse_alt f s g in
      match s1 with
      | String "|" s2 =>
          let* (r2, s3, g2) := parse_disj f s2 g1 in
          Parsed (Alt r1 r2, s3, g2)
      | _ => Parsed (r1, s1, g1)
      end
  end
with parse_alt (fuel : nat) (s : string) (g : nat)
  : parsed (regex * string * nat) :=
  match fuel with
  | O => Failed Unsupported
  | S f =>
      match s with
      | EmptyString | String "|" _ | String ")" _ => Parsed (Eps, s, g)
      | _ =>
          let* (r1, s1, g1) := parse_term f s g in
          let* (r2, s2, g2) := parse_alt f s1 g1 in
          Parsed (match r2 with Eps => r1 | _ => Seq r1 r2 end, s2, g2)
      end
  end
with parse_term (fuel : nat) (s : string) (g : nat)
  : parsed (regex * string * nat) :=
  match fuel with
  | O => Failed Unsupported
  | S f =>
      match s with
      | EmptyString => Failed SyntaxError
      | String "^" s' => let* (r, s1) := no_quantifier Bol s' in Parsed (r, s1, g)
      | String "$" s' => let* (r, s1) := no_quantifier Eol s' in Parsed (r, s1, g)
      | String "*" _ | String "+" _ | String "?" _ => Failed SyntaxError
      | String "{" _ => Failed Unsupported
      | String "(" (String "?" (String ":" s')) =>
          let* (r, s1, g1) := parse_disj f s' g in
          match s1 with
          | String ")" s2 =>
              let* (r', s3) := parse_quantifier r s2 in Parsed (r', s3, g1)
          | _ => Failed SyntaxError
          end
      | String "(" (String "?" _) => Failed Unsupported
      | String "(" s' =>
          let* (r, s1, g1) := parse_disj f s' (S g) in
          match s1 with
          | String ")" s2 =>
              let* (r', s3) := parse_quantifier (Group (S g) r) s2 in
              Parsed (r', s3, g1)
          | _ => Failed SyntaxError
          end
      | String "[" s' =>
          let* (r, s1) := parse_class s' in
          let* (r', s2) := parse_quantifier r s1 in Parsed (r', s2, g)
      | String "\" EmptyString => Failed SyntaxError
      | String "\" (String c s') =>
          let* r := parse_escape c in
          match r with
          | WordB _ => let* (r', s1) := no_quantifier r s' in Parsed (r', s1, g)
          | _ => let* (r', s1) := parse_quantifier r s' in Parsed (r', s1, g)
          end
      | String "." s' =>
          let* (r', s1) := parse_quantifier (Atom Dot) s' in Parsed (r', s1, g)
      | String c s' =>
          let* (r', s1) := parse_quantifier (Atom (Lit c)) s' in Parsed (r', s1, g)
      end
  end.

Definition parse (pattern : string) : parsed regex :=
  let* (r, s, _) := parse_disj (4 * String.length pattern + 4) pattern 0%nat in
  match s with
  | EmptyString => Parsed r
  | _ => Failed SyntaxError      (* an unmatched closing parenthesis *)
  end.

(** [new RegExp(pattern, flags)] for the flags [i] and [g]. *)
Definition new (pattern : string) (icase glob : bool) : parsed t :=
  let* r := parse pattern in Parsed (mk pattern r icase glob).

End RegExp.

(** A regular-expression literal [/src/flags] of the program: its source
    text, parsed once.  [literals_parse] below checks that every literal
    the program uses does parse. *)
Inductive flags := f_none | f_i | f_g | f_gi.

Definition regexp (src : string) (fl : flags) : RegExp.t :=
  let icase := match fl with f_i | f_gi => true | _ => false end in
  let glob := match fl with f_g | f_gi => true | _ => false end in
  match RegExp.new src icase glob with
  | RegExp.Parsed x => x
  | RegExp.Failed _ => RegExp.mk src RegExp.Eps icase glob
  end.

(** The double quote and the line feed, for string constants. *)
Definition dq : string := String "034" EmptyString.
Definition nl : string := String "010" EmptyString.

(** ** JSON values and [JSON.stringify] *)
Module Json.

Inductive value :=
| Null
| Bool (b : bool)
| Num (z : Z)
| Text (s : string)
| Arr (items : list value)
| Obj (fields : list (string * value)).

(** JavaScript truthiness of a JSON value. *)
Definition truthy (v : value) : bool :=
  match v with
  | Null => false
  | Bool b => b
  | Num z => negb (z =? 0)
  | Text s => negb (String.eqb s EmptyString)
  | Arr _ | Obj _ => true
  end.

Definition hex_digit (n : nat) : ascii :=
  if (n <? 10)%nat then ascii_of_nat (48 + n) else ascii_of_nat (87 + n).

(** QuoteJSONString on one character. *)
Definition escape (c : ascii) : string :=
  if Ascii.eqb c "034" then "\" +:+ dq
  else if Ascii.eqb c "\" then "\\"
  else if Ascii.eqb c "008" then "\b"
  else if Ascii.eqb c "012" then "\f"
  else if Ascii.eqb c "010" then "\n"
  else if Ascii.eqb c "013" then "\r"
  else if Ascii.eqb c "009" then "\t"
  else if (Str.code c <? 32)%nat
       then "\u00" +:+ String (hex_digit (Str.code c / 16))
                        (String (hex_digit (Str.code c mod 16)) EmptyString)
  else String c EmptyString.

Fixpoint escape_all (s : string) : string :=
  match s with
  | EmptyString => EmptyString
  | String c s' => escape c +:+ escape_all s'
  end.

Definition quote (s : string) : string := dq +:+ escape_all s +:+ dq.

Fixpoint stringify (v : value) : string :=
  match v with
  | Null => "null"
  | Bool true => "true"
  | Bool false => "false"
  | Num z => Str.ofZ z
  | Text s => quote s
  | Arr items =>
      "[" +:+
      (fix elems (l : list value) : string :=
         match l with
         | [] => EmptyString
         | [x] => stringify x
         | x :: l' => stringify x +:+ "," +:+ elems l'
         end) items +:+ "]"
  | Obj fields =>
      "{" +:+
      (fix members (l : list (string * value)) : string :=
         match l with
         | [] => EmptyString
         | [(k, x)] => quote k +:+ ":" +:+ stringify x
         | (k, x) :: l' => quote k +:+ ":" +:+ stringify x +:+ "," +:+ members l'
         end) fields +:+ "}"
  end.

Fixpoint field (k : string) (fields : list (string * value)) : option value :=
  match fields with
  | [] => None
  | (k', v) :: fields' => if String.eqb k k' then Some v else field k fields'
  end.

End Json.

(** ** Insertion-ordered maps ([Map<string, V>])

    The entries in insertion order.  [set] on a key that is present
    replaces its value where it stands; on a new key it appends. *)
Module OMap.
Section OMap.
Context {V : Type}.

Definition t := list (string * V).

Fixpoint get (k : string) (m : t) : option V :=
  match m with
  | [] => None
  | (k', v) :: m' => if String.eqb k k' then Some v else get k m'
  end.

Fixpoint set (k : string) (v : V) (m : t) : t :=
  match m with
  | [] => [(k, v)]
  | (k', v') :: m' =>
      if String.eqb k k' then (k, v) :: m' else (k', v') :: set k v m'
  end.

Fixpoint delete (k : string) (m : t) : t :=
  match m with
  | [] => []
  | (k', v') :: m' =>
      if String.eqb k k' then m' else (k', v') :: delete k m'
  end.

Definition size (m : t) : Z := Z.of_nat (length m).

(** [m.keys().next().value] *)
Definition first_key (m : t) : option string :=
  match m with
  | [] => None
  | (k, _) :: _ => Some k
  end.

Definition keys (m : t) : list string := List.map fst m.

(** No key twice: what every map built by [set] and [delete] satisfies. *)
Definition wf (m : t) : Prop := NoDup (keys m).
End OMap.
Arguments t : clear implicits.
End OMap.

(** ** [lib/query-cache.ts] *)
Module QueryCache.
Section Cache.
Context {T : Type}.

Record CacheEntry := Entry {
  data : T;
  timestamp : Z;
  ttl : Z;
  hits : Z
}.

Record t := Cache {
  cache : OMap.t CacheEntry;
  maxSize : Z;
  defaultTTL : Z
}.

(** [new QueryCache(maxSize = 1000, defaultTTL = 5 * 60 * 1000)] *)
Definition new (maxSize defaultTTL : option Z) : t :=
  Cache [] (default 1000 maxSize) (default (5 * 60 * 1000) defaultTTL).

Definition with_cache (c : t) (m : OMap.t CacheEntry) : t :=
  Cache m (maxSize c) (defaultTTL c).

(** [generateKey]: [params] is [None] for [undefined]. *)
Definition generateKey (query : string) (params : option Json.value) : string :=
  let normalized :=
    RegExp.replace (regexp "\s+" f_g) (Str.toLowerCase (Str.trim query)) " " in
  let paramsKey :=
    match params with
    | Some p => if Json.truthy p then Json.stringify p else EmptyString
    | None => EmptyString
    end in
  normalized +:+ ":" +:+ paramsKey.

(** [get]: the result and the cache afterwards. *)
Definition get (c : t) (now : Z) (query : string) (params : option Json.value)
  : option (T * bool) * t :=
  let key := generateKey query params in
  match OMap.get key (cache c) with
  | None => (None, c)
  | Some entry =>
      let age := now - timestamp entry in
      if ttl entry <? age
      then (None, with_cache c (OMap.delete key (cache c)))
      else
        let entry' := Entry (data entry) (timestamp entry) (ttl entry)
                            (hits entry + 1) in
        (Some (data entry, true), with_cache c (OMap.set key entry' (cache c)))
  end.

(** [ttl || this.defaultTTL] *)
Definition ttl_or_default (c : t) (ttl : option Z) : Z :=
  match ttl with
  | Some x => if x =? 0 then defaultTTL c else x
  | None => defaultTTL c
  end.

Definition set (c : t) (now : Z) (query : string) (d : T)
    (params : option Json.value) (ttl : option Z) : t :=
  let key := generateKey query params in
  let evicted :=
    if maxSize c <=? OMap.size (cache c)
    then match OMap.first_key (cache c) with
         | Some oldestKey =>
             if String.eqb oldestKey EmptyString then cache c
             else OMap.delete oldestKey (cache c)
         | None => cache c
         end
    else cache c in
  with_cache c (OMap.set key (Entry d now (ttl_or_default c ttl) 0) evicted).

(** The loop of [invalidate]: visit the entries in order, delete the
    ones whose key matches, count them. *)
Definition invalidate_loop (regex : RegExp.t) (m : OMap.t CacheEntry)
  : Z * OMap.t CacheEntry :=
  fold_left (fun (acc : Z * OMap.t CacheEntry) (kv : string * CacheEntry) =>
               let '(count, live) := acc in
               if RegExp.test regex (fst kv)
               then (count + 1, OMap.delete (fst kv) live)
               else (count, live))
            m (0, m).

(** [invalidate]: [pattern] is [None] for [undefined].  The result is
    [Failed SyntaxError] when [new RegExp(pattern, "i")] throws. *)
Definition invalidate (c : t) (pattern : option string)
  : RegExp.parsed (Z * t) :=
  match pattern with
  | None | Some EmptyString =>
      RegExp.Parsed (OMap.size (cache c), with_cache c [])
  | Some p =>
      match RegExp.new p true false with
      | RegExp.Failed e => RegExp.Failed e
      | RegExp.Parsed regex =>
          let '(count, live) := invalidate_loop regex (cache c) in
          RegExp.Parsed (count, with_cache c live)
      end
  end.

(** A quotient the program computes in floating point, kept as its
    two operands. *)
Inductive ratio := Ratio (numerator denominator : Z).

Record Stats := {
  size : Z;
  stats_maxSize : Z;
  totalHits : Z;
  avgHitsPerEntry : ratio;
  utilizationPercent : ratio     (* [(size / maxSize) * 100] *)
}.

Definition getStats (c : t) : Stats :=
  let '(total, entries) :=
    fold_left (fun (acc : Z * Z) (kv : string * CacheEntry) =>
                 (fst acc + hits (snd kv), snd acc + 1))
              (cache c) (0, 0) in
  {| size := OMap.size (cache c);
     stats_maxSize := maxSize c;
     totalHits := total;
     avgHitsPerEntry := if 0 <? entries then Ratio total entries else Ratio 0 1;
     utilizationPercent := Ratio (OMap.size (cache c) * 100) (maxSize c) |}.

Definition cleanup (c : t) (now : Z) : Z * t :=
  let '(removed, live) :=
    fold_left (fun (acc : Z * OMap.t CacheEntry) (kv : string * CacheEntry) =>
                 let '(removed, live) := acc in
                 let age := now - timestamp (snd kv) in
                 if ttl (snd kv) <? age
                 then (removed + 1, OMap.delete (fst kv) live)
                 else (removed, live))
              (cache c) (0, cache c) in
  (removed, with_cache c live).

End Cache.
Arguments CacheEntry : clear implicits.
Arguments t : clear implicits.
Arguments Stats : clear implicits.
End QueryCache.

(** ** [lib/query-cache.ts] over the built-ins

    [generateKey] hands its [params?: any] to [JSON.stringify], and
    [invalidate] hands its pattern to the [RegExp] constructor.  In
    [QueryCache] above the params are JSON values and the patterns are
    those of [RegExp.parse].  Here the built-ins are parameters, so that
    the operations are defined on every value and every pattern:
    - [truthy v] is [ToBoolean(v)];
    - [stringify v] is the completion of [JSON.stringify(v)]: a text,
      [undefined] (for a function or a symbol), or a throw (for a BigInt,
      a cyclic structure, a [toJSON] that throws);
    - [compile pattern] is [new RegExp(pattern, "i")], which throws a
      [SyntaxError] on a malformed pattern;
    - [test regex key] is [regex.test(key)]; the expression has neither
      the [g] nor the [y] flag, so the call keeps no state. *)
Module AnyCache.
Import QueryCache.

Inductive stringified :=
| Serialized (text : string)
| NotSerialized                     (* [undefined] *)
| StringifyThrows.

Inductive builtin := JSON_stringify | RegExp_constructor.

(** How a call ends: with a value, or with what a built-in threw. *)
Inductive outcome (A : Type) :=
| Returns (a : A)
| Throws (thrower : builtin).
Arguments Returns {A} a.
Arguments Throws {A} thrower.

Section Builtins.
Context {T any compiled : Type}.
Variable truthy : any -> bool.
Variable stringify : any -> stringified.
Variable compile : string -> option compiled.
Variable test : compiled -> string -> bool.

Definition normalized (query : string) : string :=
  RegExp.replace (regexp "\s+" f_g) (Str.toLowerCase (Str.trim query)) " ".

(** [params ? JSON.stringify(params) : ""], as the template literal
    renders it. *)
Definition paramsKey (params : option any) : outcome string :=
  match params with
  | Some p =>
      if truthy p then
        match stringify p with
        | Serialized text => Returns text
        | NotSerialized => Returns "undefined"
        | StringifyThrows => Throws JSON_stringify
        end
      else Returns EmptyString
  | None => Returns EmptyString
  end.

Definition generateKey (query : string) (params : option any) : outcome string :=
  match paramsKey params with
  | Returns paramsKey => Returns (normalized query +:+ ":" +:+ paramsKey)
  | Throws thrower => Throws thrower
  end.

(** The body of [get] once the key is known. *)
Definition lookup (c : QueryCache.t T) (now : Z) (key : string)
  : option (T * bool) * QueryCache.t T :=
  match OMap.get key (cache c) with
  | None => (None, c)
  | Some entry =>
      let age := now - timestamp entry in
      if ttl entry <? age
      then (None, with_cache c (OMap.delete key (cache c)))
      else
        let entry' := Entry (data entry) (timestamp entry) (ttl entry)
                            (hits entry + 1) in
        (Some (data entry, true), with_cache c (OMap.set key entry' (cache c)))
  end.

(** [get]: how the call ends and the cache afterwards; a call that
    throws has not touched the cache. *)
Definition get (c : QueryCache.t T) (now : Z) (query : string)
    (params : option any) : outcome (option (T * bool)) * QueryCache.t T :=
  match generateKey query params with
  | Returns key => let '(r, c') := lookup c now key in (Returns r, c')
  | Throws thrower => (Throws thrower, c)
  end.

(** The body of [set] once the key is known. *)
Definition store (c : QueryCache.t T) (now : Z) (key : string) (d : T)
    (ttl : option Z) : QueryCache.t T :=
  let evicted :=
    if maxSize c <=? OMap.size (cache c)
    then match OMap.first_key (cache c) with
         | Some oldestKey =>
             if String.eqb oldestKey EmptyString then cache c
             else OMap.delete oldestKey (cache c)
         | None => cache c
         end
    else cache c in
  with_cache c (OMap.set key (Entry d now (ttl_or_default c ttl) 0) evicted).

Definition set (c : QueryCache.t T) (now : Z) (query : string) (d : T)
    (params : option any) (ttl : option Z) : outcome unit * QueryCache.t T :=
  match generateKey query params with
  | Returns key => (Returns tt, store c now key d ttl)
  | Throws thrower => (Throws thrower, c)
  end.

Definition invalidate_loop (regex : compiled) (m : OMap.t (CacheEntry T))
  : Z * OMap.t (CacheEntry T) :=
  fold_left (fun (acc : Z * OMap.t (CacheEntry T)) (kv : string * CacheEntry T) =>
               let '(count, live) := acc in
               if test regex (fst kv)
               then (count + 1, OMap.delete (fst kv) live)
               else (count, live))
            m (0, m).

Definition invalidate (c : QueryCache.t T) (pattern : option string)
  : outcome Z * QueryCache.t T :=
  match pattern with
  | None | Some EmptyString => (Returns (OMap.size (cache c)), with_cache c [])
  | Some p =>
      match compile p with
      | None => (Throws RegExp_constructor, c)
      | Some regex =>
          let '(count, live) := invalidate_loop regex (cache c) in
          (Returns count, with_cache c live)
      end
  end.

End Builtins.

(** The built-ins on the JSON values and the patterns of the model. *)
Definition jsonStringify (v : Json.value) : stringified :=
  Serialized (Json.stringify v).


End AnyCache.

(** ** [lib/query-security.ts] *)
Module Security.

Record SecurityCheckResult := Check {
  safe : bool;
  errors : list string;
  warnings : list string
}.

Definition dangerousPatterns : list RegExp.t := [
  (* Command execution *)
  regexp "xp_cmdshell" f_i;
  regexp "exec\s+master" f_i;
  regexp "execute\s+master" f_i;
  (* File operations *)
  regexp "bulk\s+insert" f_i;
  regexp "openrowset" f_i;
  regexp "opendatasource" f_i;
  regexp "sp_oacreate" f_i;
  (* System functions *)
  regexp "pg_read_file" f_i;
  regexp "pg_ls_dir" f_i;
  regexp "lo_import" f_i;
  regexp "lo_export" f_i;
  (* Stacked queries (multiple statements) *)
  regexp ";\s*(drop|delete|truncate|alter|create|grant|revoke)" f_i;
  (* Comment-based injection *)
  regexp "--[^\n]*?(union|select|insert|update|delete)" f_i;
  regexp "\/\*.*?(union|select|insert|update|delete).*?\*\/" f_i;
  (* Union-based injection *)
  regexp "union\s+(all\s+)?select" f_i;
  (* Boolean-based blind injection patterns *)
  regexp "'\s*(or|and)\s*'?\s*'?\s*=\s*'?" f_i;
  regexp "'\s*(or|and)\s+\d+\s*=\s*\d+" f_i;
  (* Time-based blind injection *)
  regexp "waitfor\s+delay" f_i;
  regexp "pg_sleep" f_i;
  regexp "sleep\s*\(" f_i;
  regexp "benchmark\s*\(" f_i
].

Definition suspiciousPatterns : list (RegExp.t * string) := [
  (regexp "information_schema" f_i, "Access to information_schema detected");
  (regexp "pg_catalog" f_i, "Access to pg_catalog detected");
  (regexp "'\s*\+\s*'" f_i, "String concatenation in query");
  (regexp "char\s*\(" f_i, "CHAR() function usage detected");
  (regexp "concat\s*\(" f_i, "CONCAT() function usage detected")
].

Definition detectSQLInjection (query : string) : SecurityCheckResult :=
  let errors :=
    List.map (fun pattern =>
                "Detected dangerous SQL pattern: " +:+ RegExp.source pattern)
             (List.filter (fun pattern => RegExp.test pattern query)
                          dangerousPatterns) in
  let warnings :=
    List.map snd
             (List.filter (fun pm => RegExp.test (fst pm) query)
                          suspiciousPatterns) in
  Check (Nat.eqb (length errors) 0) errors warnings.

Definition writeOperations : list string :=
  ["INSERT"; "UPDATE"; "DELETE"; "DROP"; "CREATE"; "ALTER"; "TRUNCATE";
   "GRANT"; "REVOKE"].

Definition enforceReadOnly (query : string) : SecurityCheckResult :=
  let normalized := Str.toUpperCase (Str.trim query) in
  let errors1 :=
    List.map (fun op => "Write operation not allowed: " +:+ op)
             (List.filter
                (fun op => RegExp.test (regexp ("(^|;)\s*" +:+ op +:+ "\s+") f_i) query)
                writeOperations) in
  let errors2 :=
    if negb (Str.startsWith normalized "SELECT")
       && negb (Str.startsWith normalized "WITH")
    then ["Query must be a SELECT statement or CTE"] else [] in
  let statements :=
    List.filter (fun s => negb (String.eqb (Str.trim s) EmptyString))
                (Str.split query ";") in
  let warnings :=
    if (1 <? length statements)%nat
    then ["Multiple statements detected - only the first will be executed"]
    else [] in
  let errors := errors1 ++ errors2 in
  Check (Nat.eqb (length errors) 0) errors warnings.

(** The parenthesis walk: the balance after the walk and whether it went
    negative (where the loop breaks). *)
Fixpoint parenWalk (s : string) (parenBalance : Z) : Z * bool :=
  match s with
  | EmptyString => (parenBalance, false)
  | String char s' =>
      let b1 := if Ascii.eqb char "(" then parenBalance + 1 else parenBalance in
      let b2 := if Ascii.eqb char ")" then b1 - 1 else b1 in
      if b2 <? 0 then (b2, true) else parenWalk s' b2
  end.

Definition validateQueryStructure (query : string) : SecurityCheckResult :=
  let singleQuotes := RegExp.count (regexp "'" f_g) query in
  let e1 := if negb (singleQuotes mod 2 =? 0)
            then ["Unbalanced single quotes detected"] else [] in
  let doubleQuotes := RegExp.count (regexp dq f_g) query in
  let e2 := if negb (doubleQuotes mod 2 =? 0)
            then ["Unbalanced double quotes detected"] else [] in
  let '(parenBalance, broke) := parenWalk query 0 in
  let e3 := if broke then ["Unbalanced parentheses detected"] else [] in
  let e4 := if 0 <? parenBalance then ["Unclosed parentheses detected"] else [] in
  let w1 := if 10000 <? Str.len query
            then ["Query exceeds recommended length (10000 characters)"] else [] in
  let selectCount := RegExp.count (regexp "\bselect\b" f_gi) query in
  let w2 := if 10 <? selectCount
            then ["High number of SELECT clauses (" +:+ Str.ofZ selectCount
                  +:+ ") - may impact performance"] else [] in
  let joinCount := RegExp.count (regexp "\bjoin\b" f_gi) query in
  let w3 := if 8 <? joinCount
            then ["High number of JOINs (" +:+ Str.ofZ joinCount
                  +:+ ") - may impact performance"] else [] in
  let errors := e1 ++ e2 ++ e3 ++ e4 in
  Check (Nat.eqb (length errors) 0) errors (w1 ++ w2 ++ w3).

Definition validateQuerySecurity (query : string) : SecurityCheckResult :=
  let results :=
    [detectSQLInjection query; enforceReadOnly query; validateQueryStructure query] in
  let allErrors := flat_map errors results in
  let allWarnings := flat_map warnings results in
  Check (Nat.eqb (length allErrors) 0) allErrors allWarnings.

(** [sanitizeInput]: strings lose the characters of the class and are
    trimmed, arrays and objects are sanitized member by member, the other
    values are returned as they are.  The members of an object are
    assigned one by one to a new object [{}]: the assignment
    [sanitized["__proto__"] = ...] goes to the setter the new object
    inherits from [Object.prototype] and stores no member, so the result
    has no member of that name. *)
Fixpoint sanitizeInput (input : Json.value) : Json.value :=
  match input with
  | Json.Text s =>
      Json.Text
        (Str.trim (RegExp.replace (regexp "[;\-\-\/\*\*\/]" f_g) s EmptyString))
  | Json.Arr items => Json.Arr (List.map sanitizeInput items)
  | Json.Obj fields =>
      Json.Obj
        (List.filter (fun '(key, _) => negb (String.eqb key "__proto__"))
           (List.map (fun '(key, value) => (key, sanitizeInput value)) fields))
  | _ => input
  end.

(** *** The rate limiter *)
Module RateLimiter.

Record t := Limiter {
  requests : gmap string (list Z);
  maxRequests : Z;
  windowMs : Z
}.

(** [new RateLimiter(maxRequests = 100, windowMs = 60000)] *)
Definition new (maxRequests windowMs : option Z) : t :=
  Limiter ∅ (default 100 maxRequests) (default 60000 windowMs).

(** [userRequests.filter(timestamp => now - timestamp < windowMs)] *)
Definition validRequests (l : t) (now : Z) (identifier : string) : list Z :=
  let userRequests := default [] (requests l !! identifier) in
  List.filter (fun timestamp => now - timestamp <? windowMs l) userRequests.

Definition isAllowed (l : t) (now : Z) (identifier : string) : bool * t :=
  let valid := validRequests l now identifier in
  if maxRequests l <=? Z.of_nat (length valid)
  then (false, l)
  else (true,
        Limiter (<[identifier := valid ++ [now]]> (requests l))
                (maxRequests l) (windowMs l)).

Definition getRemainingRequests (l : t) (now : Z) (identifier : string) : Z :=
  Z.max 0 (maxRequests l - Z.of_nat (length (validRequests l now identifier))).

Definition reset (l : t) (identifier : string) : t :=
  Limiter (delete identifier (requests l)) (maxRequests l) (windowMs l).

End RateLimiter.

End Security.

(** ** [lib/query-optimizer.ts] *)
Module Optimizer.

Record PaginationOptions := { page : Z; pageSize : Z }.

Record Pagination := {
  pg_page : Z;
  pg_pageSize : Z;
  pg_offset : Z;
  pg_limit : Z
}.

Record OptimizedQuery := Optimized {
  sql : string;
  countSql : option string;
  pagination : option Pagination;
  hints : list string
}.

Definition paginateQuery (sql : string) (options : PaginationOptions)
  : OptimizedQuery :=
  let validPage := Z.max 1 (page options) in
  let validPageSize := Z.min 1000 (Z.max 10 (pageSize options)) in
  let offset := (validPage - 1) * validPageSize in
  let limit := validPageSize in
  let cleanedSql :=
    Str.trim (RegExp.replace (regexp "OFFSET\s+\d+" f_i)
                (RegExp.replace (regexp "LIMIT\s+\d+" f_i) sql EmptyString)
                EmptyString) in
  let cleanedSql := RegExp.replace (regexp ";$" f_none) cleanedSql EmptyString in
  let paginatedSql :=
    cleanedSql +:+ nl +:+ "LIMIT " +:+ Str.ofZ limit +:+ " OFFSET " +:+ Str.ofZ offset in
  let countSql :=
    "SELECT COUNT(*) as total FROM (" +:+ cleanedSql +:+ ") as subquery" in
  let hints :=
    ["Paginating: page " +:+ Str.ofZ validPage +:+ ", " +:+ Str.ofZ validPageSize
       +:+ " rows per page";
     "Offset: " +:+ Str.ofZ offset +:+ ", Limit: " +:+ Str.ofZ limit]
    ++ (if 1000 <? pageSize options
        then ["Page size capped at 1000 rows for performance"] else []) in
  {| sql := paginatedSql;
     countSql := Some countSql;
     pagination := Some {| pg_page := validPage; pg_pageSize := validPageSize;
                           pg_offset := offset; pg_limit := limit |};
     hints := hints |}.

Definition group (n : nat) (m : RegExp.result) : string :=
  default EmptyString (RegExp.cap_get n (RegExp.groups m)).

(** [array.includes(x)] on strings *)
Definition mem (x : string) (l : list string) : bool :=
  existsb (String.eqb x) l.

(** [s.split(".").pop() || ""] *)
Definition lastSegment (s : string) : string :=
  List.last (Str.split s ".") EmptyString.

Definition addIndexHints (sql : string) (tableIndexes : gmap string (list string))
  : OptimizedQuery :=
  match RegExp.exec (regexp "FROM\s+([a-zA-Z0-9_]+)" f_i) sql with
  | None => Optimized sql None None []
  | Some fromMatch =>
      let tableName := group 1 fromMatch in
      let indexes := default [] (tableIndexes !! Str.toLowerCase tableName) in
      let h1 :=
        match RegExp.exec
                (regexp "WHERE\s+(.+?)(?:GROUP BY|ORDER BY|LIMIT|$)" f_i) sql with
        | Some whereMatch =>
            let whereClause := group 1 whereMatch in
            List.map (fun index => "Index available on " +:+ tableName +:+ "." +:+ index)
              (List.filter (fun index => Str.includes (Str.toLowerCase whereClause)
                                                      (Str.toLowerCase index))
                           indexes)
        | None => []
        end in
      let h2 :=
        match RegExp.exec (regexp "ORDER BY\s+([a-zA-Z0-9_]+)" f_i) sql with
        | Some orderByMatch =>
            let orderColumn := group 1 orderByMatch in
            if mem orderColumn indexes
            then ["Index available for ORDER BY on " +:+ orderColumn]
            else ["Consider creating index on " +:+ tableName +:+ "." +:+ orderColumn
                  +:+ " for ORDER BY optimization"]
        | None => []
        end in
      let joinMatches :=
        RegExp.matchAll
          (regexp "JOIN\s+([a-zA-Z0-9_]+)\s+ON\s+([a-zA-Z0-9_.]+)\s*=\s*([a-zA-Z0-9_.]+)"
                  f_gi) sql in
      let h3 :=
        flat_map (fun m =>
                    let joinTable := group 1 m in
                    let leftColumn := lastSegment (group 2 m) in
                    let rightColumn := lastSegment (group 3 m) in
                    let joinIndexes :=
                      default [] (tableIndexes !! Str.toLowerCase joinTable) in
                    if negb (mem leftColumn joinIndexes)
                       && negb (mem rightColumn joinIndexes)
                    then ["Consider adding index on join column: " +:+ joinTable
                          +:+ "." +:+ rightColumn]
                    else [])
                 joinMatches in
      Optimized sql None None (h1 ++ h2 ++ h3)
  end.

Definition optimizeSelectStar (sql : string) (tableColumns : gmap string (list string))
  : OptimizedQuery :=
  if RegExp.test (regexp "SELECT\s+\*" f_i) sql then
    let h1 := "SELECT * detected - consider specifying explicit columns for better performance" in
    match RegExp.exec (regexp "FROM\s+([a-zA-Z0-9_]+)" f_i) sql with
    | Some fromMatch =>
        let tableName := group 1 fromMatch in
        match tableColumns !! Str.toLowerCase tableName with
        | Some (c :: cs) =>
            let columns := c :: cs in
            let columnList := Str.join ", " columns in
            Optimized
              (RegExp.replace (regexp "SELECT\s+\*" f_i) sql ("SELECT " +:+ columnList))
              None None
              [h1;
               "Replaced SELECT * with explicit columns: "
               +:+ Str.join ", " (firstn 5 columns)
               +:+ (if (5 <? length columns)%nat then "..." else EmptyString)]
        | _ => Optimized sql None None [h1]
        end
    | None => Optimized sql None None [h1]
    end
  else Optimized sql None None [].

Definition optimizeSubqueries (sql : string) : OptimizedQuery :=
  let subqueryCount := RegExp.count (regexp "SELECT[\s\S]*?FROM\s*\(" f_gi) sql in
  let h1 :=
    if 0 <? subqueryCount
    then [Str.ofZ subqueryCount +:+ " subquery(ies) detected"]
         ++ (if 3 <? subqueryCount
             then ["Consider using CTEs (WITH clause) for better readability and potential performance"]
             else [])
    else [] in
  let h2 :=
    if RegExp.test (regexp "WHERE\s+[a-zA-Z0-9_.]+\s+IN\s*\(\s*SELECT" f_i) sql
    then ["Correlated subquery detected - consider using JOIN instead for better performance"]
    else [] in
  Optimized sql None None (h1 ++ h2).

(** [addQueryTimeout(sql, timeoutMs = 30000)] *)
Definition addQueryTimeout (sql : string) (timeoutMs : option Z) : string :=
  "SET LOCAL statement_timeout = " +:+ Str.ofZ (default 30000 timeoutMs) +:+ "; " +:+ sql.

Record Options := {
  opt_pagination : option PaginationOptions;
  opt_tableIndexes : option (gmap string (list string));
  opt_tableColumns : option (gmap string (list string));
  opt_enableTimeout : bool;
  opt_timeoutMs : option Z
}.

(** [options.timeoutMs || 30000] *)
Definition timeout_or_default (timeoutMs : option Z) : Z :=
  match timeoutMs with
  | Some x => if x =? 0 then 30000 else x
  | None => 30000
  end.

Definition optimizeQuery (sql0 : string) (options : Options) : OptimizedQuery :=
  let result := Optimized sql0 None None [] in
  (* Apply pagination *)
  let result :=
    match opt_pagination options with
    | Some p =>
        let paginated := paginateQuery (sql result) p in
        Optimized (sql paginated) (countSql paginated) (pagination paginated)
                  (hints result ++ hints paginated)
    | None => result
    end in
  (* Add index hints *)
  let result :=
    match opt_tableIndexes options with
    | Some ix =>
        let indexed := addIndexHints (sql result) ix in
        Optimized (sql indexed) (countSql result) (pagination result)
                  (hints result ++ hints indexed)
    | None => result
    end in
  (* Optimize SELECT * *)
  let result :=
    match opt_tableColumns options with
    | Some cols =>
        let optimized := optimizeSelectStar (sql result) cols in
        Optimized (sql optimized) (countSql result) (pagination result)
                  (hints result ++ hints optimized)
    | None => result
    end in
  (* Optimize subqueries *)
  let subqueryOpt := optimizeSubqueries (sql result) in
  let result :=
    Optimized (sql result) (countSql result) (pagination result)
              (hints result ++ hints subqueryOpt) in
  (* Add timeout *)
  if opt_enableTimeout options then
    Optimized (addQueryTimeout (sql result) (opt_timeoutMs options))
              (countSql result) (pagination result)
              (hints result ++
               ["Query timeout set to "
                +:+ Str.ofZ (timeout_or_default (opt_timeoutMs options)) +:+ "ms"])
  else result.

Inductive Cost := low | medium | high.

Definition estimateQueryCost (sql : string) : Cost * list string :=
  let joinCount := RegExp.count (regexp "\bJOIN\b" f_gi) sql in
  let s1 := if 0 <? joinCount then joinCount * 10 else 0 in
  let f1 := if 0 <? joinCount then [Str.ofZ joinCount +:+ " JOIN(s)"] else [] in
  let subqueryCount := RegExp.count (regexp "SELECT[\s\S]*?FROM\s*\(" f_gi) sql in
  let s2 := if 0 <? subqueryCount then subqueryCount * 15 else 0 in
  let f2 := if 0 <? subqueryCount
            then [Str.ofZ subqueryCount +:+ " subquery(ies)"] else [] in
  let aggregations :=
    RegExp.count (regexp "\b(COUNT|SUM|AVG|MIN|MAX|GROUP BY)\b" f_gi) sql in
  let s3 := if 0 <? aggregations then aggregations * 5 else 0 in
  let f3 := if 0 <? aggregations
            then [Str.ofZ aggregations +:+ " aggregation(s)"] else [] in
  let distinct := RegExp.test (regexp "\bDISTINCT\b" f_i) sql in
  let s4 := if distinct then 10 else 0 in
  let f4 := if distinct then ["DISTINCT operation"] else [] in
  let ordered := RegExp.test (regexp "\bORDER BY\b" f_i) sql in
  let s5 := if ordered then 5 else 0 in
  let f5 := if ordered then ["ORDER BY clause"] else [] in
  let likeCount := RegExp.count (regexp "\bLIKE\b" f_gi) sql in
  let s6 := if 0 <? likeCount then likeCount * 8 else 0 in
  let f6 := if 0 <? likeCount then [Str.ofZ likeCount +:+ " LIKE pattern(s)"] else [] in
  let score := s1 + s2 + s3 + s4 + s5 + s6 in
  let cost := if score <? 20 then low else if score <? 50 then medium else high in
  (cost, f1 ++ f2 ++ f3 ++ f4 ++ f5 ++ f6).

End Optimizer.

(** ** [app/api/query-pipeline/route.ts] *)
Module Pipeline.
Import Security.

(** How a call ends: with a value or with a thrown error. *)
Inductive completion (A : Type) :=
| Return (a : A)
| Throw (message : string).
Arguments Return {A} a.
Arguments Throw {A} message.

Inductive Classification := structured | document | hybrid.

Definition show (c : Classification) : string :=
  match c with
  | structured => "structured"
  | document => "document"
  | hybrid => "hybrid"
  end.

Record QueryPipelineRequest := {
  rq_query : string;
  rq_page : option Z;
  rq_pageSize : option Z;
  rq_enableCache : option bool;
  rq_userId : option string
}.

Record Performance := {
  classification_ms : Z;
  security_check_ms : Z;
  optimization_ms : Z;
  cache_check_ms : Z;
  sql_generation_ms : Z;
  sql_execution_ms : Z;
  embedding_generation_ms : Z;
  document_search_ms : Z;
  total_ms : Z;
  cache_hit : bool;
  cache_stats : option QueryCache.Stats
}.

Record PageInfo := {
  pi_page : Z;
  pi_pageSize : Z;
  pi_total : Z;
  pi_totalPages : Z
}.

Record OptimizationInfo := {
  oi_hints : list string;
  oi_estimatedCost : Optimizer.Cost;
  oi_costFactors : list string
}.

Record SecurityInfo := {
  si_safe : bool;
  si_warnings : list string
}.

(** The response interface of the route, field for field; an optional
    field that is [undefined] is [None]. *)
Record QueryPipelineResponse := {
  success : bool;
  query_type : Classification;
  structured_results : option (list Json.value);
  document_results : option (list Json.value);
  sql : option string;
  performance : Performance;
  pagination : option PageInfo;
  optimization : option OptimizationInfo;
  security : option SecurityInfo;
  errors : option (list string)
}.

Inductive Details :=
| NoDetails
| Message (m : string)
| Messages (ms : list string).

(** [{ success: false, error, details?, remaining? }] *)
Record ErrorBody := {
  error : string;
  details : Details;
  remaining : option Z
}.

Inductive Body :=
| Success (r : QueryPipelineResponse)
| Failure (e : ErrorBody).

(** [NextResponse.json(body, { status })] *)
Record HttpResponse := json { body : Body; status : Z }.

Record GenerationConfig := { temperature : Z; maxOutputTokens : Z }.

Record SchemaRow := { sr_table_name : string; sr_columns : Json.value }.
Record IndexRow := { ir_tablename : string; ir_indexname : string;
                     ir_columns : list string }.
Record ColumnRow := { cr_table_name : string; cr_column_name : string }.

(** The external collaborators of one request: the clock, the text
    generation service, the embedding service, the relational backend
    and the vector store, each as the outcome it gives to a call. *)
Record World := {
  clock : nat -> Z;               (* the n-th reading of [Date.now()] *)
  geminiGenerate : string -> GenerationConfig -> completion string;
  schemaTables : completion (list SchemaRow);
  pgIndexes : completion (list IndexRow);
  schemaColumns : completion (list ColumnRow);
  queryRawUnsafe : string -> completion (list Json.value);
  generateEmbeddings : list string -> completion (list Json.value);
  documentSearch : option Json.value -> Z -> completion (list Json.value)
}.

(** The process-wide state a request reads and writes. *)
Record State := {
  queryCache : QueryCache.t QueryPipelineResponse;
  rateLimiter : RateLimiter.t;
  reads : nat;                    (* clock readings taken so far *)
  console : list string;          (* lines written by [console.*] *)
  executed : list string          (* statements given to [$queryRawUnsafe] *)
}.

Definition M (A : Type) : Type := State -> completion A * State.

Definition ret {A} (a : A) : M A := fun st => (Return a, st).

Definition bind {A B} (m : M A) (f : A -> M B) : M B :=
  fun st =>
    match m st with
    | (Return a, st') => f a st'
    | (Throw e, st') => (Throw e, st')
    end.

Notation "'let*' p := x 'in' k" := (bind x (fun p => k))
  (at level 10, p pattern, x at level 100, k at level 200).

(** [try { m } catch (error) { handler(error.message) }] *)
Definition try_catch {A} (m : M A) (handler : string -> M A) : M A :=
  fun st =>
    match m st with
    | (Return a, st') => (Return a, st')
    | (Throw e, st') => handler e st'
    end.

(** [await] on an external call. *)
Definition await {A} (c : completion A) : M A := fun st => (c, st).

Definition log (line : string) : M unit :=
  fun st => (Return tt,
             {| queryCache := queryCache st; rateLimiter := rateLimiter st;
                reads := reads st; console := console st ++ [line];
                executed := executed st |}).

Section Handler.
Variable w : World.

(** [Date.now()] *)
Definition now : M Z :=
  fun st => (Return (clock w (reads st)),
             {| queryCache := queryCache st; rateLimiter := rateLimiter st;
                reads := S (reads st); console := console st;
                executed := executed st |}).

Definition put_cache (c : QueryCache.t QueryPipelineResponse) : M unit :=
  fun st => (Return tt,
             {| queryCache := c; rateLimiter := rateLimiter st;
                reads := reads st; console := console st;
                executed := executed st |}).

Definition put_limiter (l : RateLimiter.t) : M unit :=
  fun st => (Return tt,
             {| queryCache := queryCache st; rateLimiter := l;
                reads := reads st; console := console st;
                executed := executed st |}).

Definition get_state : M State := fun st => (Return st, st).

(** [rateLimiter.isAllowed(id)] and [getRemainingRequests(id)]: each
    reads the clock once. *)
Definition isAllowed (identifier : string) : M bool :=
  let* t := now in
  let* st := get_state in
  let '(ok, l) := RateLimiter.isAllowed (rateLimiter st) t identifier in
  let* _ := put_limiter l in
  ret ok.

Definition getRemainingRequests (identifier : string) : M Z :=
  let* t := now in
  let* st := get_state in
  ret (RateLimiter.getRemainingRequests (rateLimiter st) t identifier).

(** [queryCache.get]: the clock is read only when the key is present. *)
Definition cache_get (query : string) (params : option Json.value)
  : M (option (QueryPipelineResponse * bool)) :=
  let* st := get_state in
  match OMap.get (QueryCache.generateKey query params)
                 (QueryCache.cache (queryCache st)) with
  | None => ret None
  | Some _ =>
      let* t := now in
      let '(r, c) := QueryCache.get (queryCache st) t query params in
      let* _ := put_cache c in
      ret r
  end.

Definition cache_set (query : string) (d : QueryPipelineResponse)
    (params : option Json.value) (ttl : option Z) : M unit :=
  let* t := now in
  let* st := get_state in
  put_cache (QueryCache.set (queryCache st) t query d params ttl).

Definition cache_getStats : M QueryCache.Stats :=
  let* _ := now in
  let* st := get_state in
  ret (QueryCache.getStats (queryCache st)).

(** [prisma.$queryRawUnsafe(sql)] *)
Definition execute (sql : string) : M (list Json.value) :=
  fun st =>
    (queryRawUnsafe w sql,
     {| queryCache := queryCache st; rateLimiter := rateLimiter st;
        reads := reads st; console := console st;
        executed := executed st ++ [sql] |}).

Definition classifyPrompt (query : string) : string :=
  "Classify this user query into one of three categories:" +:+ nl +:+
  "- " +:+ dq +:+ "structured" +:+ dq +:+
  ": requires SQL query on database tables (employee data, analytics, aggregations)"
  +:+ nl +:+
  "- " +:+ dq +:+ "document" +:+ dq +:+
  ": requires semantic search in documents (policies, handbooks, guidelines)"
  +:+ nl +:+
  "- " +:+ dq +:+ "hybrid" +:+ dq +:+ ": requires both SQL and document search"
  +:+ nl +:+ nl +:+
  "Query: " +:+ dq +:+ query +:+ dq +:+ nl +:+ nl +:+
  "Respond with ONLY one word: structured, document, or hybrid".

Definition classifyQuery (query : string) : M Classification :=
  try_catch
    (let* classification :=
       await (geminiGenerate w (classifyPrompt query)
                {| temperature := 0; maxOutputTokens := 50 |}) in
     let type := Str.toLowerCase (Str.trim classification) in
     if Str.includes type "structured" then ret structured
     else if Str.includes type "document" then ret document
     else if Str.includes type "hybrid" then ret hybrid
     else ret structured)
    (fun message =>
       let* _ := log ("Classification error: " +:+ message) in
       ret structured).

Definition sqlPrompt (schemaContext query : string) : string :=
  "Given this database schema:" +:+ nl +:+
  schemaContext +:+ nl +:+ nl +:+
  "Generate a PostgreSQL SELECT query for: " +:+ dq +:+ query +:+ dq
  +:+ nl +:+ nl +:+
  "Requirements:" +:+ nl +:+
  "- Use only SELECT statements" +:+ nl +:+
  "- Use proper JOINs when needed" +:+ nl +:+
  "- Include WHERE, GROUP BY, ORDER BY as appropriate" +:+ nl +:+
  "- Return ONLY the SQL query, no explanations".

(** What [generateSQL] returns when the generation fails. *)
Definition fallbackSQL : string :=
  "SELECT * FROM " +:+ dq +:+ "Document" +:+ dq +:+ " LIMIT 10".

(** The clean-up of the generated text: code fences are removed. *)
Definition stripFences (sql : string) : string :=
  Str.trim
    (RegExp.replace (regexp "```\n?" f_g)
       (RegExp.replace (regexp "```sql\n?" f_g) (Str.trim sql) EmptyString)
       EmptyString).

Definition generateSQL (query : string) : M string :=
  try_catch
    (let* tables := await (schemaTables w) in
     let schemaContext :=
       Str.join nl
         (List.map (fun t => sr_table_name t +:+ ": "
                             +:+ Json.stringify (sr_columns t)) tables) in
     let* sql :=
       await (geminiGenerate w (sqlPrompt schemaContext query)
                {| temperature := 0; maxOutputTokens := 1024 |}) in
     ret (stripFences sql))
    (fun message =>
       let* _ := log ("SQL generation failed: " +:+ message) in
       (* Fallback to a simple query *)
       ret fallbackSQL).

Definition getTableIndexes : M (gmap string (list string)) :=
  try_catch
    (let* indexes := await (pgIndexes w) in
     ret (fold_left
            (fun (map : gmap string (list string)) idx =>
               let existing := default [] (map !! ir_tablename idx) in
               <[ir_tablename idx := existing ++ ir_columns idx]> map)
            indexes ∅))
    (fun message =>
       let* _ := log ("Failed to fetch table indexes: " +:+ message) in
       ret ∅).

Definition getTableColumns : M (gmap string (list string)) :=
  try_catch
    (let* columns := await (schemaColumns w) in
     ret (fold_left
            (fun (map : gmap string (list string)) col =>
               let existing := default [] (map !! cr_table_name col) in
               <[cr_table_name col := existing ++ [cr_column_name col]]> map)
            columns ∅))
    (fun message =>
       let* _ := log ("Failed to fetch table columns: " +:+ message) in
       ret ∅).

(** [Number(countResult[0]?.total || 0)] *)
Definition totalOf (countResult : list Json.value) : Z :=
  match countResult with
  | Json.Obj fields :: _ =>
      match Json.field "total" fields with
      | Some (Json.Num n) => n
      | _ => 0
      end
  | _ => 0
  end.

(** [Math.ceil(total / pageSize)] on integers. *)
Definition ceilDiv (total pageSize : Z) : Z :=
  - ((- total) / pageSize).

Definition POST (request : QueryPipelineRequest) : M HttpResponse :=
  try_catch
    (let* startTime := now in
     let query := rq_query request in
     let page := default 1 (rq_page request) in
     let pageSize := default 50 (rq_pageSize request) in
     let enableCache := default true (rq_enableCache request) in
     let userId := default "anonymous" (rq_userId request) in
     let params :=
       Some (Json.Obj [("page", Json.Num page); ("pageSize", Json.Num pageSize)]) in
     if String.eqb (Str.trim query) EmptyString
     then ret (json (Failure {| error := "Query is required";
                                details := NoDetails;
                                remaining := None |}) 400)
     else
     (* Rate limiting *)
     let* rateLimitStart := now in
     let* allowed := isAllowed userId in
     if negb allowed then
       let* quota := getRemainingRequests userId in
       ret (json (Failure {| error := "Rate limit exceeded";
                             details := NoDetails;
                             remaining := Some quota |}) 429)
     else
     let* rateLimitEnd := now in
     (* STEP 1: Check cache *)
     let* cacheStart := now in
     let* cached := if enableCache then cache_get query params else ret None in
     match cached with
     | Some (d, _) =>
         let* cacheEnd := now in
         let p := performance d in
         ret (json (Success
           {| success := success d;
              query_type := query_type d;
              structured_results := structured_results d;
              document_results := document_results d;
              sql := sql d;
              performance :=
                {| classification_ms := classification_ms p;
                   security_check_ms := security_check_ms p;
                   optimization_ms := optimization_ms p;
                   cache_check_ms := cacheEnd - cacheStart;
                   sql_generation_ms := sql_generation_ms p;
                   sql_execution_ms := sql_execution_ms p;
                   embedding_generation_ms := embedding_generation_ms p;
                   document_search_ms := document_search_ms p;
                   total_ms := total_ms p;
                   cache_hit := true;
                   cache_stats := cache_stats p |};
              pagination := pagination d;
              optimization := optimization d;
              security := security d;
              errors := errors d |}) 200)
     | None =>
     let* cacheEnd := now in
     let cache_check := cacheEnd - cacheStart in
     (* STEP 2: Query Classification *)
     let* classificationStart := now in
     let* classification := classifyQuery query in
     let* classificationEnd := now in
     let wantsSQL :=
       match classification with structured | hybrid => true | document => false end in
     let wantsDocuments :=
       match classification with document | hybrid => true | structured => false end in
     (* STEP 3: Security Check *)
     let* securityStart := now in
     let* (sqlQuery, sql_generation, securityResult) :=
       if wantsSQL then
         let* sqlStart := now in
         let* sqlQuery := generateSQL query in
         let* sqlEnd := now in
         ret (sqlQuery, sqlEnd - sqlStart, validateQuerySecurity sqlQuery)
       else ret (EmptyString, 0, Check true [] []) in
     if negb (safe securityResult) then
       ret (json (Failure {| error := "Query failed security validation";
                             details := Messages (Security.errors securityResult);
                             remaining := None |}) 400)
     else
     let* securityEnd := now in
     (* STEP 4: Query Optimization *)
     let* optimizationStart := now in
     let* optimized :=
       if String.eqb sqlQuery EmptyString
       then ret (Optimizer.Optimized sqlQuery None None [])
       else
         try_catch
           (let* tableIndexes := getTableIndexes in
            let* tableColumns := getTableColumns in
            ret (Optimizer.optimizeQuery sqlQuery
                   {| Optimizer.opt_pagination :=
                        Some {| Optimizer.page := page; Optimizer.pageSize := pageSize |};
                      Optimizer.opt_tableIndexes := Some tableIndexes;
                      Optimizer.opt_tableColumns := Some tableColumns;
                      Optimizer.opt_enableTimeout := true;
                      Optimizer.opt_timeoutMs := Some 30000 |}))
           (fun message =>
              let* _ := log ("Optimization failed, using basic pagination: "
                             +:+ message) in
              ret (Optimizer.optimizeQuery sqlQuery
                     {| Optimizer.opt_pagination :=
                          Some {| Optimizer.page := page; Optimizer.pageSize := pageSize |};
                        Optimizer.opt_tableIndexes := None;
                        Optimizer.opt_tableColumns := None;
                        Optimizer.opt_enableTimeout := false;
                        Optimizer.opt_timeoutMs := None |})) in
     let optimizedQuery := Optimizer.sql optimized in
     let optimizationHints := Optimizer.hints optimized in
     let paginationInfo := Optimizer.pagination optimized in
     let costEstimate :=
       if String.eqb sqlQuery EmptyString then (Optimizer.low, [])
       else Optimizer.estimateQueryCost sqlQuery in
     let* optimizationEnd := now in
     (* STEP 5: Execute Queries *)
     let* structuredStage :=
       if wantsSQL then
         let* executionStart := now in
         try_catch
           (let* rows := execute optimizedQuery in
            let* totalCount :=
              match paginationInfo with
              | Some _ =>
                  let* countResult :=
                    execute ("SELECT COUNT(*) as total FROM (" +:+ sqlQuery
                             +:+ ") as subquery") in
                  ret (totalOf countResult)
              | None => ret 0
              end in
            let* executionEnd := now in
            ret (inr (rows, totalCount, executionEnd - executionStart)))
           (fun message =>
              let* _ := log ("SQL execution error: " +:+ message) in
              ret (inl (json (Failure {| error := "Query execution failed";
                                         details := Message message;
                                         remaining := None |}) 500)))
       else ret (inr ([], 0, 0)) in
     match structuredStage with
     | inl failed => ret failed
     | inr (structuredResults, totalCount, sql_execution) =>
     let* (documentResults, embedding_generation, document_search) :=
       if wantsDocuments then
         (* One [try] block in the source.  The assignment to
            [timings.embedding_generation_ms] is made before the search
            and survives a failure of the search, hence the two
            handlers. *)
         let failed (embedding_generation : Z) (message : string) :=
           let* _ := log ("Document search failed: " +:+ message) in
           (* Continue without document results *)
           ret ([], embedding_generation, 0) in
         let* embeddingStart := now in
         try_catch
           (let* embeddings := await (generateEmbeddings w [query]) in
            let* embeddingEnd := now in
            try_catch
              (let* searchStart := now in
               let* docs := await (documentSearch w (head embeddings) pageSize) in
               let* searchEnd := now in
               ret (docs, embeddingEnd - embeddingStart, searchEnd - searchStart))
              (failed (embeddingEnd - embeddingStart)))
           (failed 0)
       else ret ([], 0, 0) in
     let* finish := now in
     (* Build response *)
     let* stats := cache_getStats in
     let response :=
       {| success := true;
          query_type := classification;
          structured_results :=
            match structuredResults with [] => None | _ => Some structuredResults end;
          document_results :=
            match documentResults with [] => None | _ => Some documentResults end;
          sql := if String.eqb sqlQuery EmptyString then None else Some sqlQuery;
          performance :=
            {| classification_ms := classificationEnd - classificationStart;
               security_check_ms := securityEnd - securityStart;
               optimization_ms := optimizationEnd - optimizationStart;
               cache_check_ms := cache_check;
               sql_generation_ms := sql_generation;
               sql_execution_ms := sql_execution;
               embedding_generation_ms := embedding_generation;
               document_search_ms := document_search;
               total_ms := finish - startTime;
               cache_hit := false;
               cache_stats := Some stats |};
          pagination :=
            match paginationInfo with
            | Some info =>
                if 0 <? totalCount
                then Some {| pi_page := Optimizer.pg_page info;
                             pi_pageSize := Optimizer.pg_pageSize info;
                             pi_total := totalCount;
                             pi_totalPages :=
                               ceilDiv totalCount (Optimizer.pg_pageSize info) |}
                else None
            | None => None
            end;
          optimization :=
            Some {| oi_hints := optimizationHints;
                    oi_estimatedCost := fst costEstimate;
                    oi_costFactors := snd costEstimate |};
          security :=
            Some {| si_safe := safe securityResult;
                    si_warnings := warnings securityResult |};
          errors := None |} in
     (* Cache the result *)
     let* _ :=
       if enableCache
       then cache_set query response params (Some (5 * 60 * 1000))
       else ret tt in
     ret (json (Success response) 200)
     end
     end)
    (fun message =>
       let* _ := log ("Pipeline error: " +:+ message) in
       ret (json (Failure {| error := "Internal server error";
                             details := Message message;
                             remaining := None |}) 500)).

End Handler.

End Pipeline.

(* ===================================================================== *)
(** * Part II.  Properties                                                *)
(* ===================================================================== *)

(** Every regular-expression literal of the program parses, so [regexp]
    never takes its default. *)
Definition program_literals : list string :=
  List.map RegExp.source Security.dangerousPatterns
  ++ List.map (fun p => RegExp.source (fst p)) Security.suspiciousPatterns
  ++ List.map (fun op => "(^|;)\s*" +:+ op +:+ "\s+") Security.writeOperations
  ++ ["\s+"; "'"; dq; "\bselect\b"; "\bjoin\b"; "LIMIT\s+\d+"; "OFFSET\s+\d+";
      ";$"; "FROM\s+([a-zA-Z0-9_]+)";
      "WHERE\s+(.+?)(?:GROUP BY|ORDER BY|LIMIT|$)"; "ORDER BY\s+([a-zA-Z0-9_]+)";
      "JOIN\s+([a-zA-Z0-9_]+)\s+ON\s+([a-zA-Z0-9_.]+)\s*=\s*([a-zA-Z0-9_.]+)";
      "SELECT\s+\*"; "SELECT[\s\S]*?FROM\s*\(";
      "WHERE\s+[a-zA-Z0-9_.]+\s+IN\s*\(\s*SELECT"; "\bJOIN\b";
      "\b(COUNT|SUM|AVG|MIN|MAX|GROUP BY)\b"; "\bDISTINCT\b"; "\bORDER BY\b";
      "\bLIKE\b"; "```sql\n?"; "```\n?"].

Definition parses (src : string) : bool :=
  match RegExp.parse src with
  | RegExp.Parsed _ => true
  | RegExp.Failed _ => false
  end.

Lemma literals_parse : forallb parses program_literals = true.
Proof. vm_compute. reflexivity. Qed.

(** ** Strings *)
Module StrFacts.

Lemma append_nil_l (s : string) : EmptyString +:+ s = s.
Proof. reflexivity. Qed.

Lemma append_cons (c : ascii) (s t : string) :
  String c s +:+ t = String c (s +:+ t).
Proof. reflexivity. Qed.

Lemma append_nil_r (s : string) : s +:+ EmptyString = s.
Proof.
induction s as [|c s IH]; [reflexivity|]. now rewrite append_cons, IH.
Qed.

Lemma append_assoc (a b c : string) : (a +:+ b) +:+ c = a +:+ b +:+ c.
Proof.
induction a as [|x a IH]; [reflexivity|]. now rewrite !append_cons, IH.
Qed.

Lemma append_inv_head (a s t : string) : a +:+ s = a +:+ t -> s = t.
Proof.
induction a as [|x a IH]; [trivial|].
rewrite !append_cons. intros [= H]. now apply IH.
Qed.

Lemma startsWith_app (b c : string) : Str.startsWith (b +:+ c) b = true.
Proof.
induction b as [|a b IH]; [now destruct c|].
rewrite append_cons. cbn [Str.startsWith]. now rewrite Ascii.eqb_refl, IH.
Qed.

Lemma includes_prefix (s p : string) :
  Str.startsWith s p = true -> Str.includes s p = true.
Proof. intros H. destruct s; cbn [Str.includes]; now rewrite H. Qed.

Lemma includes_app (a b c : string) : Str.includes (a +:+ b +:+ c) b = true.
Proof.
induction a as [|x a IH].
- rewrite append_nil_l. apply includes_prefix, startsWith_app.
- rewrite append_cons. cbn [Str.includes]. rewrite IH. apply orb_true_r.
Qed.

End StrFacts.

(** ** Insertion-ordered maps *)
Module OMapFacts.
Section Facts.
Context {V : Type}.
Implicit Types (m : OMap.t V) (k : string) (v : V).

Lemma get_set_eq k v m : OMap.get k (OMap.set k v m) = Some v.
Proof.
  induction m as [|[k' v'] m IH]; simpl.
  - now rewrite String.eqb_refl.
  - destruct (String.eqb k k') eqn:E; simpl.
    + now rewrite String.eqb_refl.
    + now rewrite E.
Qed.

Lemma get_set_ne k k' v m :
  k <> k' -> OMap.get k' (OMap.set k v m) = OMap.get k' m.
Proof.
  intros Hne. induction m as [|[k0 v0] m IH]; simpl.
  - destruct (String.eqb_spec k' k); congruence.
  - destruct (String.eqb_spec k k0) as [->|Hk]; simpl.
    + destruct (String.eqb_spec k' k0); congruence.
    + now rewrite IH.
Qed.

Lemma get_delete_ne k k' m :
  k <> k' -> OMap.get k' (OMap.delete k m) = OMap.get k' m.
Proof.
  intros Hne. induction m as [|[k0 v0] m IH]; simpl; [reflexivity|].
  destruct (String.eqb_spec k k0) as [->|Hk]; simpl.
  - destruct (String.eqb_spec k' k0); congruence.
  - now rewrite IH.
Qed.

Lemma get_None k m : OMap.get k m = None <-> k ∉ OMap.keys m.
Proof.
  induction m as [|[k0 v0] m IH]; simpl.
  - split; [intros _; apply not_elem_of_nil | reflexivity].
  - rewrite not_elem_of_cons.
    destruct (String.eqb_spec k k0) as [->|Hk].
    + split; [discriminate | intros [H _]; congruence].
    + rewrite IH. tauto.
Qed.

Lemma get_Some_in k v m : OMap.get k m = Some v -> k ∈ OMap.keys m.
Proof.
  intros H. destruct (decide (k ∈ OMap.keys m)) as [|Hn]; [assumption|].
  apply get_None in Hn. congruence.
Qed.

Lemma keys_delete k m x : x ∈ OMap.keys (OMap.delete k m) -> x ∈ OMap.keys m.
Proof.
  induction m as [|[k0 v0] m IH]; simpl; [trivial|].
  destruct (String.eqb k k0); simpl.
  - intros Hx. apply elem_of_cons. now right.
  - rewrite !elem_of_cons. intros [->|Hx]; [now left | right; now apply IH].
Qed.

Lemma wf_delete k m : OMap.wf m -> OMap.wf (OMap.delete k m).
Proof.
  unfold OMap.wf. induction m as [|[k0 v0] m IH]; simpl; [trivial|].
  rewrite NoDup_cons. intros [Hn Hd].
  destruct (String.eqb k k0); simpl; [assumption|].
  apply NoDup_cons. split; [|now apply IH].
  intros Hin. apply Hn. now apply (keys_delete k m).
Qed.

Lemma get_delete_eq k m : OMap.wf m -> OMap.get k (OMap.delete k m) = None.
Proof.
  unfold OMap.wf. induction m as [|[k0 v0] m IH]; simpl; [reflexivity|].
  rewrite NoDup_cons. intros [Hn Hd].
  destruct (String.eqb_spec k k0) as [->|Hk]; simpl.
  - now apply get_None.
  - destruct (String.eqb_spec k k0); [congruence | now apply IH].
Qed.

Lemma keys_set k v m :
  OMap.keys (OMap.set k v m)
  = match OMap.get k m with
    | Some _ => OMap.keys m
    | None => OMap.keys m ++ [k]
    end.
Proof.
  induction m as [|[k0 v0] m IH]; simpl; [reflexivity|].
  destruct (String.eqb_spec k k0) as [->|Hk]; simpl; [reflexivity|].
  rewrite IH. now destruct (OMap.get k m).
Qed.

Lemma wf_set k v m : OMap.wf m -> OMap.wf (OMap.set k v m).
Proof.
  unfold OMap.wf. rewrite keys_set. intros H.
  destruct (OMap.get k m) eqn:E; [assumption|].
  apply get_None in E.
  apply NoDup_app. repeat split; [assumption| |apply NoDup_singleton].
  intros x Hx Hx'. apply list_elem_of_singleton in Hx'. congruence.
Qed.

Lemma size_delete k v m :
  OMap.get k m = Some v -> OMap.size (OMap.delete k m) = OMap.size m - 1.
Proof.
  unfold OMap.size. induction m as [|[k0 v0] m IH]; simpl; [discriminate|].
  destruct (String.eqb k k0); intros H.
  - lia.
  - specialize (IH H). simpl length. lia.
Qed.

Lemma size_set k v m :
  OMap.size (OMap.set k v m)
  = match OMap.get k m with
    | Some _ => OMap.size m
    | None => OMap.size m + 1
    end.
Proof.
  unfold OMap.size. induction m as [|[k0 v0] m IH]; simpl; [reflexivity|].
  destruct (String.eqb k k0); simpl; [reflexivity|].
  destruct (OMap.get k m); simpl length; lia.
Qed.

(** Deleting the first key drops the head of the list. *)
Lemma delete_first k v m : OMap.delete k ((k, v) :: m) = m.
Proof. simpl. now rewrite String.eqb_refl. Qed.

End Facts.
End OMapFacts.

(** ** The query cache *)
Module CacheFacts.
Import QueryCache.

Lemma append_nonempty (s t : string) : s +:+ ":" +:+ t <> EmptyString.
Proof. destruct s; discriminate. Qed.

Lemma generateKey_nonempty (q : string) (p : option Json.value) :
  generateKey q p <> EmptyString.
Proof. unfold generateKey. apply append_nonempty. Qed.

Lemma fold_left_ext {A B} (f g : A -> B -> A) (l : list B) (a : A) :
  (forall x y, f x y = g x y) -> fold_left f l a = fold_left g l a.
Proof.
  intros H. revert a. induction l as [|b l IH]; intros a; simpl; [reflexivity|].
  now rewrite H, IH.
Qed.

Section Facts.
Context {T : Type}.
Implicit Types (c : QueryCache.t T) (m : OMap.t (CacheEntry T)).

(** The representation invariant: no key twice and no empty key. *)
Definition inv c : Prop :=
  OMap.wf (cache c) /\ Forall (fun k => k <> EmptyString) (OMap.keys (cache c)).

(** The caches the operations can produce. *)
Inductive reachable : QueryCache.t T -> Prop :=
| reach_new maxSize defaultTTL : reachable (new maxSize defaultTTL)
| reach_get c now q p : reachable c -> reachable (snd (get c now q p))
| reach_set c now q d p ttl : reachable c -> reachable (set c now q d p ttl)
| reach_invalidate c pattern n c' :
    reachable c -> invalidate c pattern = RegExp.Parsed (n, c') -> reachable c'
| reach_cleanup c now : reachable c -> reachable (snd (cleanup c now)).

Lemma Forall_keys_delete (P : string -> Prop) k m :
  Forall P (OMap.keys m) -> Forall P (OMap.keys (OMap.delete k m)).
Proof.
  rewrite !Forall_forall. intros H x Hx. apply H.
  now apply (OMapFacts.keys_delete k m).
Qed.

Lemma Forall_keys_set (P : string -> Prop) k (e : CacheEntry T) m :
  P k -> Forall P (OMap.keys m) -> Forall P (OMap.keys (OMap.set k e m)).
Proof.
  intros Hk H. rewrite OMapFacts.keys_set.
  destruct (OMap.get k m); [assumption|].
  apply Forall_app. split; [assumption|]. now apply Forall_singleton.
Qed.

(** A loop that deletes the visited entries satisfying [P] from a map
    that still holds all of them (the loops of [invalidate] and
    [cleanup]). *)
Definition sweep (P : string * CacheEntry T -> bool)
    (acc : Z * OMap.t (CacheEntry T)) (kv : string * CacheEntry T)
  : Z * OMap.t (CacheEntry T) :=
  if P kv then (fst acc + 1, OMap.delete (fst kv) (snd acc)) else acc.

Lemma delete_middle k (e : CacheEntry T) kept rest :
  k ∉ OMap.keys kept ->
  OMap.delete k (kept ++ (k, e) :: rest) = kept ++ rest.
Proof.
  induction kept as [|[k0 e0] kept IH]; simpl.
  - intros _. now rewrite String.eqb_refl.
  - rewrite not_elem_of_cons. intros [Hne Hn].
    destruct (String.eqb_spec k k0); [congruence|]. now rewrite IH.
Qed.

Lemma sweep_spec P todo : forall n kept,
  OMap.wf (kept ++ todo) ->
  fold_left (sweep P) todo (n, kept ++ todo)
  = (n + Z.of_nat (length (List.filter P todo)),
     kept ++ List.filter (fun kv => negb (P kv)) todo).
Proof.
  induction todo as [|[k e] todo IH]; intros n kept Hwf; simpl.
  - f_equal. lia.
  - unfold sweep at 2. simpl.
    assert (Hk : k ∉ OMap.keys kept).
    { unfold OMap.wf, OMap.keys in Hwf. rewrite map_app in Hwf.
      apply NoDup_app in Hwf as (_ & Hdis & _).
      intros Hin. apply (Hdis k Hin). simpl. apply elem_of_cons. now left. }
    destruct (P (k, e)) eqn:E; simpl.
    + rewrite delete_middle by assumption.
      rewrite IH.
      * f_equal. simpl length. lia.
      * unfold OMap.wf, OMap.keys in *. rewrite map_app in *. simpl in Hwf.
        apply NoDup_app in Hwf as (H1 & H2 & H3).
        apply NoDup_cons in H3 as [H3 H4].
        apply NoDup_app. repeat split; [assumption| |assumption].
        intros x Hx Hx'. apply (H2 x Hx). apply elem_of_cons. now right.
    + replace (kept ++ (k, e) :: todo) with ((kept ++ [(k, e)]) ++ todo)
        by now rewrite <- app_assoc.
      rewrite IH.
      * now rewrite <- app_assoc.
      * now rewrite <- app_assoc.
Qed.

Lemma invalidate_loop_spec regex m :
  OMap.wf m ->
  invalidate_loop regex m
  = (Z.of_nat (length (List.filter (fun kv => RegExp.test regex (fst kv)) m)),
     List.filter (fun kv => negb (RegExp.test regex (fst kv))) m).
Proof.
  intros Hwf. unfold invalidate_loop.
  transitivity (fold_left (sweep (fun kv => RegExp.test regex (fst kv))) m (0, [] ++ m)).
  - simpl. apply fold_left_ext. intros [n live] kv. unfold sweep. simpl.
    now destruct (RegExp.test regex (fst kv)).
  - now rewrite sweep_spec.
Qed.

Definition expired (now : Z) (kv : string * CacheEntry T) : bool :=
  ttl (snd kv) <? now - timestamp (snd kv).

Lemma cleanup_spec c now :
  OMap.wf (cache c) ->
  cleanup c now
  = (Z.of_nat (length (List.filter (expired now) (cache c))),
     with_cache c (List.filter (fun kv => negb (expired now kv)) (cache c))).
Proof.
  intros Hwf. unfold cleanup.
  replace (fold_left _ (cache c) (0, cache c))
    with (fold_left (sweep (expired now)) (cache c) (0, [] ++ cache c)).
  - now rewrite sweep_spec.
  - simpl. apply fold_left_ext. intros [n live] kv. unfold sweep, expired. simpl.
    now destruct (ttl (snd kv) <? now - timestamp (snd kv)).
Qed.

Lemma wf_filter (P : string * CacheEntry T -> bool) m :
  OMap.wf m -> OMap.wf (List.filter P m).
Proof.
  unfold OMap.wf. induction m as [|[k e] m IH]; simpl; [trivial|].
  rewrite NoDup_cons. intros [Hn Hd].
  destruct (P (k, e)); simpl; [|now apply IH].
  apply NoDup_cons. split; [|now apply IH].
  intros Hin. apply Hn. unfold OMap.keys in *.
  apply list_elem_of_In, in_map_iff in Hin as (x & Hx1 & Hx2).
  apply filter_In in Hx2 as [Hx2 _].
  apply list_elem_of_In, in_map_iff. eauto.
Qed.

Lemma Forall_keys_filter (Q : string -> Prop) (P : string * CacheEntry T -> bool) m :
  Forall Q (OMap.keys m) -> Forall Q (OMap.keys (List.filter P m)).
Proof.
  rewrite !Forall_forall. intros H x Hx. apply H. unfold OMap.keys in *.
  apply list_elem_of_In, in_map_iff in Hx as (y & Hy1 & Hy2).
  apply filter_In in Hy2 as [Hy2 _].
  apply list_elem_of_In, in_map_iff. eauto.
Qed.

Lemma inv_new maxSize defaultTTL : inv (new (T:=T) maxSize defaultTTL).
Proof. split; simpl; [apply NoDup_nil_2 | apply Forall_nil_2]. Qed.

Lemma inv_get c now q p : inv c -> inv (snd (get c now q p)).
Proof.
  intros [Hwf Hne]. unfold get.
  destruct (OMap.get _ (cache c)) as [e|]; [|now split].
  destruct (ttl e <? now - timestamp e); simpl; split.
  - now apply OMapFacts.wf_delete.
  - now apply Forall_keys_delete.
  - now apply OMapFacts.wf_set.
  - apply Forall_keys_set; [apply generateKey_nonempty | assumption].
Qed.

Lemma inv_set c now q d p ttl : inv c -> inv (set c now q d p ttl).
Proof.
  intros [Hwf Hne]. unfold set.
  set (evicted := if maxSize c <=? OMap.size (cache c) then _ else _).
  assert (He : OMap.wf evicted /\ Forall (fun k => k <> EmptyString) (OMap.keys evicted)).
  { subst evicted. destruct (maxSize c <=? OMap.size (cache c)); [|now split].
    destruct (OMap.first_key (cache c)) as [k|]; [|now split].
    destruct (String.eqb k EmptyString); [now split|].
    split; [now apply OMapFacts.wf_delete | now apply Forall_keys_delete]. }
  destruct He as [He1 He2]. split; simpl.
  - now apply OMapFacts.wf_set.
  - apply Forall_keys_set; [apply generateKey_nonempty | assumption].
Qed.

Lemma inv_invalidate c pattern n c' :
  inv c -> invalidate c pattern = RegExp.Parsed (n, c') -> inv c'.
Proof.
  intros [Hwf Hne]. unfold invalidate.
  assert (Hclear : forall n0 c0,
             RegExp.Parsed (OMap.size (cache c), with_cache c []) = RegExp.Parsed (n0, c0) ->
             inv c0).
  { intros n0 c0 [= <- <-]. split; simpl; [apply NoDup_nil_2 | apply Forall_nil_2]. }
  destruct pattern as [[|a s]|]; [now apply Hclear| |now apply Hclear].
  destruct (RegExp.new _ _ _) as [regex|]; [|discriminate].
  rewrite invalidate_loop_spec by assumption.
  intros [= <- <-]. split; simpl.
  - now apply wf_filter.
  - now apply Forall_keys_filter.
Qed.

Lemma inv_cleanup c now : inv c -> inv (snd (cleanup c now)).
Proof.
  intros [Hwf Hne]. rewrite cleanup_spec by assumption. split; simpl.
  - now apply wf_filter.
  - now apply Forall_keys_filter.
Qed.

Lemma reachable_inv c : reachable c -> inv c.
Proof.
  induction 1;
    eauto using inv_new, inv_get, inv_set, inv_invalidate, inv_cleanup.
Qed.

End Facts.
End CacheFacts.

Module CacheTheorems.
Import QueryCache CacheFacts.

Section TTL.
Context {T : Type}.
Implicit Types (c : QueryCache.t T).

Lemma get_after_set c now now' q (d : T) p ttl0 :
  now' - now <= ttl_or_default c ttl0 ->
  fst (get (set c now q d p ttl0) now' q p) = Some (d, true).
Proof.
  intros Hage. unfold get, set. simpl.
  rewrite OMapFacts.get_set_eq. simpl.
  destruct (ttl_or_default c ttl0 <? now' - now) eqn:E; [lia | reflexivity].
Qed.

Lemma get_expired c now q p (e : CacheEntry T) :
  inv c ->
  OMap.get (generateKey q p) (cache c) = Some e ->
  ttl e < now - timestamp e ->
  fst (get c now q p) = None
  /\ OMap.get (generateKey q p) (cache (snd (get c now q p))) = None
  /\ OMap.size (cache (snd (get c now q p))) = OMap.size (cache c) - 1.
Proof.
  intros [Hwf _] He Hage. unfold get. rewrite He.
  destruct (ttl e <? now - timestamp e) eqn:E; [|lia]. simpl.
  repeat split.
  - now apply OMapFacts.get_delete_eq.
  - now apply (OMapFacts.size_delete _ e).
Qed.

Lemma get_absent c now q p :
  OMap.get (generateKey q p) (cache c) = None -> get c now q p = (None, c).
Proof. intros H. unfold get. now rewrite H. Qed.

(** A hit never returns an expired entry. *)
Lemma get_hit_fresh c now q p (d : T) b :
  fst (get c now q p) = Some (d, b) ->
  exists e, OMap.get (generateKey q p) (cache c) = Some e
            /\ data e = d /\ now - timestamp e <= ttl e.
Proof.
  unfold get. destruct (OMap.get _ (cache c)) as [e|]; [|discriminate].
  destruct (ttl e <? now - timestamp e) eqn:E; [discriminate|].
  simpl. intros [= <- <-]. exists e. repeat split. lia.
Qed.
End TTL.

(** C4.  For every [ttl > 0], [set(q, d, ttl)] followed by [get(q)] at
    once, or at any time at which the age of the entry does not exceed
    [ttl], is a hit that carries [d].  For every stored entry, a [get]
    at a time where [now - created_at] exceeds the entry's ttl returns
    null and deletes the entry (the size of the cache drops by one); a
    hit never comes from an expired entry. *)
Theorem cache_ttl_correct :
  forall (T : Type),
    (forall (c : QueryCache.t T) now now' q d p ttl0,
        0 < ttl0 -> now' - now <= ttl0 ->
        fst (get (set c now q d p (Some ttl0)) now' q p) = Some (d, true))
    /\ (forall (c : QueryCache.t T) now q p e,
           reachable c ->
           OMap.get (generateKey q p) (cache c) = Some e ->
           ttl e < now - timestamp e ->
           fst (get c now q p) = None
           /\ OMap.get (generateKey q p) (cache (snd (get c now q p))) = None
           /\ OMap.size (cache (snd (get c now q p))) = OMap.size (cache c) - 1)
    /\ (forall (c : QueryCache.t T) now q p d b,
           fst (get c now q p) = Some (d, b) ->
           exists e, OMap.get (generateKey q p) (cache c) = Some e
                     /\ data e = d /\ now - timestamp e <= ttl e).
Proof.
  intros T. split; [|split].
  - intros c now now' q d p ttl0 Hpos Hage. apply get_after_set.
    unfold ttl_or_default. destruct (ttl0 =? 0) eqn:E; [lia | assumption].
  - intros c now q p e Hr. apply get_expired. now apply reachable_inv.
  - intros c now q p d b. apply get_hit_fresh.
Qed.

(** The cache of the TTL test: one entry stored at time 0 with a ttl of
    100 ms. *)
Definition ttl_cache : QueryCache.t Z :=
  set (new None None) 0 "SELECT * FROM users" 7 None (Some 100).

Lemma cache_ttl_correct_witness :
  (0 < 100 /\ 0 - 0 <= 100
   /\ fst (get ttl_cache 0 "SELECT * FROM users" None) = Some (7, true))
  /\ (fst (get ttl_cache 150 "SELECT * FROM users" None) = None
      /\ OMap.size (cache (snd (get ttl_cache 150 "SELECT * FROM users" None)))
         = OMap.size (cache ttl_cache) - 1).
Proof.
  split.
  - split; [lia|]. split; [lia|].
    apply (proj1 (cache_ttl_correct Z)); lia.
  - destruct (proj1 (proj2 (cache_ttl_correct Z)) ttl_cache 150
                "SELECT * FROM users" None (Entry 7 0 100 0))
      as (H1 & _ & H3).
    + apply reach_set, reach_new.
    + vm_compute. reflexivity.
    + simpl. lia.
    + split; assumption.
Defined.

End CacheTheorems.

Module EvictionTheorems.
Import QueryCache CacheFacts.

(** The entry [set] stores. *)
Definition stored {T} (c : QueryCache.t T) (now : Z) (d : T) (ttl0 : option Z)
  : CacheEntry T :=
Entry d now (ttl_or_default c ttl0) 0.

(** The eviction policy as the specification words it: whenever [set] is
    called with [size >= max_size], the oldest-inserted entry is evicted
    and the new entry is inserted into what remains. *)
Definition evicts_oldest_at_capacity (T : Type) : Prop :=
forall (c : QueryCache.t T) now q d p ttl0,
  reachable c ->
  maxSize c <= OMap.size (cache c) ->
  exists k e rest,
    cache c = (k, e) :: rest
    /\ cache (set c now q d p ttl0)
       = OMap.set (generateKey q p) (stored c now d ttl0) rest.

(** C6, counterexample.  A cache built with [max_size = 0] is empty and
    at capacity ([0 >= 0]); [set] finds no oldest key, evicts nothing and
    inserts, so the cache holds one entry afterwards. *)
Lemma eviction_needs_an_entry : ~ evicts_oldest_at_capacity Z.
Proof.
intros H.
destruct (H (new (Some 0) None) 0 "a" 1 None None) as (k & e & rest & Hc & _).
- apply reach_new.
- vm_compute. discriminate.
- discriminate Hc.
Qed.

Section Eviction.
Context {T : Type}.
Implicit Types (c : QueryCache.t T).

Lemma set_at_capacity c now q (d : T) p ttl0 :
  reachable c -> 0 < maxSize c -> maxSize c <= OMap.size (cache c) ->
  exists k e rest,
    cache c = (k, e) :: rest
    /\ cache (set c now q d p ttl0)
       = OMap.set (generateKey q p) (stored c now d ttl0) rest.
Proof.
intros Hr Hpos Hfull. apply reachable_inv in Hr as [_ Hne].
destruct (cache c) as [|[k e] rest] eqn:Hc.
- unfold OMap.size in Hfull. simpl in Hfull. lia.
- exists k, e, rest. split; [reflexivity|].
  unfold set, stored. rewrite Hc. simpl OMap.first_key. cbv iota.
  destruct (maxSize c <=? OMap.size ((k, e) :: rest)) eqn:E; [|lia].
  simpl in Hne. apply Forall_cons in Hne as [Hk _].
  destruct (String.eqb_spec k EmptyString) as [Heq|_]; [exfalso; exact (Hk Heq)|].
  rewrite OMapFacts.delete_first. reflexivity.
Qed.

Lemma set_below_capacity c now q (d : T) p ttl0 :
  OMap.size (cache c) < maxSize c ->
  cache (set c now q d p ttl0)
  = OMap.set (generateKey q p) (stored c now d ttl0) (cache c).
Proof.
intros Hroom. unfold set, stored.
destruct (maxSize c <=? OMap.size (cache c)) eqn:E; [lia | reflexivity].
Qed.

Lemma set_fresh k (e : CacheEntry T) m :
  OMap.get k m = None -> OMap.set k e m = m ++ [(k, e)].
Proof.
induction m as [|[k0 e0] m IH]; simpl; [reflexivity|].
destruct (String.eqb k k0); [discriminate|]. intros H. now rewrite IH.
Qed.

End Eviction.

(** Six [set]s into a cache of capacity five. *)
Definition fill6 {T} (q1 q2 q3 q4 q5 q6 : string) (p1 p2 p3 p4 p5 p6 : option Json.value)
  (d1 d2 d3 d4 d5 d6 : T) (t1 t2 t3 t4 t5 t6 : Z) : QueryCache.t T :=
let c0 := new (Some 5) None in
let c1 := set c0 t1 q1 d1 p1 None in
let c2 := set c1 t2 q2 d2 p2 None in
let c3 := set c2 t3 q3 d3 p3 None in
let c4 := set c3 t4 q4 d4 p4 None in
let c5 := set c4 t5 q5 d5 p5 None in
set c5 t6 q6 d6 p6 None.

Ltac distinct_keys H :=
  repeat (apply NoDup_cons in H as [? H]);
  repeat match goal with
         | N : _ ∉ _ :: _ |- _ => apply not_elem_of_cons in N as [? N]
         end.

Ltac eqb_false :=
  repeat match goal with
         | N : ?a <> ?b |- context [String.eqb ?a ?b] =>
             rewrite (proj2 (String.eqb_neq a b) N)
         | N : ?b <> ?a |- context [String.eqb ?a ?b] =>
             rewrite (proj2 (String.eqb_neq a b) (not_eq_sym N))
         end.

Lemma set_appends {T} (c : QueryCache.t T) now q d p ttl0 :
  OMap.size (cache c) < maxSize c ->
  OMap.get (generateKey q p) (cache c) = None ->
  set c now q d p ttl0
  = Cache (cache c ++ [(generateKey q p, stored c now d ttl0)])
          (maxSize c) (defaultTTL c).
Proof.
intros Hroom Hfresh. unfold set, stored, with_cache.
destruct (maxSize c <=? OMap.size (cache c)) eqn:E; [lia|].
now rewrite set_fresh.
Qed.

Lemma set_evicts_head {T} (c : QueryCache.t T) now q d p ttl0 k e rest :
  cache c = (k, e) :: rest ->
  k <> EmptyString ->
  maxSize c <= OMap.size (cache c) ->
  OMap.get (generateKey q p) rest = None ->
  set c now q d p ttl0
  = Cache (rest ++ [(generateKey q p, stored c now d ttl0)])
          (maxSize c) (defaultTTL c).
Proof.
intros Hc Hk Hfull Hfresh. unfold set, stored, with_cache.
destruct (maxSize c <=? OMap.size (cache c)) eqn:E; [|lia].
rewrite Hc. cbn [OMap.first_key].
destruct (String.eqb_spec k EmptyString) as [Heq|_]; [contradiction|].
rewrite OMapFacts.delete_first. now rewrite set_fresh.
Qed.

Ltac fresh_key :=
  apply OMapFacts.get_None; cbn [OMap.keys List.map fst cache];
  repeat (apply not_elem_of_cons; split; [congruence|]); apply not_elem_of_nil.

Lemma fill6_cache {T} q1 q2 q3 q4 q5 q6 p1 p2 p3 p4 p5 p6
    (d1 d2 d3 d4 d5 d6 : T) t1 t2 t3 t4 t5 t6 :
  NoDup [generateKey q1 p1; generateKey q2 p2; generateKey q3 p3;
         generateKey q4 p4; generateKey q5 p5; generateKey q6 p6] ->
  cache (fill6 q1 q2 q3 q4 q5 q6 p1 p2 p3 p4 p5 p6 d1 d2 d3 d4 d5 d6
               t1 t2 t3 t4 t5 t6)
  = [(generateKey q2 p2, Entry d2 t2 300000 0);
     (generateKey q3 p3, Entry d3 t3 300000 0);
     (generateKey q4 p4, Entry d4 t4 300000 0);
     (generateKey q5 p5, Entry d5 t5 300000 0);
     (generateKey q6 p6, Entry d6 t6 300000 0)].
Proof.
intros Hd. distinct_keys Hd.
pose proof (generateKey_nonempty q1 p1) as Hk1.
unfold fill6.
change (new (Some 5) None) with (Cache (T:=T) [] 5 300000).
rewrite (set_appends (Cache [] 5 300000)); [|reflexivity|reflexivity].
cbn [cache maxSize defaultTTL app stored ttl_or_default].
rewrite (set_appends (Cache [_] 5 300000)); [|reflexivity|fresh_key].
cbn [cache maxSize defaultTTL app stored ttl_or_default].
rewrite (set_appends (Cache [_; _] 5 300000)); [|reflexivity|fresh_key].
cbn [cache maxSize defaultTTL app stored ttl_or_default].
rewrite (set_appends (Cache [_; _; _] 5 300000)); [|reflexivity|fresh_key].
cbn [cache maxSize defaultTTL app stored ttl_or_default].
rewrite (set_appends (Cache [_; _; _; _] 5 300000)); [|reflexivity|fresh_key].
cbn [cache maxSize defaultTTL app stored ttl_or_default].
erewrite set_evicts_head; [|reflexivity|exact Hk1|discriminate|fresh_key].
reflexivity.
Qed.

(** C6 (amended).  Whenever [set] is called on a cache with capacity at
    least one that is at capacity ([size >= max_size]), exactly one entry,
    the oldest-inserted one, is evicted before the new entry is inserted;
    below capacity nothing is evicted.  Filling a cache of [max_size = 5]
    with six distinct keys leaves exactly the five keys inserted last: a
    [get] on the first key is a miss and a [get] on the sixth is a hit. *)
Theorem eviction_policy :
  forall (T : Type),
    (forall (c : QueryCache.t T) now q d p ttl0,
        reachable c -> 0 < maxSize c -> maxSize c <= OMap.size (cache c) ->
        exists k e rest,
          cache c = (k, e) :: rest
          /\ cache (set c now q d p ttl0)
             = OMap.set (generateKey q p) (stored c now d ttl0) rest)
    /\ (forall (c : QueryCache.t T) now q d p ttl0,
           OMap.size (cache c) < maxSize c ->
           cache (set c now q d p ttl0)
           = OMap.set (generateKey q p) (stored c now d ttl0) (cache c))
    /\ (forall q1 q2 q3 q4 q5 q6 p1 p2 p3 p4 p5 p6 (d1 d2 d3 d4 d5 d6 : T)
               t1 t2 t3 t4 t5 t6 now,
           NoDup [generateKey q1 p1; generateKey q2 p2; generateKey q3 p3;
                  generateKey q4 p4; generateKey q5 p5; generateKey q6 p6] ->
           now - t6 <= 300000 ->
           let c := fill6 q1 q2 q3 q4 q5 q6 p1 p2 p3 p4 p5 p6
                          d1 d2 d3 d4 d5 d6 t1 t2 t3 t4 t5 t6 in
           OMap.keys (cache c)
           = [generateKey q2 p2; generateKey q3 p3; generateKey q4 p4;
              generateKey q5 p5; generateKey q6 p6]
           /\ fst (get c now q1 p1) = None
           /\ fst (get c now q6 p6) = Some (d6, true)).
Proof.
intros T. split; [|split].
- intros. now apply set_at_capacity.
- intros. now apply set_below_capacity.
- intros q1 q2 q3 q4 q5 q6 p1 p2 p3 p4 p5 p6 d1 d2 d3 d4 d5 d6
         t1 t2 t3 t4 t5 t6 now Hd Hage c.
  pose proof (fill6_cache q1 q2 q3 q4 q5 q6 p1 p2 p3 p4 p5 p6
                d1 d2 d3 d4 d5 d6 t1 t2 t3 t4 t5 t6 Hd) as Hc.
  fold c in Hc. distinct_keys Hd.
  split; [|split].
  + rewrite Hc. reflexivity.
  + unfold get. rewrite Hc. cbn [OMap.get]. eqb_false. exact eq_refl.
  + unfold get. rewrite Hc. cbn [OMap.get]. eqb_false. rewrite String.eqb_refl.
    cbn [ttl timestamp data].
    destruct (300000 <? now - t6) eqn:E; [lia | exact eq_refl].
Qed.

(** The eviction test of the repository: [query-0] to [query-5] stored
    into a cache of five entries. *)
Definition eviction_test : QueryCache.t Z :=
fill6 "query-0" "query-1" "query-2" "query-3" "query-4" "query-5"
      None None None None None None 0 1 2 3 4 5 0 0 0 0 0 0.

Lemma eviction_policy_witness :
  fst (get eviction_test 0 "query-0" None) = None
  /\ fst (get eviction_test 0 "query-5" None) = Some (5, true).
Proof.
destruct (proj2 (proj2 (eviction_policy Z))
            "query-0" "query-1" "query-2" "query-3" "query-4" "query-5"
            None None None None None None 0 1 2 3 4 5 0 0 0 0 0 0 0)
  as (_ & Hmiss & Hhit).
- apply (bool_decide_unpack (NoDup _)). vm_compute. exact I.
- lia.
- split; assumption.
Defined.

End EvictionTheorems.

(** ** The rate limiter *)
Module LimiterTheorems.
Import Security.RateLimiter.

(** The timestamps recorded for an identifier. *)
Definition recorded (l : t) (identifier : string) : list Z :=
default [] (requests l !! identifier).

(** Whether a timestamp lies within the trailing window of [now]. *)
Definition in_window (l : t) (now timestamp : Z) : bool :=
bool_decide (now - windowMs l < timestamp).

(** The number of recorded timestamps within the trailing window. *)
Definition window_count (l : t) (now : Z) (identifier : string) : Z :=
Z.of_nat (length (List.filter (in_window l now) (recorded l identifier))).

Lemma validRequests_in_window l now identifier :
  validRequests l now identifier
  = List.filter (in_window l now) (recorded l identifier).
Proof.
unfold validRequests, recorded.
apply filter_ext. intros a. unfold in_window.
destruct (now - a <? windowMs l) eqn:E.
- symmetry. apply bool_decide_eq_true. lia.
- symmetry. apply bool_decide_eq_false. lia.
Qed.

Lemma isAllowed_granted l now identifier :
  window_count l now identifier < maxRequests l ->
  isAllowed l now identifier
  = (true,
     Limiter (<[identifier :=
                  List.filter (in_window l now) (recorded l identifier) ++ [now]]>
                (requests l))
             (maxRequests l) (windowMs l)).
Proof.
intros H. unfold isAllowed. rewrite validRequests_in_window.
unfold window_count in H.
destruct (maxRequests l <=? _) eqn:E; [lia | reflexivity].
Qed.

Lemma isAllowed_denied l now identifier :
  maxRequests l <= window_count l now identifier ->
  isAllowed l now identifier = (false, l).
Proof.
intros H. unfold isAllowed. rewrite validRequests_in_window.
unfold window_count in H.
destruct (maxRequests l <=? _) eqn:E; [reflexivity | lia].
Qed.

Lemma isAllowed_iff l now identifier :
  fst (isAllowed l now identifier) = true
  <-> window_count l now identifier < maxRequests l.
Proof.
destruct (Z_lt_le_dec (window_count l now identifier) (maxRequests l)) as [H|H].
- rewrite isAllowed_granted by assumption. simpl. tauto.
- rewrite isAllowed_denied by assumption. simpl. split; [discriminate | lia].
Qed.

Lemma recorded_granted l now identifier :
  window_count l now identifier < maxRequests l ->
  recorded (snd (isAllowed l now identifier)) identifier
  = List.filter (in_window l now) (recorded l identifier) ++ [now].
Proof.
intros H. rewrite isAllowed_granted by assumption. unfold recorded. simpl.
now rewrite lookup_insert_eq.
Qed.

Lemma recorded_other l now identifier other :
  identifier <> other ->
  recorded (snd (isAllowed l now identifier)) other = recorded l other.
Proof.
intros Hne.
destruct (Z_lt_le_dec (window_count l now identifier) (maxRequests l)) as [H|H].
- rewrite isAllowed_granted by assumption. unfold recorded. simpl.
  now rewrite lookup_insert_ne.
- now rewrite isAllowed_denied.
Qed.

Lemma limits_kept l now identifier :
  maxRequests (snd (isAllowed l now identifier)) = maxRequests l
  /\ windowMs (snd (isAllowed l now identifier)) = windowMs l.
Proof.
unfold isAllowed. destruct (maxRequests l <=? _); simpl; split; reflexivity.
Qed.

(** A call that finds the timestamps [ts], all of them within the window,
    and fewer of them than the limit, is granted and appends the time. *)
Lemma grant_step l now identifier ts :
  recorded l identifier = ts ->
  Forall (fun t => now - windowMs l < t) ts ->
  Z.of_nat (length ts) < maxRequests l ->
  fst (isAllowed l now identifier) = true
  /\ recorded (snd (isAllowed l now identifier)) identifier = ts ++ [now].
Proof.
intros Hts Hall Hlen.
assert (Hf : List.filter (in_window l now) ts = ts).
{ clear Hts Hlen. induction ts as [|a ts IH]; [reflexivity|].
  apply Forall_cons in Hall as [Ha Hall]. simpl.
  unfold in_window at 1. rewrite bool_decide_eq_true_2 by exact Ha.
  now rewrite IH. }
assert (Hc : window_count l now identifier < maxRequests l).
{ unfold window_count. now rewrite Hts, Hf. }
split.
- now apply isAllowed_iff.
- rewrite recorded_granted by assumption. now rewrite Hts, Hf.
Qed.

(** Five calls and a sixth one on a new limiter of five requests per
    second, then a seventh call later. *)
Definition seven_calls (identifier : string) (t1 t2 t3 t4 t5 t6 t7 : Z)
  : list bool :=
let l0 := new (Some 5) (Some 1000) in
let '(r1, l1) := isAllowed l0 t1 identifier in
let '(r2, l2) := isAllowed l1 t2 identifier in
let '(r3, l3) := isAllowed l2 t3 identifier in
let '(r4, l4) := isAllowed l3 t4 identifier in
let '(r5, l5) := isAllowed l4 t5 identifier in
let '(r6, l6) := isAllowed l5 t6 identifier in
let '(r7, _) := isAllowed l6 t7 identifier in
[r1; r2; r3; r4; r5; r6; r7].

Lemma seven_calls_spec identifier t1 t2 t3 t4 t5 t6 t7 :
  t1 <= t2 <= t3 -> t3 <= t4 <= t5 -> t5 <= t6 -> t6 - t1 < 1000 ->
  1000 <= t7 - t1 ->
  seven_calls identifier t1 t2 t3 t4 t5 t6 t7
  = [true; true; true; true; true; false; true].
Proof.
intros H12 H34 H56 Hwin Hlater. unfold seven_calls.
set (l0 := new (Some 5) (Some 1000)).
assert (Hl0 : maxRequests l0 = 5 /\ windowMs l0 = 1000) by (split; reflexivity).
destruct Hl0 as [Hm0 Hw0].
assert (Hrec0 : recorded l0 identifier = []) by reflexivity.
destruct (grant_step l0 t1 identifier []) as [Hc1 Hr1];
  [assumption | apply Forall_nil_2 | simpl; lia |].
destruct (limits_kept l0 t1 identifier) as [Hm1 Hw1].
destruct (isAllowed l0 t1 identifier) as [r1 l1]. simpl in *. subst r1.
destruct (grant_step l1 t2 identifier [t1]) as [Hc2 Hr2];
  [assumption
  | repeat (apply Forall_cons; split; [lia|]); apply Forall_nil_2
  | simpl; lia |].
destruct (limits_kept l1 t2 identifier) as [Hm2 Hw2].
destruct (isAllowed l1 t2 identifier) as [r2 l2]. simpl in *. subst r2.
destruct (grant_step l2 t3 identifier [t1; t2]) as [Hc3 Hr3];
  [assumption
  | repeat (apply Forall_cons; split; [lia|]); apply Forall_nil_2
  | simpl; lia |].
destruct (limits_kept l2 t3 identifier) as [Hm3 Hw3].
destruct (isAllowed l2 t3 identifier) as [r3 l3]. simpl in *. subst r3.
destruct (grant_step l3 t4 identifier [t1; t2; t3]) as [Hc4 Hr4];
  [assumption
  | repeat (apply Forall_cons; split; [lia|]); apply Forall_nil_2
  | simpl; lia |].
destruct (limits_kept l3 t4 identifier) as [Hm4 Hw4].
destruct (isAllowed l3 t4 identifier) as [r4 l4]. simpl in *. subst r4.
destruct (grant_step l4 t5 identifier [t1; t2; t3; t4]) as [Hc5 Hr5];
  [assumption
  | repeat (apply Forall_cons; split; [lia|]); apply Forall_nil_2
  | simpl; lia |].
destruct (limits_kept l4 t5 identifier) as [Hm5 Hw5].
destruct (isAllowed l4 t5 identifier) as [r5 l5]. simpl in *. subst r5.
(* the sixth call: five timestamps in the window *)
assert (Hc6 : window_count l5 t6 identifier = 5).
{ unfold window_count. rewrite Hr5. simpl. unfold in_window.
  rewrite !bool_decide_eq_true_2 by lia. reflexivity. }
rewrite (isAllowed_denied l5 t6 identifier) by lia.
(* the seventh call: the first timestamp has left the window *)
assert (Hc7 : window_count l5 t7 identifier < 5).
{ unfold window_count. rewrite Hr5.
  change (List.filter (in_window l5 t7) [t1; t2; t3; t4; t5])
    with (if in_window l5 t7 t1
          then t1 :: List.filter (in_window l5 t7) [t2; t3; t4; t5]
          else List.filter (in_window l5 t7) [t2; t3; t4; t5]).
  unfold in_window at 1. rewrite bool_decide_eq_false_2 by lia.
  pose proof (filter_length_le (in_window l5 t7) [t2; t3; t4; t5]) as Hle.
  change (length [t2; t3; t4; t5]) with 4%nat in Hle. lia. }
rewrite (isAllowed_granted l5 t7 identifier) by lia.
reflexivity.
Qed.

(** C7.  [is_allowed] counts the recorded timestamps within the trailing
    [window_ms] of the current time; it returns true exactly when that
    count is below [max_requests], and then stores those timestamps
    followed by the current time; otherwise it returns false and records
    nothing.  With [max_requests = 5] and [window_ms = 1000], five
    consecutive calls are granted, a sixth within the window is refused,
    and a call after the window of the first one has elapsed is granted
    again. *)
Theorem sliding_window_limit :
  (forall l now identifier,
      (fst (isAllowed l now identifier) = true
       <-> window_count l now identifier < maxRequests l)
      /\ (window_count l now identifier < maxRequests l ->
          recorded (snd (isAllowed l now identifier)) identifier
          = List.filter (in_window l now) (recorded l identifier) ++ [now])
      /\ (maxRequests l <= window_count l now identifier ->
          isAllowed l now identifier = (false, l)))
  /\ (forall identifier t1 t2 t3 t4 t5 t6 t7,
         t1 <= t2 <= t3 -> t3 <= t4 <= t5 -> t5 <= t6 -> t6 - t1 < 1000 ->
         1000 <= t7 - t1 ->
         seven_calls identifier t1 t2 t3 t4 t5 t6 t7
         = [true; true; true; true; true; false; true]).
Proof.
split.
- intros l now identifier. split; [|split].
  + apply isAllowed_iff.
  + apply recorded_granted.
  + apply isAllowed_denied.
- apply seven_calls_spec.
Qed.

Lemma sliding_window_limit_witness :
  seven_calls "test-user" 0 10 20 30 40 50 1000
  = [true; true; true; true; true; false; true].
Proof. apply (proj2 sliding_window_limit); lia. Defined.

(** C10.  A call to [is_allowed] that returns false leaves the stored
    state of the limiter as it was: the attempt is not recorded, and the
    purge of the stale timestamps is not written back.
    [get_remaining] reads the state and returns a number; the request
    handler's call of it hands the limiter on unchanged. *)
Theorem denial_leaves_state :
  forall l now identifier,
    fst (isAllowed l now identifier) = false ->
    snd (isAllowed l now identifier) = l
    /\ (forall w st,
           Pipeline.rateLimiter
             (snd (Pipeline.getRemainingRequests w identifier st))
           = Pipeline.rateLimiter st).
Proof.
intros l now identifier Hdenied. split.
- unfold isAllowed in *. destruct (maxRequests l <=? _); [reflexivity | discriminate].
- intros w st. reflexivity.
Qed.

(** A limiter of two requests per ten milliseconds that still stores a
    stale timestamp (0) next to two recent ones. *)
Definition stale_limiter : t :=
Limiter {[ "test-user" := [0; 95; 96] ]} 2 10.

Lemma denial_leaves_state_witness :
  fst (isAllowed stale_limiter 100 "test-user") = false
  /\ recorded (snd (isAllowed stale_limiter 100 "test-user")) "test-user"
     = [0; 95; 96].
Proof.
split; [vm_compute; reflexivity|].
rewrite (proj1 (denial_leaves_state stale_limiter 100 "test-user"
                  ltac:(vm_compute; reflexivity))).
vm_compute. reflexivity.
Defined.

End LimiterTheorems.

(** ** The injection detector *)
Module DetectorTheorems.
Import Security.

Lemma detect_unsafe pattern query :
  In pattern dangerousPatterns ->
  RegExp.test pattern query = true ->
  safe (detectSQLInjection query) = false.
Proof.
intros Hin Htest. unfold detectSQLInjection. cbn [safe].
assert (H : In pattern (List.filter (fun p => RegExp.test p query) dangerousPatterns)).
{ apply filter_In. split; assumption. }
destruct (List.filter _ dangerousPatterns); [destruct H | exact eq_refl].
Qed.

(** A match that succeeds at some position of the input, whatever stands
    before that position, is found by the search from any earlier
    position. *)
Lemma search_finds icase r s pre :
  (forall prev off, exists m,
        RegExp.match_at icase r (RegExp.Cursor prev s) off = Some m) ->
  forall prev off, exists m,
      RegExp.search icase r prev (pre +:+ s) off = Some m.
Proof.
intros Hat. induction pre as [|c pre IH]; intros prev off.
- simpl. destruct (Hat prev off) as [m Hm].
  exists m. destruct s; simpl; now rewrite Hm.
- simpl. destruct (RegExp.match_at icase r _ off) as [m|]; [now exists m|].
  apply IH.
Qed.

Lemma test_finds x s pre :
  (forall prev off, exists m,
        RegExp.match_at (RegExp.ignoreCase x) (RegExp.re x)
                        (RegExp.Cursor prev s) off = Some m) ->
  RegExp.test x (pre +:+ s) = true.
Proof.
intros Hat. unfold RegExp.test, RegExp.exec.
destruct (search_finds _ _ s pre Hat None 0%nat) as [m Hm]. now rewrite Hm.
Qed.

(** The stacked-statement signature. *)
Definition stacked : RegExp.t :=
regexp ";\s*(drop|delete|truncate|alter|create|grant|revoke)" f_i.

Lemma stacked_drop_table pre post :
  RegExp.test stacked (pre +:+ "; DROP TABLE users" +:+ post) = true.
Proof.
apply test_finds. intros prev off.
unfold RegExp.match_at.
let r := eval vm_compute in (RegExp.re stacked) in
change (RegExp.re stacked) with r.
let b := eval vm_compute in (RegExp.ignoreCase stacked) in
change (RegExp.ignoreCase stacked) with b.
cbn. eexists. reflexivity.
Qed.

(** C8.  [detect_injection] reports the UNION query as unsafe, reports
    every input that contains [; DROP TABLE users] as unsafe, and reports
    the plain SELECT on employees as safe with no error. *)
Theorem injection_detector_examples :
  safe (detectSQLInjection
          "SELECT * FROM t WHERE x=1 UNION SELECT password FROM admin") = false
  /\ (forall pre post,
         safe (detectSQLInjection (pre +:+ "; DROP TABLE users" +:+ post)) = false)
  /\ safe (detectSQLInjection
             "SELECT name, email FROM employees WHERE department = 'Sales'") = true
  /\ errors (detectSQLInjection
               "SELECT name, email FROM employees WHERE department = 'Sales'") = [].
Proof.
split; [|split; [|split]].
- vm_compute. reflexivity.
- intros pre post. apply (detect_unsafe stacked).
  + unfold dangerousPatterns. do 11 right. left. exact eq_refl.
  + apply stacked_drop_table.
- vm_compute. reflexivity.
- vm_compute. reflexivity.
Qed.

End DetectorTheorems.

(** ** Pagination *)
(** *** The clauses [paginateQuery] removes

    The two expressions [LIMIT\s+\d+] and [OFFSET\s+\d+] and the
    expression [;$], and what replacing their first match by nothing does
    to a text, said without regular expressions. *)
Module ClauseFacts.
Import RegExp StrFacts.

(** The number of characters at the head of [s] that satisfy [P]. *)
Fixpoint span (P : ascii -> bool) (s : string) : nat :=
match s with
| String c s' => if P c then S (span P s') else 0
| EmptyString => 0
end.

(** [s] after the word [kw] at its head, letters compared without regard
    to case; nothing when [s] does not begin with the word. *)
Fixpoint afterWord (kw s : string) : option string :=
match kw with
| EmptyString => Some s
| String a kw' =>
    match s with
    | String b s' =>
        if Ascii.eqb (Str.upper a) (Str.upper b) then afterWord kw' s' else None
    | EmptyString => None
    end
end.

(** The length of the clause at the head of [s]: the word [kw], white
    space, digits, as many as there are. *)
Definition clauseAt (kw s : string) : option nat :=
match afterWord kw s with
| None => None
| Some s1 =>
    match span Str.is_space s1 with
    | O => None
    | S a =>
        match span Str.is_digit (Str.drop (S a) s1) with
        | O => None
        | S b => Some (String.length kw + S a + S b)%nat
        end
    end
end.

(** [s] without the first clause it holds. *)
Fixpoint stripClause (kw s : string) : string :=
match clauseAt kw s with
| Some n => Str.drop n s
| None =>
    match s with
    | EmptyString => EmptyString
    | String c s' => String c (stripClause kw s')
    end
end.

(** [s] holds a clause. *)
Fixpoint hasClause (kw s : string) : bool :=
match clauseAt kw s with
| Some _ => true
| None =>
    match s with
    | EmptyString => false
    | String _ s' => hasClause kw s'
    end
end.

(** [s] without a semicolon at its end. *)
Fixpoint dropSemicolon (s : string) : string :=
match s with
| EmptyString => EmptyString
| String c s' =>
    match s' with
    | EmptyString => if Ascii.eqb c ";" then EmptyString else s
    | _ => String c (dropSemicolon s')
    end
end.

(** The expression [kw\s+\d+]. *)
Fixpoint word (kw : string) (r : regex) : regex :=
match kw with
| EmptyString => r
| String c kw' => Seq (Atom (Lit c)) (word kw' r)
end.

Definition spaces : regex := Plus true (Atom (Cls false Space)).
Definition digits : regex := Plus true (Atom (Cls false Digit)).
Definition clause (kw : string) : regex := word kw (Seq spaces digits).

(** The position [n] characters further. *)
Fixpoint after (n : nat) (before : option ascii) (s : string) : cursor :=
match n, s with
| S n', String c s' => after n' (Some c) s'
| _, _ => Cursor before s
end.

Lemma rest_after n : forall p s, rest (after n p s) = Str.drop n s.
Proof.
induction n as [|n IH]; intros p [|c s]; try reflexivity. apply IH.
Qed.

Lemma after_add n m : forall p s,
  after m (prev (after n p s)) (rest (after n p s)) = after (n + m) p s.
Proof.
induction n as [|n IH]; intros p [|c s]; try reflexivity.
- cbn [after Nat.add prev rest]. now destruct m.
- cbn [after Nat.add]. apply IH.
Qed.

Lemma cursor_eta (cur : cursor) : cur = Cursor (prev cur) (rest cur).
Proof. now destruct cur. Qed.

Lemma span_le P s : (span P s <= String.length s)%nat.
Proof.
induction s as [|c s IH]; [reflexivity|]. cbn [span String.length].
destruct (P c); lia.
Qed.

Lemma length_drop n : forall s,
  String.length (Str.drop n s) = (String.length s - n)%nat.
Proof.
induction n as [|n IH]; intros [|c s]; cbn [Str.drop String.length]; try lia.
apply IH.
Qed.

Lemma drop_add a b s : Str.drop b (Str.drop a s) = Str.drop (a + b) s.
Proof.
revert s. induction a as [|a IH]; intros s; [reflexivity|].
destruct s as [|c s]; [now destruct b|]. cbn [Str.drop Nat.add]. apply IH.
Qed.

Lemma afterWord_drop kw : forall s s1,
  afterWord kw s = Some s1 ->
  s1 = Str.drop (String.length kw) s /\ (String.length kw <= String.length s)%nat.
Proof.
induction kw as [|a kw IH]; intros s s1.
- intros [= <-]. split; [reflexivity | cbn; lia].
- destruct s as [|b s]; [discriminate|]. cbn [afterWord].
  destruct (Ascii.eqb _ _); [|discriminate]. intros H.
  apply IH in H as [-> Hle]. split; [reflexivity|]. cbn [String.length]. lia.
Qed.

Section Loop.
Context {R : Type}.
Variable a : atom.
Variable k : kont (R:=R).

Definition body : kont (R:=R) -> kont (R:=R) :=
fun k' cur' cs' => run true (Atom a) k' cur' (cap_clear [] cs').

(** The continuation fails in front of a character of the class, or it
    never fails. *)
Hypothesis Hk :
  (forall p c s,
      atom_matches true a c = true -> k (Cursor p (String c s)) [] true = None)
  \/ (forall cur, k cur [] true <> None).

Lemma repeat_span s : forall n p,
  (String.length s <= n)%nat ->
  repeat body true k n (Cursor p s) [] true
  = k (after (span (atom_matches true a) s) p s) [] true.
Proof.
induction s as [|c s IH]; intros n p Hn.
- destruct n; reflexivity.
- destruct n as [|n]; [cbn in Hn; lia|].
  cbn [repeat body run rest cap_clear List.filter span].
  destruct (atom_matches true a c) eqn:Hc; [|reflexivity].
  cbn [after]. rewrite IH by (cbn in Hn; lia).
  destruct (k (after _ (Some c) s) [] true) as [x|] eqn:E; [reflexivity|].
  destruct Hk as [Hfail|Htotal].
  + now apply Hfail.
  + now apply Htotal in E.
Qed.

Lemma run_plus p s :
  run true (Plus true (Atom a)) k (Cursor p s) [] true
  = match span (atom_matches true a) s with
    | O => None
    | S n => k (after (S n) p s) [] true
    end.
Proof.
destruct s as [|c s]; [reflexivity|].
cbn [run rest groups_of cap_clear List.filter span].
destruct (atom_matches true a c) eqn:Hc; [|reflexivity].
cbn [orb rest after]. fold body. now rewrite repeat_span.
Qed.

End Loop.


Lemma space_not_digit c : Str.is_space c = true -> Str.is_digit c = false.
Proof. destruct c as [[] [] [] [] [] [] [] []]; vm_compute; congruence. Qed.

Lemma run_word {R} kw r (k : kont (R:=R)) : forall p s,
  run true (word kw r) k (Cursor p s) [] true
  = match afterWord kw s with
    | Some _ => run true r k (after (String.length kw) p s) [] true
    | None => None
    end.
Proof.
induction kw as [|a kw IH]; intros p s; [reflexivity|].
destruct s as [|b s]; [reflexivity|].
cbn [word run rest atom_matches afterWord String.length after].
destruct (Ascii.eqb (Str.upper a) (Str.upper b)); [apply IH | reflexivity].
Qed.

(** The continuation that ends a match begun at [cur]. *)
Definition found (off : nat) (cur : cursor) : kont (R:=result) :=
fun cur' cs _ =>
  Some (Result off
          (Str.take (String.length (rest cur) - String.length (rest cur'))
                    (rest cur))
          cs cur').

Lemma found_total off cur cur' : found off cur cur' [] true <> None.
Proof. discriminate. Qed.

Lemma digits_after_space off cur p c s :
  Str.is_space c = true ->
  run true digits (found off cur) (Cursor p (String c s)) [] true = None.
Proof.
intros Hc. unfold digits. rewrite run_plus by (right; apply found_total).
cbn [span atom_matches cls_has xorb]. now rewrite (space_not_digit c Hc).
Qed.

Lemma run_clause_tail off cur p s1 :
  run true (Seq spaces digits) (found off cur) (Cursor p s1) [] true
  = match span Str.is_space s1 with
    | O => None
    | S a =>
        match span Str.is_digit (Str.drop (S a) s1) with
        | O => None
        | S b => found off cur (after (S a + S b) p s1) [] true
        end
    end.
Proof.
cbn [run]. unfold spaces at 1.
rewrite run_plus by (left; intros; now apply digits_after_space).
change (span (atom_matches true (Cls false Space)) s1) with (span Str.is_space s1).
destruct (span Str.is_space s1) as [|a]; [reflexivity|].
rewrite (cursor_eta (after (S a) p s1)). unfold digits.
rewrite run_plus by (right; apply found_total).
change (span (atom_matches true (Cls false Digit))) with (span Str.is_digit).
rewrite rest_after.
destruct (span Str.is_digit (Str.drop (S a) s1)) as [|b]; [reflexivity|].
rewrite <- (rest_after (S a) p s1) at 1.
now rewrite after_add.
Qed.

Lemma match_at_clause a kw p s off :
  match_at true (clause (String a kw)) (Cursor p s) off
  = match clauseAt (String a kw) s with
    | Some n => Some (Result off (Str.take n s) [] (after n p s))
    | None => None
    end.
Proof.
unfold match_at, clauseAt. fold (found off (Cursor p s)).
destruct s as [|b s]; [reflexivity|].
cbn [clause word run rest atom_matches afterWord].
destruct (Ascii.eqb (Str.upper a) (Str.upper b)); [|reflexivity].
fold (clause kw). unfold clause. rewrite run_word.
destruct (afterWord kw s) as [s1|] eqn:Hword; [|reflexivity].
apply afterWord_drop in Hword as [-> Hlen].
rewrite (cursor_eta (after (String.length kw) (Some b) s)), run_clause_tail.
rewrite rest_after.
pose proof (span_le Str.is_space (Str.drop (String.length kw) s)) as Ha.
destruct (span Str.is_space (Str.drop (String.length kw) s)) as [|x]; [reflexivity|].
pose proof (span_le Str.is_digit (Str.drop (S x) (Str.drop (String.length kw) s)))
  as Hb.
destruct (span Str.is_digit (Str.drop (S x) (Str.drop (String.length kw) s)))
  as [|y]; [reflexivity|].
rewrite !length_drop in *.
rewrite <- (rest_after (String.length kw) (Some b) s) at 1.
rewrite after_add.
unfold found. cbn [rest]. f_equal.
change (after (String.length kw + (S x + S y)) (Some b) s)
  with (after (String.length (String a kw) + (S x + S y)) p (String b s)).
replace (String.length (String a kw) + S x + S y)%nat
  with (String.length (String a kw) + (S x + S y))%nat by lia.
f_equal. rewrite rest_after, length_drop. f_equal.
cbn [String.length] in *. lia.
Qed.


(** *** From the match to the replacement *)

Lemma take_drop n : forall s, Str.take n s +:+ Str.drop n s = s.
Proof.
induction n as [|n IH]; intros [|c s]; try reflexivity.
cbn [Str.take Str.drop]. now rewrite append_cons, IH.
Qed.

Lemma length_take n : forall s,
  (n <= String.length s)%nat -> String.length (Str.take n s) = n.
Proof.
induction n as [|n IH]; intros [|c s] H; cbn [Str.take String.length] in *;
  try lia.
now rewrite IH by lia.
Qed.

Lemma take_next off : forall s0 c s,
  Str.drop off s0 = String c s ->
  Str.take (S off) s0 = Str.take off s0 +:+ String c EmptyString.
Proof.
induction off as [|off IH]; intros [|c0 s0] c s H; try discriminate.
- cbn [Str.drop] in H. injection H as -> ->. reflexivity.
- cbn [Str.drop] in H. cbn [Str.take]. rewrite append_cons.
  now rewrite <- (IH s0 c s H).
Qed.

Lemma drop_succ off : forall s0 c s,
  Str.drop off s0 = String c s -> Str.drop (S off) s0 = s.
Proof.
induction off as [|off IH]; intros [|c0 s0] c s H; try discriminate.
- cbn [Str.drop] in *. now injection H.
- cbn [Str.drop] in *. now apply (IH s0 c s).
Qed.

Lemma clauseAt_le kw s n :
  clauseAt kw s = Some n -> (n <= String.length s)%nat.
Proof.
unfold clauseAt. destruct (afterWord kw s) as [s1|] eqn:Hword; [|discriminate].
apply afterWord_drop in Hword as [-> Hlen].
pose proof (span_le Str.is_space (Str.drop (String.length kw) s)) as Ha.
destruct (span Str.is_space _) as [|a]; [discriminate|].
pose proof (span_le Str.is_digit (Str.drop (S a) (Str.drop (String.length kw) s)))
  as Hb.
destruct (span Str.is_digit _) as [|b]; [discriminate|].
rewrite !length_drop in *. intros [= <-]. lia.
Qed.

(** What a replacement of the first match by nothing leaves, given the
    match. *)
Definition cut (s0 : string) (found : option result) : string :=
match found with
| Some m =>
    Str.take (index m) s0 +:+ Str.drop (index m + String.length (matched m)) s0
| None => s0
end.

Lemma replace_cut x s :
  global x = false ->
  replace x s EmptyString = cut s (exec x s).
Proof.
intros Hg. unfold replace, cut. rewrite Hg.
destruct (exec x s) as [m|]; [|reflexivity].
cbn [splice substitute Str.drop]. now rewrite Nat.sub_0_r.
Qed.

Lemma search_clause a kw s : forall p off s0,
  Str.drop off s0 = s ->
  cut s0 (search true (clause (String a kw)) p s off)
  = Str.take off s0 +:+ stripClause (String a kw) s.
Proof.
induction s as [|c s IH]; intros p off s0 Hd.
- cbn [search]. rewrite match_at_clause.
  assert (Hnone : clauseAt (String a kw) EmptyString = None) by reflexivity.
  rewrite Hnone. cbn [cut stripClause]. rewrite Hnone.
  rewrite <- (take_drop off s0) at 1. now rewrite Hd.
- cbn [search]. rewrite match_at_clause. cbn [stripClause].
  destruct (clauseAt (String a kw) (String c s)) as [n|] eqn:Hc.
  + cbn [cut index matched].
    rewrite length_take by now apply clauseAt_le in Hc.
    now rewrite <- drop_add, Hd.
  + rewrite (IH (Some c) (S off) s0 (drop_succ _ _ _ _ Hd)).
    rewrite (take_next _ _ _ _ Hd). now rewrite append_assoc.
Qed.

Lemma replace_clause src a kw s :
  replace (mk src (clause (String a kw)) true false) s EmptyString
  = stripClause (String a kw) s.
Proof.
rewrite replace_cut by reflexivity. unfold exec. cbn [ignoreCase re].
now rewrite (search_clause a kw s None 0%nat s eq_refl).
Qed.

(** *** The semicolon at the end *)

Definition semicolon : regex := Seq (Atom (Lit ";")) Eol.

Lemma match_at_semicolon p c s off :
  match_at false semicolon (Cursor p (String c s)) off
  = match s with
    | EmptyString =>
        if Ascii.eqb c ";"
        then Some (Result off (String c EmptyString) [] (Cursor (Some c) EmptyString))
        else None
    | _ => None
    end.
Proof.
unfold match_at, semicolon. cbn [run rest atom_matches].
rewrite (Ascii.eqb_sym ";" c).
destruct (Ascii.eqb c ";"); [|now destruct s].
destruct s; reflexivity.
Qed.

Lemma search_semicolon s : forall p off s0,
  Str.drop off s0 = s ->
  cut s0 (search false semicolon p s off) = Str.take off s0 +:+ dropSemicolon s.
Proof.
induction s as [|c s IH]; intros p off s0 Hd.
- cbn [search cut dropSemicolon]. unfold match_at. cbn [run semicolon rest].
  cbn [cut]. rewrite <- (take_drop off s0) at 1. now rewrite Hd.
- cbn [search]. rewrite match_at_semicolon.
  pose proof (IH (Some c) (S off) s0 (drop_succ _ _ _ _ Hd)) as Hrest.
  rewrite (take_next _ _ _ _ Hd), append_assoc in Hrest.
  destruct s as [|c' s].
  + destruct (Ascii.eqb c ";") eqn:Hc.
    * cbn [cut index matched String.length dropSemicolon]. rewrite Hc.
      replace (off + 1)%nat with (S off) by lia.
      now rewrite (drop_succ _ _ _ _ Hd).
    * cbn [dropSemicolon]. rewrite Hc. exact Hrest.
  + exact Hrest.
Qed.

Lemma replace_semicolon src s :
  replace (mk src semicolon false false) s EmptyString = dropSemicolon s.
Proof.
rewrite replace_cut by reflexivity. unfold exec. cbn [ignoreCase re].
now rewrite (search_semicolon s None 0%nat s eq_refl).
Qed.


(** *** What the removal does to a text of a known shape *)

(** Every character of [s] satisfies [P]. *)
Fixpoint all (P : ascii -> bool) (s : string) : bool :=
match s with
| EmptyString => true
| String c s' => P c && all P s'
end.

(** [s] begins with a character that satisfies [P]. *)
Definition begins (P : ascii -> bool) (s : string) : bool :=
match s with
| String c _ => P c
| EmptyString => false
end.

(** No later letter of the word is its first letter. *)
Definition headOnce (kw : string) : bool :=
match kw with
| String a kw' =>
    Str.is_upper a
    && all (fun x => negb (Ascii.eqb (Str.upper x) (Str.upper a))) kw'
| EmptyString => false
end.

Lemma upper_idem c : Str.upper (Str.upper c) = Str.upper c.
Proof. destruct c as [[] [] [] [] [] [] [] []]; vm_compute; reflexivity. Qed.

Lemma letter_plain t :
  Str.is_upper (Str.upper t) = true ->
  Str.is_space t = false /\ Str.is_digit t = false.
Proof. destruct t as [[] [] [] [] [] [] [] []]; vm_compute; intuition congruence. Qed.

Lemma hasClause_none kw s : hasClause kw s = false -> stripClause kw s = s.
Proof.
induction s as [|c s IH]; cbn [hasClause stripClause];
  destruct (clauseAt kw _); try discriminate; [reflexivity|].
intros H. now rewrite IH.
Qed.

Lemma span_all P s t :
  all P s = true -> span P (s +:+ t) = (String.length s + span P t)%nat.
Proof.
induction s as [|c s IH]; [reflexivity|].
cbn [all]. intros H. apply andb_prop in H as [Hc Hs].
rewrite append_cons. cbn [span String.length]. now rewrite Hc, IH.
Qed.

Lemma span_stop P t : begins P t = false -> span P t = 0%nat.
Proof. destruct t as [|c t]; [reflexivity|]. cbn [begins span]. now intros ->. Qed.

Lemma span_app_stop P s t :
  begins P t = false -> span P (s +:+ t) = span P s.
Proof.
intros Ht. induction s as [|c s IH]; [now apply span_stop|].
rewrite append_cons. cbn [span]. now rewrite IH.
Qed.

Lemma drop_app n : forall s t,
  (n <= String.length s)%nat -> Str.drop n (s +:+ t) = Str.drop n s +:+ t.
Proof.
induction n as [|n IH]; intros [|c s] t H; cbn [String.length] in H;
  try reflexivity; try lia.
rewrite append_cons. cbn [Str.drop]. apply IH. lia.
Qed.

Lemma drop_length s t : Str.drop (String.length s) (s +:+ t) = t.
Proof. induction s as [|c s IH]; [reflexivity | exact IH]. Qed.

Lemma length_upper s : String.length (Str.toUpperCase s) = String.length s.
Proof. induction s as [|c s IH]; [reflexivity|]. cbn. now rewrite <- IH. Qed.

Lemma afterWord_upper k : forall kw rest,
  Str.toUpperCase k = kw -> afterWord kw (k +:+ rest) = Some rest.
Proof.
induction k as [|b k IH]; intros kw rest <-; [reflexivity|].
cbn [Str.toUpperCase Str.map afterWord]. rewrite append_cons.
rewrite upper_idem, Ascii.eqb_refl. now apply IH.
Qed.

Lemma afterWord_app kw : forall p p1 t,
  afterWord kw p = Some p1 -> afterWord kw (p +:+ t) = Some (p1 +:+ t).
Proof.
induction kw as [|a kw IH]; intros p p1 t.
- now intros [= <-].
- destruct p as [|b p]; [discriminate|]. rewrite append_cons. cbn [afterWord].
  destruct (Ascii.eqb _ _); [apply IH | discriminate].
Qed.

(** A word none of whose letters is [t0] does not reach into a text that
    begins with [t0]. *)
Lemma afterWord_stop kw t0 t : forall p,
  all (fun x => negb (Ascii.eqb (Str.upper x) (Str.upper t0))) kw = true ->
  afterWord kw p = None ->
  afterWord kw (p +:+ String t0 t) = None.
Proof.
induction kw as [|x kw IH]; intros p Hall Hp; [discriminate|].
cbn [all] in Hall. apply andb_prop in Hall as [Hx Hkw].
destruct p as [|b p].
- cbn [afterWord]. rewrite append_nil_l.
  apply negb_true_iff in Hx. now rewrite Hx.
- rewrite append_cons. cbn [afterWord] in *.
  destruct (Ascii.eqb (Str.upper x) (Str.upper b)); [now apply IH | reflexivity].
Qed.

Lemma clauseAt_stop a kw c p t0 t :
  headOnce (String a kw) = true ->
  Str.upper t0 = a ->
  clauseAt (String a kw) (String c p) = None ->
  clauseAt (String a kw) (String c p +:+ String t0 t) = None.
Proof.
unfold headOnce. intros Hhead Ht0 Hnone.
apply andb_prop in Hhead as [Hup Hfresh].
assert (Hplain : Str.is_space t0 = false /\ Str.is_digit t0 = false).
{ apply letter_plain. now rewrite Ht0. }
destruct Hplain as [Hsp Hdg].
assert (Hfresh' : all (fun x => negb (Ascii.eqb (Str.upper x) (Str.upper t0))) kw
                  = true).
{ rewrite Ht0.
  replace (Str.upper a) with a in Hfresh; [exact Hfresh|].
  now rewrite <- Ht0, upper_idem. }
unfold clauseAt in *. rewrite append_cons. cbn [afterWord] in *.
destruct (Ascii.eqb (Str.upper a) (Str.upper c)); [|reflexivity].
destruct (afterWord kw p) as [p1|] eqn:Hword.
- rewrite (afterWord_app kw p p1 _ Hword).
  rewrite span_app_stop by exact Hsp.
  pose proof (span_le Str.is_space p1) as Hle.
  destruct (span Str.is_space p1) as [|x]; [reflexivity|].
  rewrite drop_app by exact Hle.
  rewrite span_app_stop by exact Hdg.
  now destruct (span Str.is_digit (Str.drop (S x) p1)).
- now rewrite afterWord_stop.
Qed.

Lemma clauseAt_here kw k ws ds post :
  Str.toUpperCase k = kw ->
  ws <> EmptyString -> all Str.is_space ws = true ->
  ds <> EmptyString -> all Str.is_digit ds = true ->
  begins Str.is_digit post = false ->
  clauseAt kw (k +:+ ws +:+ ds +:+ post)
  = Some (String.length k + String.length ws + String.length ds)%nat.
Proof.
intros Hk Hws Hsp Hds Hdg Hpost. unfold clauseAt.
rewrite (afterWord_upper k kw _ Hk).
assert (Hstop : begins Str.is_space (ds +:+ post) = false).
{ destruct ds as [|d ds]; [congruence|]. cbn [all] in Hdg.
  apply andb_prop in Hdg as [Hd _]. rewrite append_cons. cbn [begins].
  destruct (Str.is_space d) eqn:E; [|reflexivity].
  apply space_not_digit in E. congruence. }
rewrite (span_all _ ws _ Hsp), (span_stop _ _ Hstop), Nat.add_0_r.
destruct ws as [|w ws]; [congruence|]. cbn [String.length].
change (S (String.length ws)) with (String.length (String w ws)).
rewrite drop_length.
rewrite (span_all _ ds _ Hdg), (span_stop _ _ Hpost), Nat.add_0_r.
destruct ds as [|d ds]; [congruence|]. cbn [String.length].
rewrite <- Hk, length_upper. f_equal.
Qed.

Lemma stripClause_here kw s n :
  clauseAt kw s = Some n -> stripClause kw s = Str.drop n s.
Proof. intros H. destruct s; cbn [stripClause]; now rewrite H. Qed.

Lemma stripClause_shape kw pre k ws ds post :
  headOnce kw = true ->
  hasClause kw pre = false ->
  Str.toUpperCase k = kw ->
  ws <> EmptyString -> all Str.is_space ws = true ->
  ds <> EmptyString -> all Str.is_digit ds = true ->
  begins Str.is_digit post = false ->
  stripClause kw (pre +:+ k +:+ ws +:+ ds +:+ post) = pre +:+ post.
Proof.
intros Hhead Hpre Hk Hws Hsp Hds Hdg Hpost.
assert (Hhere := clauseAt_here kw k ws ds post Hk Hws Hsp Hds Hdg Hpost).
induction pre as [|c pre IH].
- rewrite !append_nil_l, (stripClause_here _ _ _ Hhere).
  rewrite <- !drop_add. now rewrite !drop_length.
- cbn [hasClause] in Hpre.
  destruct (clauseAt kw (String c pre)) eqn:Hc; [discriminate|].
  destruct kw as [|a kw]; [discriminate Hhead|].
  destruct k as [|t0 k]; [discriminate Hk|].
  assert (Ht0 : Str.upper t0 = a).
  { cbn [Str.toUpperCase Str.map] in Hk. now injection Hk. }
  pose proof (clauseAt_stop a kw c pre t0 (k +:+ ws +:+ ds +:+ post)
                Hhead Ht0 Hc) as Hstop.
  rewrite <- (append_cons t0 k) in Hstop. rewrite append_cons in Hstop.
  rewrite (append_cons c pre). cbn [stripClause].
  rewrite Hstop, IH by exact Hpre. now rewrite append_cons.
Qed.

Lemma dropSemicolon_final s : dropSemicolon (s +:+ ";") = s.
Proof.
induction s as [|c s IH]; [reflexivity|].
rewrite append_cons. cbn [dropSemicolon]. rewrite IH.
destruct (s +:+ ";") eqn:E; [|reflexivity].
destruct s; discriminate E.
Qed.

Lemma dropSemicolon_other s :
  (forall t, s <> t +:+ ";") -> dropSemicolon s = s.
Proof.
induction s as [|c s IH]; intros H; [reflexivity|].
cbn [dropSemicolon]. destruct s as [|c' s].
- destruct (Ascii.eqb_spec c ";") as [->|_]; [|reflexivity].
  now destruct (H EmptyString).
- rewrite IH; [reflexivity|]. intros t E.
  apply (H (String c t)). now rewrite append_cons, <- E.
Qed.

Lemma search_clause_found a kw s : forall p off,
  search true (clause (String a kw)) p s off = None
  <-> hasClause (String a kw) s = false.
Proof.
induction s as [|c s IH]; intros p off; cbn [search hasClause];
  rewrite match_at_clause; destruct (clauseAt (String a kw) _);
  try (split; discriminate); [tauto | apply IH].
Qed.

Lemma test_clause src a kw s :
  test (mk src (clause (String a kw)) true false) s = hasClause (String a kw) s.
Proof.
unfold test, exec. cbn [ignoreCase re].
destruct (search true _ None s 0) eqn:E.
- destruct (hasClause (String a kw) s) eqn:H; [reflexivity|].
  apply (search_clause_found a kw s None 0%nat) in H. rewrite H in E.
  discriminate E.
- symmetry. now apply (search_clause_found a kw s None 0%nat).
Qed.

End ClauseFacts.

Module PaginationTheorems.
Import Optimizer StrFacts ClauseFacts.

Definition capHint : string := "Page size capped at 1000 rows for performance".

Definition limitClause : RegExp.t := regexp "LIMIT\s+\d+" f_i.
Definition offsetClause : RegExp.t := regexp "OFFSET\s+\d+" f_i.
Definition lastSemicolon : RegExp.t := regexp ";$" f_none.

(** C9, counterexample.  A page size below the range is raised to 10 and
    a page below 1 is raised to 1 without any hint about it: the whole
    result, hints included, is the one of the in-range value.  And only
    the first [LIMIT] clause of the input is removed: here the one of the
    subquery goes and the outer one stays in front of the appended
    clause. *)
Lemma pagination_claim_fails :
  paginateQuery "SELECT * FROM t" {| page := 1; pageSize := 5 |}
  = paginateQuery "SELECT * FROM t" {| page := 1; pageSize := 10 |}
  /\ ~ In capHint (hints (paginateQuery "SELECT * FROM t" {| page := 1; pageSize := 5 |}))
  /\ paginateQuery "SELECT * FROM t" {| page := 0; pageSize := 50 |}
     = paginateQuery "SELECT * FROM t" {| page := 1; pageSize := 50 |}
  /\ sql (paginateQuery "SELECT * FROM (SELECT * FROM t LIMIT 5) x LIMIT 7"
                        {| page := 1; pageSize := 50 |})
     = "SELECT * FROM (SELECT * FROM t ) x LIMIT 7" +:+ nl +:+ "LIMIT 50 OFFSET 0".
Proof.
split; [|split; [|split]].
- vm_compute. reflexivity.
- vm_compute. intros [H|[H|[]]]; discriminate H.
- vm_compute. reflexivity.
- vm_compute. reflexivity.
Qed.

Lemma replace_no_match x s repl :
  RegExp.global x = false -> RegExp.test x s = false -> RegExp.replace x s repl = s.
Proof.
unfold RegExp.replace, RegExp.test. intros ->.
destruct (RegExp.exec x s); [discriminate | reflexivity].
Qed.

Lemma limitClause_re :
  limitClause = RegExp.mk "LIMIT\s+\d+" (clause "LIMIT") true false.
Proof. vm_compute. reflexivity. Qed.

Lemma offsetClause_re :
  offsetClause = RegExp.mk "OFFSET\s+\d+" (clause "OFFSET") true false.
Proof. vm_compute. reflexivity. Qed.

Lemma lastSemicolon_re :
  lastSemicolon = RegExp.mk ";$" semicolon false false.
Proof. vm_compute. reflexivity. Qed.

(** What [paginateQuery] leaves of the input before it appends its clause. *)
Definition cleanedOf (r : OptimizedQuery) (cleaned : string) : Prop :=
  exists limit offset,
    pagination r = Some limit
    /\ offset = pg_offset limit
    /\ sql r = cleaned +:+ nl +:+ "LIMIT " +:+ Str.ofZ (pg_limit limit)
               +:+ " OFFSET " +:+ Str.ofZ offset
    /\ countSql r = Some ("SELECT COUNT(*) as total FROM (" +:+ cleaned
                          +:+ ") as subquery").

(** The input without the clauses, in words of strings: without the
    [LIMIT] clause that comes first, then without the [OFFSET] clause
    that comes first in what is left, trimmed, and then without a
    semicolon at its end. *)
Definition cleaned (sql0 : string) : string :=
dropSemicolon (Str.trim (stripClause "OFFSET" (stripClause "LIMIT" sql0))).

Lemma paginateQuery_cleaned sql0 options :
  cleanedOf (paginateQuery sql0 options) (cleaned sql0).
Proof.
unfold cleanedOf, paginateQuery, cleaned.
cbn [sql countSql pagination pg_offset pg_limit].
fold limitClause offsetClause lastSemicolon.
rewrite limitClause_re, offsetClause_re, lastSemicolon_re.
rewrite !replace_clause, replace_semicolon.
eexists. eexists.
split; [reflexivity|]. split; [reflexivity|]. split; reflexivity.
Qed.

(** C9 (amended).  For every input SQL, page and page size,
    [paginateQuery] clamps the page to at least 1 and the page size into
    [10, 1000], appends [LIMIT <page size> OFFSET <(page - 1) * page size>]
    with the clamped values to the cleaned input, and builds the count
    query from the same cleaned input; the hint about the cap is emitted
    exactly when the requested page size exceeds 1000.  The cleaned input
    is the input without its [LIMIT <digits>] clause and its
    [OFFSET <digits>] clause (the word in any case, white space, digits),
    trimmed, and without a semicolon at its end: a text that holds no
    such clause is left as it is, and a clause that no other precedes is
    cut out, with all its digits.  An input without a [LIMIT <digits>],
    an [OFFSET <digits>] and a final semicolon is only trimmed.  Page 2
    with 25 rows gives [LIMIT 25 OFFSET 25]; a page size of 5000 gives
    [LIMIT 1000] and the hint; a single [LIMIT 5 OFFSET 10;] at the end
    of the input is removed. *)
Theorem pagination_transform :
  (forall sql0 pg ps,
      let r := paginateQuery sql0 {| page := pg; pageSize := ps |} in
      let validPage := Z.max 1 pg in
      let validPageSize := Z.min 1000 (Z.max 10 ps) in
      1 <= validPage /\ 10 <= validPageSize <= 1000
      /\ pagination r = Some {| pg_page := validPage;
                                pg_pageSize := validPageSize;
                                pg_offset := (validPage - 1) * validPageSize;
                                pg_limit := validPageSize |}
      /\ cleanedOf r (cleaned sql0)
      /\ Str.includes (sql r) ("LIMIT " +:+ Str.ofZ validPageSize) = true
      /\ Str.includes (sql r)
           ("OFFSET " +:+ Str.ofZ ((validPage - 1) * validPageSize)) = true
      /\ (In capHint (hints r) <-> 1000 < ps)
      /\ (RegExp.test limitClause sql0 = false ->
          RegExp.test offsetClause sql0 = false ->
          RegExp.test lastSemicolon (Str.trim sql0) = false ->
          cleanedOf r (Str.trim sql0)))
  /\ (forall s,
         RegExp.test limitClause s = hasClause "LIMIT" s
         /\ RegExp.test offsetClause s = hasClause "OFFSET" s)
  /\ (forall kw,
         kw = "LIMIT" \/ kw = "OFFSET" ->
         (forall s, hasClause kw s = false -> stripClause kw s = s)
         /\ (forall pre k ws ds post,
                hasClause kw pre = false ->
                Str.toUpperCase k = kw ->
                ws <> EmptyString -> all Str.is_space ws = true ->
                ds <> EmptyString -> all Str.is_digit ds = true ->
                begins Str.is_digit post = false ->
                stripClause kw (pre +:+ k +:+ ws +:+ ds +:+ post) = pre +:+ post))
  /\ (forall s, dropSemicolon (s +:+ ";") = s)
  /\ (forall s, (forall t, s <> t +:+ ";") -> dropSemicolon s = s)
  /\ sql (paginateQuery "SELECT * FROM t" {| page := 2; pageSize := 25 |})
     = "SELECT * FROM t" +:+ nl +:+ "LIMIT 25 OFFSET 25"
  /\ sql (paginateQuery "SELECT * FROM t" {| page := 1; pageSize := 5000 |})
     = "SELECT * FROM t" +:+ nl +:+ "LIMIT 1000 OFFSET 0"
  /\ In capHint (hints (paginateQuery "SELECT * FROM t"
                                      {| page := 1; pageSize := 5000 |}))
  /\ sql (paginateQuery "SELECT * FROM t LIMIT 5 OFFSET 10;"
                        {| page := 1; pageSize := 50 |})
     = "SELECT * FROM t  " +:+ nl +:+ "LIMIT 50 OFFSET 0".
Proof.
split; [|split; [|split; [|split; [|split]]]].
- intros sql0 pg ps r validPage validPageSize.
  split; [lia|]. split; [lia|]. split; [reflexivity|].
  split; [|split; [|split; [|split]]].
  + apply paginateQuery_cleaned.
  + unfold r, paginateQuery. cbn [sql pageSize page].
    set (kept := RegExp.replace _ (Str.trim _) _).
    rewrite <- (append_assoc kept nl).
    rewrite <- (append_assoc "LIMIT " (Str.ofZ _)).
    apply includes_app.
  + unfold r, paginateQuery. cbn [sql pageSize page].
    set (kept := RegExp.replace _ (Str.trim _) _).
    change (" OFFSET " +:+ Str.ofZ ((Z.max 1 pg - 1) * Z.min 1000 (Z.max 10 ps)))
      with (" " +:+ "OFFSET " +:+ Str.ofZ ((Z.max 1 pg - 1) * Z.min 1000 (Z.max 10 ps))).
    rewrite <- (append_nil_r (Str.ofZ ((Z.max 1 pg - 1) * Z.min 1000 (Z.max 10 ps)))).
    rewrite <- (append_assoc "OFFSET " (Str.ofZ _)).
    rewrite <- !(append_assoc _ _ (("OFFSET " +:+ _) +:+ _)).
    apply includes_app.
  + unfold r, paginateQuery. cbn [hints pageSize page].
    destruct (1000 <? ps) eqn:E.
    * split; [lia|]. intros _. simpl. right. right. now left.
    * split; [|lia]. simpl. intros [H|[H|[]]]; discriminate H.
  + intros Hl Ho Hs. unfold cleanedOf, r, paginateQuery.
    cbn [sql countSql pagination pageSize page].
    fold limitClause offsetClause lastSemicolon.
    rewrite (replace_no_match limitClause) by (reflexivity || assumption).
    rewrite (replace_no_match offsetClause) by (reflexivity || assumption).
    rewrite (replace_no_match lastSemicolon) by (reflexivity || assumption).
    eexists. eexists.
    split; [reflexivity|]. split; [reflexivity|]. split; reflexivity.
- intros s. rewrite limitClause_re, offsetClause_re. split; apply test_clause.
- intros kw Hkw. split.
  + intros s. apply hasClause_none.
  + intros pre k ws ds post. apply stripClause_shape.
    destruct Hkw as [-> | ->]; vm_compute; reflexivity.
- apply dropSemicolon_final.
- apply dropSemicolon_other.
- repeat split; try (vm_compute; reflexivity).
  vm_compute. right. right. now left.
Qed.

Lemma pagination_transform_witness :
  cleanedOf (paginateQuery "  SELECT * FROM t " {| page := 3; pageSize := 20 |})
            "SELECT * FROM t"
  /\ stripClause "LIMIT" ("SELECT * FROM t " +:+ "limit" +:+ " " +:+ "5" +:+ ";")
     = "SELECT * FROM t " +:+ ";".
Proof.
split.
- apply (proj1 pagination_transform "  SELECT * FROM t " 3 20);
    vm_compute; reflexivity.
- apply (proj1 (proj2 (proj2 pagination_transform)) "LIMIT" (or_introl eq_refl));
    vm_compute; (reflexivity || discriminate).
Defined.

End PaginationTheorems.

(** ** Invalidation *)
Module InvalidateTheorems.
Import QueryCache CacheFacts.


Lemma filter_partition {A} (P : A -> bool) (l : list A) :
  (length (List.filter P l) + length (List.filter (fun x => negb (P x)) l))%nat
  = length l.
Proof.
induction l as [|a l IH]; simpl; [reflexivity|].
destruct (P a); simpl; lia.
Qed.

Section Operations.
Context {T any compiled : Type}.
Variable truthy : any -> bool.
Variable stringify : any -> AnyCache.stringified.
Variable compile : string -> option compiled.
Variable test : compiled -> string -> bool.
Implicit Types (c : QueryCache.t T).











End Operations.




End InvalidateTheorems.

(** ** [JSON.stringify] is injective *)
Module JsonFacts.
Import Json StrFacts.

Section ValueInd.
Variable P : value -> Prop.
Hypothesis HNull : P Null.
Hypothesis HBool : forall b, P (Bool b).
Hypothesis HNum : forall z, P (Num z).
Hypothesis HText : forall s, P (Text s).
Hypothesis HArr : forall items, List.Forall P items -> P (Arr items).
Hypothesis HObj :
  forall fields, List.Forall (fun kv => P (snd kv)) fields -> P (Obj fields).

Fixpoint value_induction (v : value) : P v :=
match v with
| Null => HNull
| Bool b => HBool b
| Num z => HNum z
| Text s => HText s
| Arr items =>
    HArr items
      ((fix go (l : list value) : List.Forall P l :=
          match l with
          | [] => @List.Forall_nil _ P
          | x :: l' => @List.Forall_cons _ P x l' (value_induction x) (go l')
          end) items)
| Obj fields =>
    HObj fields
      ((fix go (l : list (string * value))
          : List.Forall (fun kv => P (snd kv)) l :=
          match l with
          | [] => @List.Forall_nil _ (fun kv => P (snd kv))
          | kv :: l' =>
              @List.Forall_cons _ (fun kv => P (snd kv)) kv l'
                                (value_induction (snd kv)) (go l')
          end) fields)
end.
End ValueInd.

(** The elements of an array and the members of an object, as
    [stringify] writes them. *)
Fixpoint elems (l : list value) : string :=
match l with
| [] => EmptyString
| [x] => stringify x
| x :: l' => stringify x +:+ "," +:+ elems l'
end.

Fixpoint members (l : list (string * value)) : string :=
match l with
| [] => EmptyString
| [(k, x)] => quote k +:+ ":" +:+ stringify x
| (k, x) :: l' => quote k +:+ ":" +:+ stringify x +:+ "," +:+ members l'
end.

Lemma stringify_Arr l : stringify (Arr l) = "[" +:+ elems l +:+ "]".
Proof. reflexivity. Qed.

Lemma stringify_Obj l : stringify (Obj l) = "{" +:+ members l +:+ "}".
Proof. reflexivity. Qed.

(** What follows an element or a member. *)
Definition more_elems (l : list value) : string :=
match l with [] => EmptyString | _ => "," +:+ elems l end.

Definition more_members (l : list (string * value)) : string :=
match l with [] => EmptyString | _ => "," +:+ members l end.

Lemma elems_cons x l : elems (x :: l) = stringify x +:+ more_elems l.
Proof. destruct l; cbn [elems more_elems]; [now rewrite append_nil_r | reflexivity]. Qed.

Lemma members_cons k x l :
  members ((k, x) :: l) = quote k +:+ ":" +:+ stringify x +:+ more_members l.
Proof.
destruct l; cbn [members more_members]; [now rewrite append_nil_r | reflexivity].
Qed.

(** *** Numbers *)
Definition numchar (c : ascii) : bool := Str.is_digit c || Ascii.eqb c "-".

Fixpoint all_num (s : string) : bool :=
match s with
| EmptyString => true
| String c s' => numchar c && all_num s'
end.

(** A rest that cannot continue a number. *)
Definition delim (r : string) : Prop :=
match r with
| EmptyString => True
| String c _ => numchar c = false
end.

Lemma uint_all_num d : all_num (NilEmpty.string_of_uint d) = true.
Proof. induction d; cbn [NilEmpty.string_of_uint all_num]; now rewrite ?IHd. Qed.

Lemma ofZ_all_num z : all_num (Str.ofZ z) = true.
Proof.
unfold Str.ofZ, NilZero.string_of_int, NilZero.string_of_uint.
destruct (Z.to_int z) as [d|d]; destruct d; try reflexivity;
  cbn [all_num]; rewrite ?uint_all_num; reflexivity.
Qed.

Lemma ofZ_nonempty z : Str.ofZ z <> EmptyString.
Proof.
unfold Str.ofZ, NilZero.string_of_int, NilZero.string_of_uint.
destruct (Z.to_int z) as [d|d]; destruct d; discriminate.
Qed.

Lemma ofZ_inj z1 z2 : Str.ofZ z1 = Str.ofZ z2 -> z1 = z2.
Proof.
unfold Str.ofZ. intros H.
assert (Hn : forall z, Z.to_int z <> Decimal.Pos Decimal.Nil
                       /\ Z.to_int z <> Decimal.Neg Decimal.Nil).
{ intros [|p|p]; cbn [Z.to_int]; split; try discriminate;
    intros [= E]; now apply (DecimalPos.Unsigned.to_uint_nonnil p). }
apply (f_equal NilZero.int_of_string) in H.
rewrite !NilZero.isi in H by apply Hn.
injection H as H. apply (f_equal Z.of_int) in H.
now rewrite !DecimalZ.of_to in H.
Qed.

Lemma num_split a1 : forall a2 r1 r2,
  all_num a1 = true -> all_num a2 = true -> delim r1 -> delim r2 ->
  a1 +:+ r1 = a2 +:+ r2 -> a1 = a2 /\ r1 = r2.
Proof.
induction a1 as [|c a1 IH]; intros [|c2 a2] r1 r2 H1 H2 D1 D2 E.
- now split.
- rewrite append_nil_l, append_cons in E. subst r1.
  cbn [all_num] in H2. cbn [delim] in D1.
  apply andb_true_iff in H2 as [H2 _]. congruence.
- rewrite append_nil_l, append_cons in E. subst r2.
  cbn [all_num] in H1. cbn [delim] in D2.
  apply andb_true_iff in H1 as [H1 _]. congruence.
- rewrite !append_cons in E. injection E as -> E.
  cbn [all_num] in H1, H2.
  apply andb_true_iff in H1 as [_ H1]. apply andb_true_iff in H2 as [_ H2].
  destruct (IH a2 r1 r2 H1 H2 D1 D2 E) as [-> ->]. now split.
Qed.

(** *** Strings *)
Definition hexval (c : ascii) : nat :=
if Str.is_digit c then Str.code c - 48 else Str.code c - 87.

(** The character an escape sequence stands for, and what follows it. *)
Definition unescape (s : string) : option (ascii * string) :=
match s with
| EmptyString => None
| String c rest =>
    if Ascii.eqb c "\" then
      match rest with
      | EmptyString => None
      | String e rest' =>
          if Ascii.eqb e "034" then Some ("034"%char, rest')
          else if Ascii.eqb e "\" then Some ("\"%char, rest')
          else if Ascii.eqb e "b" then Some ("008"%char, rest')
          else if Ascii.eqb e "f" then Some ("012"%char, rest')
          else if Ascii.eqb e "n" then Some ("010"%char, rest')
          else if Ascii.eqb e "r" then Some ("013"%char, rest')
          else if Ascii.eqb e "t" then Some ("009"%char, rest')
          else
            match rest' with
            | String _ (String _ (String h1 (String h2 rest''))) =>
                Some (ascii_of_nat (hexval h1 * 16 + hexval h2), rest'')
            | _ => None
            end
      end
    else if Ascii.eqb c "034" then None
    else Some (c, rest)
end.

Lemma unescape_escape c rest : unescape (escape c +:+ rest) = Some (c, rest).
Proof. destruct c as [[] [] [] [] [] [] [] []]; vm_compute; reflexivity. Qed.

Lemma unescape_quote rest : unescape (dq +:+ rest) = None.
Proof. reflexivity. Qed.

Lemma escape_all_split s1 : forall s2 r1 r2,
  escape_all s1 +:+ dq +:+ r1 = escape_all s2 +:+ dq +:+ r2 ->
  s1 = s2 /\ r1 = r2.
Proof.
induction s1 as [|c1 s1 IH]; intros [|c2 s2] r1 r2 E; cbn [escape_all] in E.
- rewrite !append_nil_l in E. apply append_inv_head in E. now split.
- rewrite append_nil_l, append_assoc in E.
  apply (f_equal unescape) in E.
  rewrite unescape_escape, unescape_quote in E. discriminate.
- rewrite append_nil_l, append_assoc in E.
  apply (f_equal unescape) in E.
  rewrite unescape_escape, unescape_quote in E. discriminate.
- rewrite !append_assoc in E. apply (f_equal unescape) in E.
  rewrite !unescape_escape in E. injection E as -> E.
  destruct (IH s2 r1 r2 E) as [-> ->]. now split.
Qed.

Lemma quote_split s1 s2 r1 r2 :
  quote s1 +:+ r1 = quote s2 +:+ r2 -> s1 = s2 /\ r1 = r2.
Proof.
unfold quote. rewrite !append_assoc. intros E.
apply append_inv_head in E. now apply escape_all_split.
Qed.

(** *** The first character tells the kind of value *)
Definition kind_of_char (c : ascii) : nat :=
if Ascii.eqb c "n" then 0
else if Ascii.eqb c "t" then 1
else if Ascii.eqb c "f" then 2
else if numchar c then 3
else if Ascii.eqb c "034" then 4
else if Ascii.eqb c "[" then 5
else if Ascii.eqb c "{" then 6
else 7.

Definition kind (v : value) : nat :=
match v with
| Null => 0
| Bool true => 1
| Bool false => 2
| Num _ => 3
| Text _ => 4
| Arr _ => 5
| Obj _ => 6
end.

Definition head_kind (s : string) : nat :=
match s with
| String c _ => kind_of_char c
| EmptyString => 8
end.

Lemma head_kind_app s r : s <> EmptyString -> head_kind (s +:+ r) = head_kind s.
Proof. destruct s; [congruence | reflexivity]. Qed.

Lemma stringify_nonempty v : stringify v <> EmptyString.
Proof.
destruct v as [|[]|z|s|l|l]; try discriminate. apply ofZ_nonempty.
Qed.

Lemma stringify_head v : head_kind (stringify v) = kind v.
Proof.
destruct v as [|[]|z|s|l|l]; try reflexivity.
cbn [stringify kind].
pose proof (ofZ_all_num z) as H. pose proof (ofZ_nonempty z) as Hn.
destruct (Str.ofZ z) as [|c s]; [congruence|].
cbn [all_num] in H. apply andb_true_iff in H as [H _].
cbn [head_kind]. unfold kind_of_char. rewrite H.
unfold numchar in H.
destruct (Ascii.eqb_spec c "n") as [->|_]; [discriminate H|].
destruct (Ascii.eqb_spec c "t") as [->|_]; [discriminate H|].
destruct (Ascii.eqb_spec c "f") as [->|_]; [discriminate H|].
reflexivity.
Qed.

Lemma head_kind_stringify v r : head_kind (stringify v +:+ r) = kind v.
Proof. rewrite head_kind_app by apply stringify_nonempty. apply stringify_head. Qed.

(** *** Injectivity *)
Definition splits (v : value) : Prop :=
forall v2 r1 r2,
  delim r1 -> delim r2 ->
  stringify v +:+ r1 = stringify v2 +:+ r2 -> v = v2 /\ r1 = r2.

Lemma delim_more_elems l r : delim (more_elems l +:+ "]" +:+ r).
Proof. destruct l; reflexivity. Qed.

Lemma delim_more_members l r : delim (more_members l +:+ "}" +:+ r).
Proof. destruct l; reflexivity. Qed.

Lemma elems_split l1 :
  List.Forall splits l1 ->
  forall l2 r1 r2,
    elems l1 +:+ "]" +:+ r1 = elems l2 +:+ "]" +:+ r2 -> l1 = l2 /\ r1 = r2.
Proof.
induction 1 as [|x l1 Hx _ IH]; intros [|y l2] r1 r2 E.
- rewrite !append_nil_l in E. apply (append_inv_head "]") in E. now split.
- exfalso. rewrite elems_cons, append_nil_l, append_assoc in E.
  apply (f_equal head_kind) in E. rewrite head_kind_stringify in E.
  destruct y as [|[]| | | |]; discriminate E.
- exfalso. rewrite elems_cons, append_nil_l, append_assoc in E.
  apply (f_equal head_kind) in E. rewrite head_kind_stringify in E.
  destruct x as [|[]| | | |]; discriminate E.
- rewrite !elems_cons, !append_assoc in E.
  apply Hx in E as [-> E]; [|apply delim_more_elems..].
  destruct l1 as [|x1 l1], l2 as [|y1 l2]; cbn [more_elems] in E.
  + rewrite !append_nil_l in E. apply (append_inv_head "]") in E. now subst.
  + rewrite append_nil_l, !append_cons in E. discriminate E.
  + rewrite append_nil_l, !append_cons in E. discriminate E.
  + rewrite !append_assoc in E. apply (append_inv_head ",") in E.
    destruct (IH _ _ _ E) as [-> ->]. now split.
Qed.

Lemma members_split l1 :
  List.Forall (fun kv => splits (snd kv)) l1 ->
  forall l2 r1 r2,
    members l1 +:+ "}" +:+ r1 = members l2 +:+ "}" +:+ r2 -> l1 = l2 /\ r1 = r2.
Proof.
induction 1 as [|[k x] l1 Hx _ IH]; intros [|[k2 y] l2] r1 r2 E.
- rewrite !append_nil_l in E. apply (append_inv_head "}") in E. now split.
- exfalso. rewrite members_cons, append_nil_l in E. unfold quote in E.
  rewrite !append_assoc, !append_cons in E. discriminate E.
- exfalso. rewrite members_cons, append_nil_l in E. unfold quote in E.
  rewrite !append_assoc, !append_cons in E. discriminate E.
- rewrite !members_cons, !append_assoc in E.
  apply quote_split in E as [-> E]. apply (append_inv_head ":") in E.
  cbn [snd] in Hx.
  apply Hx in E as [-> E]; [|apply delim_more_members..].
  destruct l1 as [|x1 l1], l2 as [|y1 l2]; cbn [more_members] in E.
  + rewrite !append_nil_l in E. apply (append_inv_head "}") in E. now subst.
  + rewrite append_nil_l, !append_cons in E. discriminate E.
  + rewrite append_nil_l, !append_cons in E. discriminate E.
  + rewrite !append_assoc in E. apply (append_inv_head ",") in E.
    destruct (IH _ _ _ E) as [-> ->]. now split.
Qed.

Lemma stringify_splits v : splits v.
Proof.
induction v as [|b|z|s|l IH|l IH] using value_induction;
  intros v2 r1 r2 D1 D2 E;
  assert (Hk := f_equal head_kind E);
  rewrite !head_kind_stringify in Hk;
  destruct v2 as [|b2|z2|s2|l2|l2];
  try (destruct b); try (destruct b2); try discriminate Hk; clear Hk.
- apply (append_inv_head "null") in E. now split.
- apply (append_inv_head "true") in E. now split.
- apply (append_inv_head "false") in E. now split.
- cbn [stringify] in E.
  apply num_split in E as [E ->]; try assumption; try apply ofZ_all_num.
  apply ofZ_inj in E. now subst.
- cbn [stringify] in E. apply quote_split in E as [-> ->]. now split.
- rewrite !stringify_Arr, !append_assoc in E.
  apply (append_inv_head "[") in E.
  apply (elems_split l IH) in E as [-> ->]. now split.
- rewrite !stringify_Obj, !append_assoc in E.
  apply (append_inv_head "{") in E.
  apply (members_split l IH) in E as [-> ->]. now split.
Qed.

Lemma stringify_inj v1 v2 : stringify v1 = stringify v2 -> v1 = v2.
Proof.
intros E. apply (stringify_splits v1 v2 EmptyString EmptyString I I).
now rewrite !append_nil_r.
Qed.

End JsonFacts.

(** ** Cache keys *)
Module KeyFacts.
Import QueryCache CacheFacts.

(** *** Whitespace collapsing

    [s.replace(/\s+/g, " ")] against its plain reading: every run of
    white space becomes one space. *)
Fixpoint collapse (s : string) : string :=
match s with
| EmptyString => EmptyString
| String c s' =>
    if Str.is_space c then
      match s' with
      | String c' _ => if Str.is_space c' then collapse s' else String " " (collapse s')
      | EmptyString => " "
      end
    else String c (collapse s')
end.

Definition whitespace : RegExp.t := regexp "\s+" f_g.

Definition ws : RegExp.regex := RegExp.Atom (RegExp.Cls false RegExp.Space).

Lemma whitespace_re : whitespace = RegExp.mk "\s+" (RegExp.Plus true ws) false true.
Proof. vm_compute. reflexivity. Qed.

Lemma collapse_single c :
  collapse (String c EmptyString)
  = if Str.is_space c then " " else String c EmptyString.
Proof. reflexivity. Qed.

Lemma collapse_cons c c' s :
  collapse (String c (String c' s))
  = if Str.is_space c then
      if Str.is_space c' then collapse (String c' s)
      else String " " (collapse (String c' s))
    else String c (collapse (String c' s)).
Proof. reflexivity. Qed.

Lemma collapse_space c s :
  Str.is_space c = true -> collapse (String c s) = String " " (collapse (Str.trimStart s)).
Proof.
revert c. induction s as [|c' s IH]; intros c Hc; cbn [collapse Str.trimStart];
  rewrite Hc; [reflexivity|].
destruct (Str.is_space c') eqn:Hc'.
- rewrite <- (IH c' Hc'). cbn [collapse]. now rewrite Hc'.
- cbn [collapse]. now rewrite ?Hc'.
Qed.

Lemma trimStart_suffix s :
  exists k, (k + String.length (Str.trimStart s) = String.length s)%nat
            /\ Str.drop k s = Str.trimStart s.
Proof.
induction s as [|c s (k & Hk & Hd)]; cbn [Str.trimStart].
- exists 0%nat. split; reflexivity.
- destruct (Str.is_space c).
  + exists (S k). split; [cbn [String.length]; lia | exact Hd].
  + exists 0%nat. split; reflexivity.
Qed.

Lemma drop_take_length k s t :
  (k + String.length t = String.length s)%nat -> Str.drop k s = t ->
  String.length (Str.take k s) = k
  /\ Str.drop (String.length s - String.length t) s = t.
Proof.
intros Hk Hd. replace (String.length s - String.length t)%nat with k by lia.
split; [|assumption]. clear Hd. revert s Hk.
induction k as [|k IH]; intros s Hk; [now destruct s|].
destruct s as [|c s]; cbn [String.length Str.take] in *; [lia|]. f_equal. apply IH. lia.
Qed.

Lemma drop_drop a b s : Str.drop b (Str.drop a s) = Str.drop (a + b) s.
Proof.
revert s. induction a as [|a IH]; intros s; [reflexivity|].
destruct s as [|c s]; [now destruct b|]. cbn [Str.drop Nat.add]. apply IH.
Qed.

(** One iteration of the quantifier of [\s+]. *)
Definition ws_body {R} : RegExp.kont (R:=R) -> RegExp.kont (R:=R) :=
fun k' cur' cs' => RegExp.run false ws k' cur' (RegExp.cap_clear [] cs').

Lemma ws_body_cons {R} (k : RegExp.kont (R:=R)) prev c s moved :
  ws_body k (RegExp.Cursor prev (String c s)) [] moved
  = if Str.is_space c then k (RegExp.Cursor (Some c) s) [] true else None.
Proof. reflexivity. Qed.

Lemma ws_body_nil {R} (k : RegExp.kont (R:=R)) prev moved :
  ws_body k (RegExp.Cursor prev EmptyString) [] moved = None.
Proof. reflexivity. Qed.

(** The greedy loop of [\s+] stops after the run of white space. *)
Lemma repeat_ws {R} (k : RegExp.kont (R:=R)) :
  (forall cur mv, exists r, k cur [] mv = Some r) ->
  forall s n prev moved,
    (String.length s <= n)%nat ->
    exists prev' mv',
      RegExp.repeat ws_body true k n (RegExp.Cursor prev s) [] moved
      = k (RegExp.Cursor prev' (Str.trimStart s)) [] mv'.
Proof.
intros Hk. induction s as [|c s IH]; intros n prev moved Hn.
- exists prev, moved. destruct n; [reflexivity|].
  cbn [RegExp.repeat]. now rewrite ws_body_nil.
- destruct n as [|n]; [cbn [String.length] in Hn; lia|].
  cbn [RegExp.repeat Str.trimStart]. rewrite ws_body_cons.
  destruct (Str.is_space c) eqn:Hc.
  + destruct (IH n (Some c) true) as (prev' & mv' & E);
      [cbn [String.length] in Hn; lia|].
    exists prev', mv'. rewrite E.
    destruct (Hk (RegExp.Cursor prev' (Str.trimStart s)) mv') as [r Hr].
    now rewrite Hr.
  + exists prev, moved. reflexivity.
Qed.

Lemma match_at_ws_none prev c s off :
  Str.is_space c = false ->
  RegExp.match_at false (RegExp.Plus true ws) (RegExp.Cursor prev (String c s)) off = None.
Proof.
intros Hc. unfold RegExp.match_at.
cbn [RegExp.run RegExp.rest ws RegExp.atom_matches RegExp.cls_has xorb].
now rewrite Hc.
Qed.

Lemma match_at_ws_empty prev off :
  RegExp.match_at false (RegExp.Plus true ws) (RegExp.Cursor prev EmptyString) off = None.
Proof. reflexivity. Qed.

Lemma match_at_ws_some prev c s off :
  Str.is_space c = true ->
  exists prev',
    RegExp.match_at false (RegExp.Plus true ws) (RegExp.Cursor prev (String c s)) off
    = Some (RegExp.Result off
              (Str.take (String.length (String c s)
                         - String.length (Str.trimStart s)) (String c s))
              [] (RegExp.Cursor prev' (Str.trimStart s))).
Proof.
intros Hc. unfold RegExp.match_at.
change (RegExp.run false (RegExp.Plus true ws) ?k (RegExp.Cursor prev (String c s)) [] false)
  with (if Str.is_space c
        then RegExp.repeat ws_body true k (String.length s)
                           (RegExp.Cursor (Some c) s) [] true
        else None).
rewrite Hc.
edestruct (repeat_ws (R:=RegExp.result)) as (prev' & mv' & E);
  [| | rewrite E; exists prev'; reflexivity].
- intros cur mv. eexists. reflexivity.
- lia.
Qed.

(** The compiled form of [/\s+/g]. *)
Definition wsx : RegExp.t := RegExp.mk "\s+" (RegExp.Plus true ws) false true.

Lemma search_ws_index s : forall prev off m,
  RegExp.search false (RegExp.Plus true ws) prev s off = Some m ->
  (off <= RegExp.index m)%nat.
Proof.
induction s as [|c s IH]; intros prev off m.
- cbn [RegExp.search]. now rewrite match_at_ws_empty.
- cbn [RegExp.search]. destruct (Str.is_space c) eqn:Hc.
  + destruct (match_at_ws_some prev c s off Hc) as [prev' ->].
    intros [= <-]. cbn [RegExp.index]. lia.
  + rewrite match_at_ws_none by assumption. intros H. apply IH in H. lia.
Qed.

Lemma drop_S off s0 c s :
  Str.drop off s0 = String c s -> Str.drop (S off) s0 = s.
Proof.
intros H. replace (S off) with (off + 1)%nat by lia.
rewrite <- drop_drop, H. reflexivity.
Qed.

Lemma splice_shift s0 repl off c s ms :
  Str.drop off s0 = String c s ->
  (forall m ms', ms = m :: ms' -> (S off <= RegExp.index m)%nat) ->
  RegExp.splice wsx s0 repl off ms
  = String c (RegExp.splice wsx s0 repl (S off) ms).
Proof.
intros Hd Hidx. destruct ms as [|m ms]; cbn [RegExp.splice].
- rewrite Hd. f_equal. symmetry. now apply (drop_S off s0 c).
- specialize (Hidx m ms eq_refl).
  rewrite Hd, (drop_S off s0 c s Hd).
  replace (RegExp.index m - off)%nat with (S (RegExp.index m - S off)) by lia.
  cbn [Str.take]. now rewrite StrFacts.append_cons.
Qed.

Lemma matches_from_skip fuel prev c s off :
  Str.is_space c = false ->
  RegExp.matches_from (S fuel) wsx (RegExp.Cursor prev (String c s)) off
  = RegExp.matches_from (S fuel) wsx (RegExp.Cursor (Some c) s) (S off).
Proof.
intros Hc.
cbn [RegExp.matches_from RegExp.ignoreCase RegExp.re wsx RegExp.prev RegExp.rest
     RegExp.search].
now rewrite match_at_ws_none.
Qed.

Lemma matches_from_head fuel prev s off m ms :
  RegExp.matches_from fuel wsx (RegExp.Cursor prev s) off = m :: ms ->
  (off <= RegExp.index m)%nat.
Proof.
destruct fuel as [|fuel]; [discriminate|].
cbn [RegExp.matches_from RegExp.ignoreCase RegExp.re wsx RegExp.prev RegExp.rest].
destruct (RegExp.search false (RegExp.Plus true ws) prev s off) as [m'|] eqn:E;
  [|discriminate].
intros [= <- _]. now apply search_ws_index in E.
Qed.

Lemma splice_ws s0 : forall n s prev off fuel,
  (String.length s <= n)%nat -> (String.length s < fuel)%nat ->
  Str.drop off s0 = s ->
  RegExp.splice wsx s0 " " off
    (RegExp.matches_from fuel wsx (RegExp.Cursor prev s) off)
  = collapse s.
Proof.
induction n as [|n IH]; intros s prev off fuel Hn Hfuel Hd;
  (destruct fuel as [|fuel]; [lia|]); destruct s as [|c s].
- cbn [RegExp.matches_from RegExp.ignoreCase RegExp.re wsx RegExp.prev RegExp.rest
       RegExp.search].
  rewrite match_at_ws_empty. cbn [RegExp.splice]. now rewrite Hd.
- cbn [String.length] in Hn. lia.
- cbn [RegExp.matches_from RegExp.ignoreCase RegExp.re wsx RegExp.prev RegExp.rest
       RegExp.search].
  rewrite match_at_ws_empty. cbn [RegExp.splice]. now rewrite Hd.
- cbn [String.length] in Hn, Hfuel.
  destruct (Str.is_space c) eqn:Hc.
  + (* a run of white space starts here *)
    destruct (trimStart_suffix s) as (k & Hk & Hdk).
    destruct (drop_take_length k s (Str.trimStart s) Hk Hdk) as [Hlen _].
    cbn [RegExp.matches_from RegExp.ignoreCase RegExp.re wsx RegExp.prev RegExp.rest
         RegExp.search].
    destruct (match_at_ws_some prev c s off Hc) as [prev' ->].
    cbn [RegExp.matched RegExp.stop RegExp.index String.length].
    replace (S (String.length s) - String.length (Str.trimStart s))%nat
      with (S k) by lia.
    cbn [Str.take String.length RegExp.splice RegExp.index RegExp.matched].
    rewrite Hlen, Nat.sub_diag, Hd. cbn [Str.take].
    rewrite StrFacts.append_nil_l.
    rewrite IH.
    * rewrite collapse_space by assumption. reflexivity.
    * lia.
    * lia.
    * rewrite <- drop_drop, Hd. exact Hdk.
  + (* an ordinary character is copied *)
    rewrite matches_from_skip by assumption.
    rewrite (splice_shift s0 " " off c s) by
      (try assumption; intros m ms' E; now apply matches_from_head in E).
    rewrite IH; try lia.
    * cbn [collapse]. now rewrite Hc.
    * now apply (drop_S off s0 c).
Qed.

Lemma replace_whitespace s : RegExp.replace whitespace s " " = collapse s.
Proof.
rewrite whitespace_re. fold wsx. unfold RegExp.replace, RegExp.matchAll.
cbn [RegExp.global wsx]. apply (splice_ws s (String.length s)); [lia | lia | reflexivity].
Qed.

(** The key, free of regular expressions. *)
Lemma generateKey_spec q p :
  generateKey q p
  = collapse (Str.toLowerCase (Str.trim q)) +:+ ":"
    +:+ match p with
        | Some v => if Json.truthy v then Json.stringify v else EmptyString
        | None => EmptyString
        end.
Proof. unfold generateKey. fold whitespace. now rewrite replace_whitespace. Qed.

(** *** Normalisation as the specification words it

    Lower-casing and whitespace collapsing, without the trimming the
    code does first. *)
Definition spec_normalize (q : string) : string := collapse (Str.toLowerCase q).

(** Drop one space at the front, one at the end. *)
Definition dropSpace (s : string) : string :=
match s with
| String c s' => if Ascii.eqb c " " then s' else s
| EmptyString => EmptyString
end.

Fixpoint chopSpace (s : string) : string :=
match s with
| EmptyString => EmptyString
| String c s' =>
    match s' with
    | EmptyString => if Ascii.eqb c " " then EmptyString else String c EmptyString
    | _ => String c (chopSpace s')
    end
end.

Lemma is_space_lower c : Str.is_space (Str.lower c) = Str.is_space c.
Proof. destruct c as [[] [] [] [] [] [] [] []]; vm_compute; reflexivity. Qed.

Lemma space_is_space c : Ascii.eqb c " " = true -> Str.is_space c = true.
Proof. intros H. apply Ascii.eqb_eq in H. now subst. Qed.

Lemma lower_trimStart s :
  Str.toLowerCase (Str.trimStart s) = Str.trimStart (Str.toLowerCase s).
Proof.
induction s as [|c s IH]; [reflexivity|].
cbn [Str.trimStart Str.toLowerCase Str.map]. rewrite is_space_lower.
destruct (Str.is_space c); [exact IH | reflexivity].
Qed.

Lemma lower_trimEnd s :
  Str.toLowerCase (Str.trimEnd s) = Str.trimEnd (Str.toLowerCase s).
Proof.
induction s as [|c s IH]; [reflexivity|].
cbn [Str.trimEnd Str.toLowerCase Str.map]. fold (Str.toLowerCase s).
rewrite <- IH. rewrite is_space_lower.
destruct (Str.trimEnd s) as [|c' t]; cbn [Str.toLowerCase Str.map].
- now destruct (Str.is_space c).
- reflexivity.
Qed.

Lemma lower_trim s : Str.toLowerCase (Str.trim s) = Str.trim (Str.toLowerCase s).
Proof. unfold Str.trim. now rewrite lower_trimEnd, lower_trimStart. Qed.

Lemma collapse_trimStart s : collapse (Str.trimStart s) = dropSpace (collapse s).
Proof.
destruct s as [|c s]; [reflexivity|].
cbn [Str.trimStart]. destruct (Str.is_space c) eqn:Hc.
- rewrite (collapse_space c s Hc). reflexivity.
- cbn [collapse]. rewrite Hc. cbn [dropSpace].
  destruct (Ascii.eqb c " ") eqn:E; [|reflexivity].
  apply space_is_space in E. congruence.
Qed.

(** A string of white space only. *)
Lemma trimEnd_empty s :
  Str.trimEnd s = EmptyString ->
  s = EmptyString \/ collapse s = " ".
Proof.
induction s as [|c s IH]; [now left|]. intros H. right.
cbn [Str.trimEnd] in H. destruct (Str.trimEnd s) eqn:E; [|discriminate].
destruct (Str.is_space c) eqn:Hc; [|discriminate].
destruct (IH eq_refl) as [->|Hs]; [rewrite collapse_single; now rewrite Hc|].
destruct s as [|c' s]; [discriminate|].
rewrite collapse_cons, Hc.
destruct (Str.is_space c') eqn:Hc'; [exact Hs|].
cbn [collapse] in Hs. rewrite Hc' in Hs. injection Hs as -> _.
discriminate Hc'.
Qed.

Lemma trimEnd_head c s c' t :
  Str.trimEnd (String c s) = String c' t -> c' = c.
Proof.
cbn [Str.trimEnd]. destruct (Str.trimEnd s).
- destruct (Str.is_space c); [discriminate | now intros [= <- _]].
- now intros [= <- _].
Qed.

Lemma collapse_nonempty c s : collapse (String c s) <> EmptyString.
Proof.
revert c. induction s as [|c' s IH]; intros c.
- rewrite collapse_single. now destruct (Str.is_space c).
- rewrite collapse_cons. destruct (Str.is_space c); [|discriminate].
  destruct (Str.is_space c'); [apply IH | discriminate].
Qed.

Lemma chopSpace_cons c s :
  s <> EmptyString -> chopSpace (String c s) = String c (chopSpace s).
Proof. intros H. destruct s; [congruence | reflexivity]. Qed.

Lemma collapse_trimEnd s : collapse (Str.trimEnd s) = chopSpace (collapse s).
Proof.
induction s as [|c s IH]; [reflexivity|].
cbn [Str.trimEnd]. destruct (Str.trimEnd s) as [|c' t] eqn:E.
- destruct (trimEnd_empty s E) as [->|Hs].
  + destruct (Str.is_space c) eqn:Hc; rewrite !collapse_single, ?Hc;
      [reflexivity|].
    cbn [chopSpace]. destruct (Ascii.eqb c " ") eqn:E'; [|reflexivity].
    apply space_is_space in E'. congruence.
  + destruct s as [|c1 s]; [discriminate|].
    assert (Hc1 : Str.is_space c1 = true).
    { cbn [Str.trimEnd] in E. destruct (Str.trimEnd s); [|discriminate].
      destruct (Str.is_space c1); [reflexivity | discriminate]. }
    destruct (Str.is_space c) eqn:Hc.
    * rewrite collapse_cons, Hc, Hc1, Hs. reflexivity.
    * rewrite collapse_cons, Hc, Hs, collapse_single, Hc. reflexivity.
- destruct s as [|c1 s]; [discriminate|].
  pose proof (trimEnd_head c1 s c' t E) as ->.
  pose proof (collapse_nonempty c1 s) as Hne.
  rewrite !collapse_cons, IH.
  destruct (Str.is_space c); [destruct (Str.is_space c1)|];
    try reflexivity; now rewrite chopSpace_cons.
Qed.

Lemma normalized_of_spec q :
  collapse (Str.toLowerCase (Str.trim q)) = chopSpace (dropSpace (spec_normalize q)).
Proof.
unfold spec_normalize. rewrite lower_trim. unfold Str.trim.
now rewrite collapse_trimEnd, collapse_trimStart.
Qed.

End KeyFacts.

Module KeyTheorems.
Import QueryCache CacheFacts KeyFacts.

(** C5, counterexample.  The params [0] and [null] are different and
    both falsy, so both serialise to the empty string: the two requests
    share the key ["a:"], and after [set("a", d1, 0)] and
    [set("a", d2, null)] a [get("a", 0)] returns [d2]. *)
Lemma falsy_params_collide :
  Json.Num 0 <> Json.Null
  /\ generateKey "a" (Some (Json.Num 0)) = generateKey "a" (Some Json.Null)
  /\ fst (get (set (set (new None None) 0 "a" 1 (Some (Json.Num 0)) None)
                   0 "a" 2 (Some Json.Null) None)
              0 "a" (Some (Json.Num 0)))
     = Some (2, true).
Proof. split; [discriminate|]. split; vm_compute; reflexivity. Qed.

Lemma same_text_same_key q1 q2 p :
  spec_normalize q1 = spec_normalize q2 -> generateKey q1 p = generateKey q2 p.
Proof.
intros H. rewrite !generateKey_spec, !normalized_of_spec. now rewrite H.
Qed.

Lemma truthy_params_differ q p1 p2 :
  Json.truthy p1 = true -> Json.truthy p2 = true -> p1 <> p2 ->
  generateKey q (Some p1) <> generateKey q (Some p2).
Proof.
intros H1 H2 Hne E. rewrite !generateKey_spec, H1, H2 in E.
apply StrFacts.append_inv_head, (StrFacts.append_inv_head ":") in E.
now apply JsonFacts.stringify_inj in E.
Qed.

Lemma truthy_params_present q p :
  Json.truthy p = true -> generateKey q (Some p) <> generateKey q None.
Proof.
intros H E. rewrite !generateKey_spec, H in E.
apply StrFacts.append_inv_head, (StrFacts.append_inv_head ":") in E.
now apply JsonFacts.stringify_nonempty in E.
Qed.

Lemma falsy_params_absent q p :
  Json.truthy p = false -> generateKey q (Some p) = generateKey q None.
Proof. intros H. unfold generateKey. now rewrite H. Qed.

Section Retrieval.
Context {T : Type}.
Implicit Types (c : QueryCache.t T).

Lemma maxSize_get c now q p : maxSize (snd (get c now q p)) = maxSize c.
Proof.
unfold get. destruct (OMap.get _ (cache c)) as [e|]; [|reflexivity].
now destruct (ttl e <? now - timestamp e).
Qed.

Lemma size_delete_le k (m : OMap.t (CacheEntry T)) :
  OMap.size (OMap.delete k m) <= OMap.size m.
Proof.
unfold OMap.size. induction m as [|[k0 e0] m IH]; cbn [OMap.delete]; [lia|].
destruct (String.eqb k k0); cbn [length]; lia.
Qed.

Lemma size_filter_le (P : string * CacheEntry T -> bool) (m : OMap.t (CacheEntry T)) :
  OMap.size (List.filter P m) <= OMap.size m.
Proof. unfold OMap.size. pose proof (filter_length_le P m). lia. Qed.

(** What [set] keeps of the cache before it inserts. *)
Definition kept c : OMap.t (CacheEntry T) :=
if maxSize c <=? OMap.size (cache c)
then match OMap.first_key (cache c) with
     | Some oldestKey =>
         if String.eqb oldestKey EmptyString then cache c
         else OMap.delete oldestKey (cache c)
     | None => cache c
     end
else cache c.

Lemma cache_set c now q d p ttl0 :
  cache (set c now q d p ttl0)
  = OMap.set (generateKey q p) (Entry d now (ttl_or_default c ttl0) 0) (kept c).
Proof. reflexivity. Qed.

(** Within its capacity a reachable cache stays: [set] makes room first. *)
Lemma kept_room c :
  inv c -> 1 <= maxSize c -> OMap.size (cache c) <= maxSize c ->
  OMap.size (kept c) < maxSize c.
Proof.
intros [_ Hne] Hmax Hsize. unfold kept.
destruct (maxSize c <=? OMap.size (cache c)) eqn:E; [|lia].
revert Hne Hsize E. destruct (cache c) as [|[k e] rest]; intros Hne Hsize E.
- cbn [OMap.first_key]. unfold OMap.size in *. cbn [length] in *. lia.
- cbn [OMap.first_key]. cbn [OMap.keys List.map fst] in Hne.
  apply Forall_cons in Hne as [Hk _].
  destruct (String.eqb_spec k EmptyString) as [Heq|_]; [contradiction|].
  rewrite OMapFacts.delete_first.
  unfold OMap.size in *. cbn [length] in Hsize. lia.
Qed.

Lemma bounded c :
  reachable c -> 1 <= maxSize c -> OMap.size (cache c) <= maxSize c.
Proof.
induction 1 as [ms dt|c now q p Hr IH|c now q d p ttl0 Hr IH
               |c pattern n c' Hr IH Hinv|c now Hr IH].
- intros H. unfold OMap.size. cbn [new cache length]. lia.
- rewrite maxSize_get. intros H. specialize (IH H).
  unfold get. destruct (OMap.get _ (cache c)) as [e|] eqn:E; [|exact IH].
  destruct (ttl e <? now - timestamp e); cbn [snd with_cache cache].
  + pose proof (size_delete_le (generateKey q p) (cache c)). lia.
  + rewrite OMapFacts.size_set, E. exact IH.
- cbn [set maxSize with_cache]. intros H. specialize (IH H).
  rewrite cache_set, OMapFacts.size_set.
  pose proof (kept_room c (reachable_inv c Hr) H IH).
  destruct (OMap.get _ (kept c)); lia.
- assert (Hm : maxSize c' = maxSize c
               /\ OMap.size (cache c') <= OMap.size (cache c)).
  { unfold invalidate in Hinv.
    assert (Hclear : forall x,
               RegExp.Parsed (OMap.size (cache c), with_cache c [])
               = RegExp.Parsed (n, x) ->
               maxSize x = maxSize c /\ OMap.size (cache x) <= OMap.size (cache c)).
    { intros x [= _ <-]. split; [reflexivity|].
      unfold OMap.size. cbn [with_cache cache length]. lia. }
    destruct pattern as [[|a s]|]; [now apply Hclear| |now apply Hclear].
    destruct (RegExp.new _ _ _) as [regex|]; [|discriminate].
    rewrite invalidate_loop_spec in Hinv by apply (reachable_inv c Hr).
    injection Hinv as _ <-. split; [reflexivity|]. apply size_filter_le. }
  destruct Hm as [-> Hle]. intros H. specialize (IH H). lia.
- rewrite cleanup_spec by apply (reachable_inv c Hr). cbn [snd with_cache maxSize cache].
  intros H. specialize (IH H).
  pose proof (size_filter_le (fun kv => negb (expired now kv)) (cache c)). lia.
Qed.

(** After [set] on a cache of capacity two or more, the new key is not
    the one the next [set] would evict. *)
Lemma set_not_oldest c now q d p ttl0 :
  reachable c -> 2 <= maxSize c ->
  maxSize c <= OMap.size (cache (set c now q d p ttl0)) ->
  OMap.first_key (cache (set c now q d p ttl0)) <> Some (generateKey q p).
Proof.
intros Hr Hmax Hfull.
pose proof (kept_room c (reachable_inv c Hr) ltac:(lia) (bounded c Hr ltac:(lia)))
  as Hroom.
rewrite cache_set in *. rewrite OMapFacts.size_set in Hfull.
destruct (OMap.get (generateKey q p) (kept c)) eqn:E; [lia|].
rewrite EvictionTheorems.set_fresh by assumption.
destruct (kept c) as [|[k e] rest] eqn:Hk.
- unfold OMap.size in Hfull. cbn [length] in Hfull. lia.
- cbn [app OMap.first_key]. intros [= ->].
  cbn [OMap.get] in E. now rewrite String.eqb_refl in E.
Qed.

(** The entry of another key survives a [set]. *)
Lemma get_after_other_set c now q d p ttl0 k (e : CacheEntry T) :
  reachable c ->
  k <> generateKey q p ->
  OMap.get k (cache c) = Some e ->
  OMap.first_key (cache c) <> Some k \/ OMap.size (cache c) < maxSize c ->
  OMap.get k (cache (set c now q d p ttl0)) = Some e.
Proof.
intros Hr Hne He Hsafe. rewrite cache_set.
rewrite OMapFacts.get_set_ne by congruence.
unfold kept. destruct (maxSize c <=? OMap.size (cache c)) eqn:E; [|exact He].
destruct Hsafe as [Hsafe|Hsafe]; [|lia].
destruct (OMap.first_key (cache c)) as [k0|]; [|exact He].
destruct (String.eqb k0 EmptyString); [exact He|].
rewrite OMapFacts.get_delete_ne by congruence. exact He.
Qed.

(** The entry of another key, if still there after a [set], is the one
    that was there before. *)
Lemma get_after_other_set_inv c now q d p ttl0 k (e : CacheEntry T) :
  k <> generateKey q p ->
  OMap.wf (cache c) ->
  OMap.get k (cache (set c now q d p ttl0)) = Some e ->
  OMap.get k (cache c) = Some e.
Proof.
intros Hne Hwf. rewrite cache_set.
rewrite OMapFacts.get_set_ne by congruence.
unfold kept. destruct (maxSize c <=? OMap.size (cache c)); [|trivial].
destruct (OMap.first_key (cache c)) as [k0|]; [|trivial].
destruct (String.eqb k0 EmptyString); [trivial|].
destruct (String.eqb_spec k0 k) as [->|Hk].
- now rewrite OMapFacts.get_delete_eq.
- now rewrite OMapFacts.get_delete_ne.
Qed.

Lemma two_sets_retrievable c q p1 p2 (d1 d2 : T) t1 t2 now :
  reachable c -> 2 <= maxSize c ->
  generateKey q p1 <> generateKey q p2 ->
  now - t1 <= defaultTTL c -> now - t2 <= defaultTTL c ->
  let c2 := set (set c t1 q d1 p1 None) t2 q d2 p2 None in
  fst (get c2 now q p1) = Some (d1, true)
  /\ fst (get c2 now q p2) = Some (d2, true).
Proof.
intros Hr Hmax Hne H1 H2 c2. split.
- assert (He : OMap.get (generateKey q p1) (cache c2)
               = Some (Entry d1 t1 (defaultTTL c) 0)).
  { apply get_after_other_set.
    - now apply reach_set.
    - assumption.
    - rewrite cache_set. apply OMapFacts.get_set_eq.
    - destruct (Z_lt_le_dec (OMap.size (cache (set c t1 q d1 p1 None)))
                            (maxSize (set c t1 q d1 p1 None))) as [Hlt|Hge];
        [now right | left].
      now apply set_not_oldest. }
  unfold get. rewrite He. cbn [ttl timestamp data].
  destruct (defaultTTL c <? now - t1) eqn:E; [lia | reflexivity].
- apply CacheTheorems.get_after_set. exact H2.
Qed.

Lemma first_set_never_overwritten c q p1 p2 (d1 d2 : T) t1 t2 now d b :
  reachable c ->
  generateKey q p1 <> generateKey q p2 ->
  fst (get (set (set c t1 q d1 p1 None) t2 q d2 p2 None) now q p1) = Some (d, b) ->
  d = d1.
Proof.
intros Hr Hne Hget.
apply CacheTheorems.get_hit_fresh in Hget as (e & He & <- & _).
apply get_after_other_set_inv in He; [|assumption|].
- rewrite cache_set, OMapFacts.get_set_eq in He. now injection He as <-.
- apply (reachable_inv (set c t1 q d1 p1 None)). now apply reach_set.
Qed.

End Retrieval.

Section AnyParams.
Context {any : Type}.
Variable truthy : any -> bool.
Variable stringify : any -> AnyCache.stringified.

Lemma normalized_spec q :
  AnyCache.normalized q = chopSpace (dropSpace (spec_normalize q)).
Proof.
unfold AnyCache.normalized. fold whitespace.
now rewrite replace_whitespace, normalized_of_spec.
Qed.

Lemma any_same_text q1 q2 (p : option any) :
  spec_normalize q1 = spec_normalize q2 ->
  AnyCache.generateKey truthy stringify q1 p
  = AnyCache.generateKey truthy stringify q2 p.
Proof.
intros H. unfold AnyCache.generateKey. rewrite !normalized_spec. now rewrite H.
Qed.

Lemma any_key_serialisation q (p1 p2 : option any) k1 k2 :
  AnyCache.generateKey truthy stringify q p1 = AnyCache.Returns k1 ->
  AnyCache.generateKey truthy stringify q p2 = AnyCache.Returns k2 ->
  k1 = k2
  <-> AnyCache.paramsKey truthy stringify p1 = AnyCache.paramsKey truthy stringify p2.
Proof.
unfold AnyCache.generateKey.
destruct (AnyCache.paramsKey truthy stringify p1) as [t1|]; [|discriminate].
destruct (AnyCache.paramsKey truthy stringify p2) as [t2|]; [|discriminate].
intros [= <-] [= <-]. split.
- intros E. apply StrFacts.append_inv_head, (StrFacts.append_inv_head ":") in E.
  now subst.
- now intros [= ->].
Qed.

Lemma any_falsy q v :
  truthy v = false ->
  AnyCache.generateKey truthy stringify q (Some v)
  = AnyCache.generateKey truthy stringify q None.
Proof. intros H. unfold AnyCache.generateKey, AnyCache.paramsKey. now rewrite H. Qed.

End AnyParams.

Lemma generateKey_json q (p : option Json.value) :
  AnyCache.generateKey Json.truthy AnyCache.jsonStringify q p
  = AnyCache.Returns (QueryCache.generateKey q p).
Proof.
unfold AnyCache.generateKey, AnyCache.paramsKey, AnyCache.jsonStringify,
  QueryCache.generateKey.
fold (AnyCache.normalized q).
destruct p as [v|]; [destruct (Json.truthy v)|]; reflexivity.
Qed.

(** The params [{page: n}]. *)
Definition pageParams (n : Z) : option Json.value :=
Some (Json.Obj [("page", Json.Num n)]).

(** C5 (amended).  Two requests whose texts are equal after lower-casing
    and whitespace collapsing and whose params are the same map to the
    same key.  Two different params values that are JSON data and both
    truthy (every object and array is) map to different keys for the
    same text, and to a key different from the one of absent params; the
    falsy params ([null], [false], [0], the empty string) all map to the
    key of absent params.  On a cache of capacity two or more,
    [set("a", d1, {page:1})] and [set("a", d2, {page:2})] are
    independently retrievable within the ttl, and on any cache
    [get("a", {page:1})] never returns [d2].  For params of any kind,
    whatever [JSON.stringify] makes of them: equal texts after
    normalization give equal keys, every falsy value maps to the key of
    absent params, and two params values map to the same key for the same
    text exactly when they serialise alike; on JSON data the key is the
    one of [QueryCache.generateKey]. *)
Theorem cache_key_invariant :
  (forall q1 q2 p,
      spec_normalize q1 = spec_normalize q2 ->
      generateKey q1 p = generateKey q2 p)
  /\ (forall q p1 p2,
         Json.truthy p1 = true -> Json.truthy p2 = true -> p1 <> p2 ->
         generateKey q (Some p1) <> generateKey q (Some p2))
  /\ (forall q p,
         Json.truthy p = true ->
         generateKey q (Some p) <> generateKey q None)
  /\ (forall q p,
         Json.truthy p = false ->
         generateKey q (Some p) = generateKey q None)
  /\ (forall (T : Type) (c : QueryCache.t T) (d1 d2 : T) t1 t2 now,
         reachable c -> 2 <= maxSize c ->
         now - t1 <= defaultTTL c -> now - t2 <= defaultTTL c ->
         let c2 := set (set c t1 "a" d1 (pageParams 1) None)
                       t2 "a" d2 (pageParams 2) None in
         fst (get c2 now "a" (pageParams 1)) = Some (d1, true)
         /\ fst (get c2 now "a" (pageParams 2)) = Some (d2, true))
  /\ (forall (T : Type) (c : QueryCache.t T) (d1 d2 : T) t1 t2 now d b,
         reachable c ->
         fst (get (set (set c t1 "a" d1 (pageParams 1) None)
                       t2 "a" d2 (pageParams 2) None)
                  now "a" (pageParams 1)) = Some (d, b) ->
         d = d1)
  /\ (forall (any : Type) (truthy : any -> bool)
             (stringify : any -> AnyCache.stringified),
         (forall q1 q2 (p : option any),
             spec_normalize q1 = spec_normalize q2 ->
             AnyCache.generateKey truthy stringify q1 p
             = AnyCache.generateKey truthy stringify q2 p)
         /\ (forall q (p1 p2 : option any) k1 k2,
                AnyCache.generateKey truthy stringify q p1 = AnyCache.Returns k1 ->
                AnyCache.generateKey truthy stringify q p2 = AnyCache.Returns k2 ->
                k1 = k2
                <-> AnyCache.paramsKey truthy stringify p1
                    = AnyCache.paramsKey truthy stringify p2)
         /\ (forall q v,
                truthy v = false ->
                AnyCache.generateKey truthy stringify q (Some v)
                = AnyCache.generateKey truthy stringify q None))
  /\ (forall q (p : option Json.value),
         AnyCache.generateKey Json.truthy AnyCache.jsonStringify q p
         = AnyCache.Returns (generateKey q p)).
Proof.
assert (Hpages : generateKey "a" (pageParams 1)
                 <> generateKey "a" (pageParams 2)).
{ apply truthy_params_differ; [reflexivity | reflexivity | discriminate]. }
split; [exact same_text_same_key|].
split; [exact truthy_params_differ|].
split; [exact truthy_params_present|].
split; [exact falsy_params_absent|].
split; [|split; [|split]].
- intros T c d1 d2 t1 t2 now Hr Hmax H1 H2. now apply two_sets_retrievable.
- intros T c d1 d2 t1 t2 now d b Hr. now apply first_set_never_overwritten.
- intros any truthy stringify. split; [|split].
  + apply any_same_text.
  + apply any_key_serialisation.
  + apply any_falsy.
- exact generateKey_json.
Qed.

Lemma cache_key_invariant_witness :
  generateKey "SELECT   *  From T" None = generateKey "select * from t" None
  /\ fst (get (set (set (new None None) 0 "a" 10 (pageParams 1) None)
                   5 "a" 20 (pageParams 2) None)
              7 "a" (pageParams 1))
     = Some (10, true).
Proof.
split.
- apply (proj1 cache_key_invariant). vm_compute. reflexivity.
- apply (proj1 (proj2 (proj2 (proj2 (proj2 cache_key_invariant))))
           Z (new None None) 10 20 0 5 7).
  + apply reach_new.
  + vm_compute. discriminate.
  + vm_compute. discriminate.
  + vm_compute. discriminate.
Defined.

End KeyTheorems.

(** ** Expressions of one character

    A global expression that is a single character or character class
    matches at every character of the class, one character at a time. *)
Module AtomFacts.
Import RegExp.

Section Single.
Variables (src : string) (icase : bool) (a : atom).

Definition single : RegExp.t := mk src (Atom a) icase true.

Definition hit (c : ascii) : bool := atom_matches icase a c.

(** The number of characters of the class, and the text without them. *)
Fixpoint occurrences (s : string) : nat :=
match s with
| EmptyString => 0
| String c s' => if hit c then S (occurrences s') else occurrences s'
end.

Fixpoint strip (s : string) : string :=
match s with
| EmptyString => EmptyString
| String c s' => if hit c then strip s' else String c (strip s')
end.

Lemma match_at_single_nil prev off :
  match_at icase (Atom a) (Cursor prev EmptyString) off = None.
Proof. reflexivity. Qed.

Lemma match_at_single prev c s off :
  match_at icase (Atom a) (Cursor prev (String c s)) off
  = if hit c
    then Some (Result off (String c EmptyString) [] (Cursor (Some c) s))
    else None.
Proof.
unfold match_at, hit. cbn [run rest]. destruct (atom_matches icase a c);
  [|reflexivity].
cbn [String.length rest].
replace (S (String.length s) - String.length s)%nat with 1%nat by lia.
reflexivity.
Qed.

Lemma search_single_miss prev c s off :
  hit c = false ->
  search icase (Atom a) prev (String c s) off
  = search icase (Atom a) (Some c) s (S off).
Proof. intros H. cbn [search]. now rewrite match_at_single, H. Qed.

Lemma search_single_hit prev c s off :
  hit c = true ->
  search icase (Atom a) prev (String c s) off
  = Some (Result off (String c EmptyString) [] (Cursor (Some c) s)).
Proof. intros H. cbn [search]. now rewrite match_at_single, H. Qed.

Lemma search_single_index s : forall prev off m,
  search icase (Atom a) prev s off = Some m -> (off <= index m)%nat.
Proof.
induction s as [|c s IH]; intros prev off m.
- cbn [search]. now rewrite match_at_single_nil.
- destruct (hit c) eqn:Hc.
  + rewrite search_single_hit by assumption. intros [= <-]. cbn [index]. lia.
  + rewrite search_single_miss by assumption. intros H. apply IH in H. lia.
Qed.

Lemma matches_single_nil fuel prev off :
  matches_from fuel single (Cursor prev EmptyString) off = [].
Proof. destruct fuel; reflexivity. Qed.

Lemma matches_single_miss fuel prev c s off :
  hit c = false ->
  matches_from (S fuel) single (Cursor prev (String c s)) off
  = matches_from (S fuel) single (Cursor (Some c) s) (S off).
Proof.
intros H.
cbn [matches_from ignoreCase re single RegExp.prev rest].
now rewrite search_single_miss.
Qed.

Lemma matches_single_hit fuel prev c s off :
  hit c = true ->
  matches_from (S fuel) single (Cursor prev (String c s)) off
  = Result off (String c EmptyString) [] (Cursor (Some c) s)
    :: matches_from fuel single (Cursor (Some c) s) (off + 1).
Proof.
intros H.
cbn [matches_from ignoreCase re single RegExp.prev rest].
rewrite search_single_hit by assumption.
reflexivity.
Qed.

Lemma matches_single_head fuel prev s off m ms :
  matches_from fuel single (Cursor prev s) off = m :: ms ->
  (off <= index m)%nat.
Proof.
destruct fuel as [|fuel]; [discriminate|].
cbn [matches_from ignoreCase re single RegExp.prev rest].
destruct (search icase (Atom a) prev s off) as [m'|] eqn:E; [|discriminate].
intros [= <- _]. now apply search_single_index in E.
Qed.

(** Every character of the class is one match. *)
Lemma matches_single_length s : forall fuel prev off,
  (String.length s < fuel)%nat ->
  length (matches_from fuel single (Cursor prev s) off) = occurrences s.
Proof.
induction s as [|c s IH]; intros fuel prev off Hfuel.
- now rewrite matches_single_nil.
- destruct fuel as [|fuel]; [lia|]. cbn [String.length] in Hfuel.
  cbn [occurrences]. destruct (hit c) eqn:Hc.
  + rewrite matches_single_hit by assumption. cbn [length].
    rewrite IH by lia. reflexivity.
  + rewrite matches_single_miss by assumption. apply IH.
    cbn [String.length]. lia.
Qed.

Lemma count_single s : count single s = Z.of_nat (occurrences s).
Proof.
unfold count, matchAll, start. rewrite matches_single_length; [reflexivity | lia].
Qed.

Lemma drop_next off s0 c s :
  Str.drop off s0 = String c s -> Str.drop (S off) s0 = s.
Proof.
revert s0. induction off as [|off IH]; intros s0 H.
- destruct s0; [discriminate|]. cbn [Str.drop] in *. now injection H.
- destruct s0 as [|c0 s0]; [discriminate|]. cbn [Str.drop] in *. now apply IH.
Qed.

(** A character before the next match is copied. *)
Lemma splice_copy s0 repl off c s ms :
  Str.drop off s0 = String c s ->
  (forall m ms', ms = m :: ms' -> (S off <= index m)%nat) ->
  splice single s0 repl off ms = String c (splice single s0 repl (S off) ms).
Proof.
intros Hd Hidx. destruct ms as [|m ms]; cbn [splice].
- rewrite Hd. f_equal. symmetry. now apply (drop_next off s0 c).
- specialize (Hidx m ms eq_refl).
  rewrite Hd, (drop_next off s0 c s Hd).
  replace (index m - off)%nat with (S (index m - S off)) by lia.
  cbn [Str.take]. now rewrite StrFacts.append_cons.
Qed.

(** Replacing every match by nothing leaves the other characters. *)
Lemma splice_single s0 : forall s prev off fuel,
  (String.length s < fuel)%nat ->
  Str.drop off s0 = s ->
  splice single s0 EmptyString off
    (matches_from fuel single (Cursor prev s) off)
  = strip s.
Proof.
induction s as [|c s IH]; intros prev off fuel Hfuel Hd.
- rewrite matches_single_nil. cbn [splice]. now rewrite Hd.
- destruct fuel as [|fuel]; [lia|]. cbn [String.length] in Hfuel.
  cbn [strip]. destruct (hit c) eqn:Hc.
  + rewrite matches_single_hit by assumption.
    cbn [splice index matched String.length substitute].
    rewrite Nat.sub_diag, Hd. cbn [Str.take].
    rewrite !StrFacts.append_nil_l.
    apply IH; [lia|]. replace (off + 1)%nat with (S off) by lia.
    now apply (drop_next off s0 c).
  + rewrite matches_single_miss by assumption.
    rewrite (splice_copy s0 EmptyString off c s) by
      (try assumption; intros m ms' E; now apply matches_single_head in E).
    f_equal. apply IH; [cbn [String.length]; lia|].
    now apply (drop_next off s0 c).
Qed.

Lemma replace_single s : replace single s EmptyString = strip s.
Proof.
unfold replace, matchAll, start. cbn [global single].
apply splice_single; [lia | reflexivity].
Qed.

Lemma strip_clean s c : hit c = true -> Str.includes (strip s) (String c EmptyString) = false.
Proof.
intros Hc. induction s as [|c' s IH]; [reflexivity|].
cbn [strip]. destruct (hit c') eqn:Hc'; [exact IH|].
cbn [Str.includes Str.startsWith].
destruct (Ascii.eqb_spec c c') as [->|_]; [congruence|]. exact IH.
Qed.

End Single.

End AtomFacts.

(** ** The security validator *)
Module SecurityFacts.
Import Security.

Lemma no_errors_app {A} (a b : list A) :
  Nat.eqb (length (a ++ b)) 0 = Nat.eqb (length a) 0 && Nat.eqb (length b) 0.
Proof. now destruct a. Qed.

Lemma no_errors_In {A} (x : A) (l : list A) :
  In x l -> Nat.eqb (length l) 0 = false.
Proof. now destruct l. Qed.

(** A result built the way every check builds it. *)
Lemma checked errs warns :
  safe (Check (Nat.eqb (length errs) 0) errs warns)
  = Nat.eqb (length (errors (Check (Nat.eqb (length errs) 0) errs warns))) 0.
Proof. reflexivity. Qed.

(** Each check is safe exactly when it reports no error. *)
Lemma safe_detectSQLInjection q :
  safe (detectSQLInjection q)
  = Nat.eqb (length (errors (detectSQLInjection q))) 0.
Proof. unfold detectSQLInjection. cbv zeta. apply checked. Qed.

Lemma safe_enforceReadOnly q :
  safe (enforceReadOnly q) = Nat.eqb (length (errors (enforceReadOnly q))) 0.
Proof. unfold enforceReadOnly. cbv zeta. apply checked. Qed.

Lemma safe_validateQueryStructure q :
  safe (validateQueryStructure q)
  = Nat.eqb (length (errors (validateQueryStructure q))) 0.
Proof.
unfold validateQueryStructure. cbv zeta. destruct (parenWalk q 0).
apply checked.
Qed.

(** [validateQuerySecurity] on the results of the three checks. *)
Definition combined (results : list SecurityCheckResult) : SecurityCheckResult :=
Security.Check (Nat.eqb (length (flat_map errors results)) 0)
               (flat_map errors results) (flat_map warnings results).

Lemma validateQuerySecurity_combined q :
  validateQuerySecurity q
  = combined [detectSQLInjection q; enforceReadOnly q; validateQueryStructure q].
Proof. reflexivity. Qed.

Lemma errors_combined d e s :
  errors (combined [d; e; s]) = errors d ++ errors e ++ errors s.
Proof. unfold combined. cbn [errors flat_map]. now rewrite app_nil_r. Qed.

Lemma warnings_combined d e s :
  warnings (combined [d; e; s]) = warnings d ++ warnings e ++ warnings s.
Proof. unfold combined. cbn [warnings flat_map]. now rewrite app_nil_r. Qed.

Lemma safe_combined d e s :
  safe (combined [d; e; s])
  = Nat.eqb (length (errors d)) 0 && Nat.eqb (length (errors e)) 0
    && Nat.eqb (length (errors s)) 0.
Proof.
unfold combined. cbn [safe flat_map]. now rewrite app_nil_r, !no_errors_app, andb_assoc.
Qed.

Lemma errors_validateQuerySecurity q :
  errors (validateQuerySecurity q)
  = errors (detectSQLInjection q) ++ errors (enforceReadOnly q)
    ++ errors (validateQueryStructure q).
Proof. rewrite validateQuerySecurity_combined. apply errors_combined. Qed.

Lemma warnings_validateQuerySecurity q :
  warnings (validateQuerySecurity q)
  = warnings (detectSQLInjection q) ++ warnings (enforceReadOnly q)
    ++ warnings (validateQueryStructure q).
Proof. rewrite validateQuerySecurity_combined. apply warnings_combined. Qed.

Lemma safe_validateQuerySecurity q :
  safe (validateQuerySecurity q)
  = safe (detectSQLInjection q) && safe (enforceReadOnly q)
    && safe (validateQueryStructure q).
Proof.
rewrite validateQuerySecurity_combined, safe_combined.
now rewrite <- safe_detectSQLInjection, <- safe_enforceReadOnly,
  <- safe_validateQueryStructure.
Qed.

Definition notSelect : string := "Query must be a SELECT statement or CTE".

(** The first word the read-only check looks at. *)
Definition opening (q : string) (word : string) : bool :=
Str.startsWith (Str.toUpperCase (Str.trim q)) word.

Lemma enforceReadOnly_opening q :
  opening q "SELECT" = false -> opening q "WITH" = false ->
  In notSelect (errors (enforceReadOnly q)).
Proof.
unfold opening, enforceReadOnly. intros -> ->. cbv zeta.
cbn [negb andb errors]. apply in_or_app. right. now left.
Qed.

Lemma enforceReadOnly_safe_opening q :
  safe (enforceReadOnly q) = true ->
  opening q "SELECT" = true \/ opening q "WITH" = true.
Proof.
intros Hsafe.
destruct (opening q "SELECT") eqn:H1; [now left|].
destruct (opening q "WITH") eqn:H2; [now right|].
pose proof (enforceReadOnly_opening q H1 H2) as Hin.
apply no_errors_In in Hin. rewrite <- safe_enforceReadOnly in Hin. congruence.
Qed.

Lemma not_select_unsafe q :
  opening q "SELECT" = false -> opening q "WITH" = false ->
  safe (validateQuerySecurity q) = false
  /\ In notSelect (errors (validateQuerySecurity q)).
Proof.
intros H1 H2. pose proof (enforceReadOnly_opening q H1 H2) as Hin.
split.
- rewrite safe_validateQuerySecurity, (safe_enforceReadOnly q),
    (no_errors_In _ _ Hin).
  now rewrite andb_false_r.
- rewrite errors_validateQuerySecurity. apply in_or_app. right.
  apply in_or_app. now left.
Qed.

Lemma opening_includes q word :
  Str.includes (Str.toUpperCase (Str.trim q)) word = false ->
  opening q word = false.
Proof.
intros H. unfold opening.
destruct (Str.startsWith _ _) eqn:E; [|reflexivity].
apply StrFacts.includes_prefix in E. congruence.
Qed.

End SecurityFacts.

Module SecurityTheorems.
Import Security SecurityFacts.

(** The number of occurrences of a character. *)
Fixpoint count_char (c : ascii) (s : string) : Z :=
match s with
| EmptyString => 0
| String x s' => (if Ascii.eqb x c then 1 else 0) + count_char c s'
end.

(** Parentheses are balanced: as many are closed as are opened, and no
    prefix closes more than it opens. *)
Definition balanced (s : string) : Prop :=
count_char "(" s = count_char ")" s
/\ forall n, count_char ")" (Str.take n s) <= count_char "(" (Str.take n s).

Lemma occurrences_count_char c s :
  Z.of_nat (AtomFacts.occurrences false (RegExp.Lit c) s) = count_char c s.
Proof.
induction s as [|x s IH]; [reflexivity|].
cbn [AtomFacts.occurrences count_char]. unfold AtomFacts.hit.
cbn [RegExp.atom_matches]. rewrite (Ascii.eqb_sym c x).
destruct (Ascii.eqb x c); lia.
Qed.

Lemma singleQuotes_re :
  regexp "'" f_g = AtomFacts.single "'" false (RegExp.Lit "'").
Proof. vm_compute. reflexivity. Qed.

Lemma doubleQuotes_re :
  regexp dq f_g = AtomFacts.single dq false (RegExp.Lit "034").
Proof. vm_compute. reflexivity. Qed.

Lemma count_singleQuotes q : RegExp.count (regexp "'" f_g) q = count_char "'" q.
Proof.
now rewrite singleQuotes_re, AtomFacts.count_single, occurrences_count_char.
Qed.

Lemma count_doubleQuotes q : RegExp.count (regexp dq f_g) q = count_char "034" q.
Proof.
now rewrite doubleQuotes_re, AtomFacts.count_single, occurrences_count_char.
Qed.

Lemma count_char_nonneg c s : 0 <= count_char c s.
Proof.
induction s as [|x s IH]; cbn [count_char]; [lia|]. destruct (Ascii.eqb x c); lia.
Qed.

(** The walk over the text from the balance [b]: it breaks off exactly
    when a prefix closes more than [b] and its own opens allow. *)
Lemma parenWalk_spec s : forall b,
  0 <= b ->
  (snd (parenWalk s b) = false ->
   fst (parenWalk s b) = b + count_char "(" s - count_char ")" s
   /\ forall n,
       0 <= b + count_char "(" (Str.take n s) - count_char ")" (Str.take n s))
  /\ (snd (parenWalk s b) = true ->
      fst (parenWalk s b) < 0
      /\ exists n,
          b + count_char "(" (Str.take n s) - count_char ")" (Str.take n s) < 0).
Proof.
induction s as [|c s IH]; intros b Hb.
- cbn [parenWalk fst snd count_char]. split; [|discriminate].
  intros _. split; [lia|]. intros n. destruct n; cbn [Str.take count_char]; lia.
- cbn [parenWalk count_char].
  set (b1 := if Ascii.eqb c "(" then b + 1 else b).
  set (b2 := if Ascii.eqb c ")" then b1 - 1 else b1).
  assert (Hb2 : b2 = b + (if Ascii.eqb c "(" then 1 else 0)
                      - (if Ascii.eqb c ")" then 1 else 0)).
  { unfold b2, b1. destruct (Ascii.eqb c "("), (Ascii.eqb c ")"); lia. }
  destruct (b2 <? 0) eqn:Hneg.
  + cbn [fst snd]. split; [discriminate|]. intros _. split; [lia|].
    exists 1%nat. cbn [Str.take count_char]. lia.
  + destruct (IH b2 ltac:(lia)) as [Hok Hbroke]. split.
    * intros Hsnd. destruct (Hok Hsnd) as [Hfst Hpre]. split; [lia|].
      intros [|n]; cbn [Str.take count_char]; [lia|].
      specialize (Hpre n). lia.
    * intros Hsnd. destruct (Hbroke Hsnd) as [Hfst [n Hn]]. split; [exact Hfst|].
      exists (S n). cbn [Str.take count_char]. lia.
Qed.

Lemma take_all s : Str.take (String.length s) s = s.
Proof. induction s as [|c s IH]; [reflexivity|]. cbn [String.length Str.take]. now rewrite IH. Qed.

Lemma parenWalk_balanced q :
  (snd (parenWalk q 0) = false /\ fst (parenWalk q 0) <= 0) <-> balanced q.
Proof.
destruct (parenWalk_spec q 0 ltac:(lia)) as [Hok Hbroke]. unfold balanced. split.
- intros [Hsnd Hfst]. destruct (Hok Hsnd) as [Heq Hpre]. split.
  + specialize (Hpre (String.length q)). rewrite take_all in Hpre. lia.
  + intros n. specialize (Hpre n). lia.
- intros [Heq Hpre].
  destruct (snd (parenWalk q 0)) eqn:Hsnd.
  + destruct (Hbroke eq_refl) as [_ [n Hn]]. specialize (Hpre n). lia.
  + destruct (Hok eq_refl) as [Hfst _]. split; [reflexivity | lia].
Qed.

Lemma structure_safe_shape q :
  safe (validateQueryStructure q) = true ->
  count_char "'" q mod 2 = 0 /\ count_char "034" q mod 2 = 0 /\ balanced q.
Proof.
rewrite safe_validateQueryStructure. unfold validateQueryStructure. cbv zeta.
rewrite count_singleQuotes, count_doubleQuotes.
pose proof (parenWalk_balanced q) as Hwalk.
destruct (parenWalk q 0) as [parenBalance broke]. cbn [errors fst snd] in *.
intros Hnone.
destruct (count_char "'" q mod 2 =? 0) eqn:H1; [|discriminate Hnone].
destruct (count_char "034" q mod 2 =? 0) eqn:H2; [|discriminate Hnone].
destruct broke; [discriminate Hnone|].
destruct (0 <? parenBalance) eqn:H4; [discriminate Hnone|].
split; [lia|]. split; [lia|]. apply Hwalk. split; [reflexivity | lia].
Qed.

(** X1.  [validateQueryStructure] accepts exactly the texts with an even
    number of single quotes, an even number of double quotes and
    balanced parentheses; the length and the numbers of SELECTs and JOINs
    only give warnings. *)
Theorem structure_check_characterised q :
  safe (validateQueryStructure q) = true
  <-> count_char "'" q mod 2 = 0
      /\ count_char "034" q mod 2 = 0
      /\ balanced q.
Proof.
rewrite <- parenWalk_balanced.
unfold validateQueryStructure. cbv zeta.
rewrite count_singleQuotes, count_doubleQuotes.
destruct (parenWalk q 0) as [parenBalance broke]. cbn [safe fst snd].
destruct (count_char "'" q mod 2 =? 0) eqn:H1;
  destruct (count_char "034" q mod 2 =? 0) eqn:H2;
  destruct broke; destruct (0 <? parenBalance) eqn:H4;
  cbn [negb app length Nat.eqb];
  split; try discriminate; try (intros _; repeat split; lia);
  intros (Ha & Hb & Hc & Hd); try discriminate; try reflexivity; lia.
Qed.

(** X2.  [validateQuerySecurity] accepts a text exactly when each of the
    three checks accepts it; its errors and its warnings are theirs, in
    the order injection detection, read-only enforcement, structure.
    Warnings never make a text unsafe. *)
Theorem validation_is_conjunction q :
  safe (validateQuerySecurity q)
  = safe (detectSQLInjection q) && safe (enforceReadOnly q)
    && safe (validateQueryStructure q)
  /\ Security.errors (validateQuerySecurity q)
     = Security.errors (detectSQLInjection q)
       ++ Security.errors (enforceReadOnly q)
       ++ Security.errors (validateQueryStructure q)
  /\ warnings (validateQuerySecurity q)
     = warnings (detectSQLInjection q) ++ warnings (enforceReadOnly q)
       ++ warnings (validateQueryStructure q).
Proof.
split; [apply safe_validateQuerySecurity|].
split; [apply errors_validateQuerySecurity | apply warnings_validateQuerySecurity].
Qed.

(** X3.  A text that [validateQuerySecurity] accepts starts, once
    trimmed and in upper case, with SELECT or with WITH, has an even
    number of single and of double quotes and balanced parentheses, and
    matches none of the dangerous patterns. *)
Theorem accepted_query_shape q :
  safe (validateQuerySecurity q) = true ->
  (opening q "SELECT" = true \/ opening q "WITH" = true)
  /\ count_char "'" q mod 2 = 0
  /\ count_char "034" q mod 2 = 0
  /\ balanced q
  /\ forall pattern, In pattern dangerousPatterns -> RegExp.test pattern q = false.
Proof.
rewrite safe_validateQuerySecurity. intros H.
apply andb_prop in H as [H Hstructure]. apply andb_prop in H as [Hdetect Hread].
split; [now apply enforceReadOnly_safe_opening|].
apply structure_safe_shape in Hstructure as (Hq1 & Hq2 & Hparens).
repeat (split; [assumption|]).
intros pattern Hin. destruct (RegExp.test pattern q) eqn:Htest; [|reflexivity].
rewrite (DetectorTheorems.detect_unsafe pattern q Hin Htest) in Hdetect.
discriminate Hdetect.
Qed.

Lemma accepted_query_shape_witness :
  opening "select name from employees where id = (1)" "SELECT" = true
  \/ opening "select name from employees where id = (1)" "WITH" = true.
Proof.
apply (accepted_query_shape "select name from employees where id = (1)").
vm_compute. reflexivity.
Defined.

End SecurityTheorems.

(** ** Input sanitising *)
Module SanitizeTheorems.
Import Security.

(** The characters [sanitizeInput] removes from a string. *)
Definition dangerous (c : ascii) : bool :=
Ascii.eqb c ";" || Ascii.eqb c "-" || Ascii.eqb c "/" || Ascii.eqb c "*".

Fixpoint without (s : string) : string :=
match s with
| EmptyString => EmptyString
| String c s' => if dangerous c then without s' else String c (without s')
end.

(** No character of the string is one of them. *)
Fixpoint harmless (s : string) : bool :=
match s with
| EmptyString => true
| String c s' => negb (dangerous c) && harmless s'
end.

Definition dangerousClass : RegExp.atom :=
RegExp.OneOf false
  [RegExp.ILit ";"; RegExp.ILit "-"; RegExp.ILit "-"; RegExp.ILit "/";
   RegExp.ILit "*"; RegExp.ILit "*"; RegExp.ILit "/"].

Lemma dangerous_re :
  regexp "[;\-\-\/\*\*\/]" f_g
  = AtomFacts.single "[;\-\-\/\*\*\/]" false dangerousClass.
Proof. vm_compute. reflexivity. Qed.

Lemma hit_dangerous c : AtomFacts.hit false dangerousClass c = dangerous c.
Proof.
unfold AtomFacts.hit, dangerousClass, dangerous.
cbn [RegExp.atom_matches RegExp.item_has existsb xorb].
rewrite (Ascii.eqb_sym ";" c), (Ascii.eqb_sym "-" c), (Ascii.eqb_sym "/" c),
  (Ascii.eqb_sym "*" c).
destruct (Ascii.eqb c ";"), (Ascii.eqb c "-"), (Ascii.eqb c "/"),
  (Ascii.eqb c "*"); reflexivity.
Qed.

Lemma strip_without s : AtomFacts.strip false dangerousClass s = without s.
Proof.
induction s as [|c s IH]; [reflexivity|].
cbn [AtomFacts.strip without]. rewrite hit_dangerous, IH. reflexivity.
Qed.

Lemma replace_dangerous s :
  RegExp.replace (regexp "[;\-\-\/\*\*\/]" f_g) s EmptyString = without s.
Proof. now rewrite dangerous_re, AtomFacts.replace_single, strip_without. Qed.

Lemma sanitizeInput_Text s :
  sanitizeInput (Json.Text s) = Json.Text (Str.trim (without s)).
Proof. cbn [sanitizeInput]. now rewrite replace_dangerous. Qed.

Lemma harmless_without s : harmless (without s) = true.
Proof.
induction s as [|c s IH]; [reflexivity|].
cbn [without]. destruct (dangerous c) eqn:Hc; [exact IH|].
cbn [harmless]. now rewrite Hc, IH.
Qed.

Lemma without_harmless s : harmless s = true -> without s = s.
Proof.
induction s as [|c s IH]; [reflexivity|].
cbn [harmless without]. intros H. apply andb_prop in H as [Hc Hs].
apply negb_true_iff in Hc. rewrite Hc, IH by assumption. reflexivity.
Qed.

Lemma harmless_trimStart s : harmless s = true -> harmless (Str.trimStart s) = true.
Proof.
induction s as [|c s IH]; [reflexivity|].
cbn [Str.trimStart]. intros H. destruct (Str.is_space c); [|exact H].
cbn [harmless] in H. apply andb_prop in H as [_ Hs]. now apply IH.
Qed.

Lemma harmless_trimEnd s : harmless s = true -> harmless (Str.trimEnd s) = true.
Proof.
induction s as [|c s IH]; [reflexivity|].
cbn [harmless Str.trimEnd]. intros H. apply andb_prop in H as [Hc Hs].
specialize (IH Hs). destruct (Str.trimEnd s) as [|c' t].
- destruct (Str.is_space c); [reflexivity|]. cbn [harmless]. now rewrite Hc.
- cbn [harmless] in *. now rewrite Hc, IH.
Qed.

Lemma harmless_trim s : harmless s = true -> harmless (Str.trim s) = true.
Proof. intros H. now apply harmless_trimEnd, harmless_trimStart. Qed.

Lemma harmless_includes s c :
  harmless s = true -> dangerous c = true ->
  Str.includes s (String c EmptyString) = false.
Proof.
intros Hs Hc. induction s as [|x s IH]; [reflexivity|].
cbn [harmless] in Hs. apply andb_prop in Hs as [Hx Hs].
apply negb_true_iff in Hx.
cbn [Str.includes Str.startsWith].
destruct (Ascii.eqb_spec c x) as [->|_]; [congruence|]. now apply IH.
Qed.

Lemma trimEnd_idem s : Str.trimEnd (Str.trimEnd s) = Str.trimEnd s.
Proof.
induction s as [|c s IH]; [reflexivity|].
cbn [Str.trimEnd]. destruct (Str.trimEnd s) as [|c' t] eqn:E.
- destruct (Str.is_space c) eqn:Hc; [reflexivity|].
  cbn [Str.trimEnd]. now rewrite Hc.
- change (Str.trimEnd (String c (String c' t)))
    with (match Str.trimEnd (String c' t) with
          | EmptyString =>
              if Str.is_space c then EmptyString else String c EmptyString
          | String x u => String c (String x u)
          end).
  now rewrite IH.
Qed.

Lemma trimStart_head s c t :
  Str.trimStart s = String c t -> Str.is_space c = false.
Proof.
induction s as [|x s IH]; [discriminate|].
cbn [Str.trimStart]. destruct (Str.is_space x) eqn:Hx; [exact IH|].
now intros [= <- _].
Qed.

Lemma trimStart_trimmed s : Str.trimStart (Str.trim s) = Str.trim s.
Proof.
unfold Str.trim. destruct (Str.trimStart s) as [|c t] eqn:E; [reflexivity|].
pose proof (trimStart_head s c t E) as Hc.
destruct (Str.trimEnd (String c t)) as [|c' t'] eqn:E'; [reflexivity|].
apply KeyFacts.trimEnd_head in E' as ->.
cbn [Str.trimStart]. now rewrite Hc.
Qed.

Lemma trim_idem s : Str.trim (Str.trim s) = Str.trim s.
Proof.
unfold Str.trim at 1. rewrite trimStart_trimmed. unfold Str.trim.
apply trimEnd_idem.
Qed.

(** The strings of a value, those of its elements and of its members'
    values included. *)
Fixpoint texts (v : Json.value) : list string :=
match v with
| Json.Text s => [s]
| Json.Arr items => flat_map texts items
| Json.Obj fields => flat_map (fun '(_, x) => texts x) fields
| _ => []
end.

(** X4.  In a sanitized value every string, nested ones included, is
    the original without the characters [;], [-], [/] and [*], trimmed:
    it contains none of the four and neither starts nor ends with white
    space. *)
Theorem sanitized_texts_clean v :
  (forall s, sanitizeInput (Json.Text s) = Json.Text (Str.trim (without s)))
  /\ Forall (fun s => harmless s = true /\ Str.trim s = s
                      /\ forall c, dangerous c = true ->
                                   Str.includes s (String c EmptyString) = false)
            (texts (sanitizeInput v)).
Proof.
split; [exact sanitizeInput_Text|].
induction v as [| | |s|items IH|fields IH] using JsonFacts.value_induction;
  try apply Forall_nil_2.
- rewrite sanitizeInput_Text. cbn [texts].
  assert (H : harmless (Str.trim (without s)) = true)
    by apply harmless_trim, harmless_without.
  apply Forall_cons. split; [|apply Forall_nil_2].
  split; [exact H|]. split; [apply trim_idem|].
  intros c Hc. now apply harmless_includes.
- cbn [sanitizeInput texts]. induction IH as [|x l Hx Hl IHl]; [apply Forall_nil_2|].
  cbn [List.map flat_map]. apply Forall_app. split; assumption.
- cbn [sanitizeInput texts]. induction IH as [|[k x] l Hx Hl IHl]; [apply Forall_nil_2|].
  cbn [List.map List.filter]. destruct (negb (String.eqb k "__proto__")); [|exact IHl].
  cbn [flat_map]. apply Forall_app. split; assumption.
Qed.

(** The keys an object keeps: all but [__proto__]. *)
Definition ownKey (key : string) : bool := negb (String.eqb key "__proto__").

(** X5.  Sanitizing is idempotent, and it keeps the shape of the value:
    numbers, booleans and [null] are returned as they are, an array keeps
    its length, an object keeps its keys, in order and unsanitized,
    except the key [__proto__], which is dropped. *)
Theorem sanitizeInput_idempotent v :
  sanitizeInput (sanitizeInput v) = sanitizeInput v
  /\ match v, sanitizeInput v with
     | Json.Arr items, Json.Arr items' => length items' = length items
     | Json.Obj fields, Json.Obj fields' =>
         List.map fst fields' = List.filter ownKey (List.map fst fields)
     | Json.Text _, Json.Text _ => True
     | Json.Null, Json.Null => True
     | Json.Bool b, Json.Bool b' => b' = b
     | Json.Num z, Json.Num z' => z' = z
     | _, _ => False
     end.
Proof.
split.
- induction v as [| | |s|items IH|fields IH] using JsonFacts.value_induction;
    try reflexivity.
  + rewrite sanitizeInput_Text, sanitizeInput_Text.
    rewrite without_harmless by apply harmless_trim, harmless_without.
    now rewrite trim_idem.
  + cbn [sanitizeInput]. f_equal. rewrite List.map_map.
    induction IH as [|x l Hx Hl IHl]; [reflexivity|].
    cbn [List.map]. now rewrite Hx, IHl.
  + cbn [sanitizeInput]. f_equal.
    induction IH as [|[k x] l Hx Hl IHl]; [reflexivity|].
    cbn [List.map List.filter snd] in *.
    destruct (negb (String.eqb k "__proto__")) eqn:Hk; [|exact IHl].
    cbn [List.map List.filter]. now rewrite Hk, Hx, IHl.
- destruct v as [| | |s|items|fields]; cbn [sanitizeInput]; try easy.
  + apply List.length_map.
  + induction fields as [|[k x] l IHl]; [reflexivity|].
    cbn [List.map List.filter fst]. unfold ownKey at 1.
    destruct (negb (String.eqb k "__proto__")); [|exact IHl].
    cbn [List.map fst]. now rewrite IHl.
Qed.

End SanitizeTheorems.

(** ** The optimiser *)
Module OptimizerTheorems.
Import Optimizer.

(** The page the optimiser reports for a requested one. *)
Definition clampedPage (p : PaginationOptions) : Pagination :=
let validPage := Z.max 1 (page p) in
let validPageSize := Z.min 1000 (Z.max 10 (pageSize p)) in
{| pg_page := validPage;
   pg_pageSize := validPageSize;
   pg_offset := (validPage - 1) * validPageSize;
   pg_limit := validPageSize |}.

Lemma addIndexHints_sql s ix :
  sql (addIndexHints s ix) = s
  /\ countSql (addIndexHints s ix) = None
  /\ pagination (addIndexHints s ix) = None.
Proof.
unfold addIndexHints. destruct (RegExp.exec _ s); repeat split; reflexivity.
Qed.

Lemma optimizeSubqueries_sql s :
  sql (optimizeSubqueries s) = s
  /\ countSql (optimizeSubqueries s) = None
  /\ pagination (optimizeSubqueries s) = None.
Proof. repeat split; reflexivity. Qed.




(** The text after the passes that write SQL. *)
Definition rewritten (s : string) (options : Options) : string :=
let paginated :=
  match opt_pagination options with
  | Some p => sql (paginateQuery s p)
  | None => s
  end in
let expanded :=
  match opt_tableColumns options with
  | Some cols => sql (optimizeSelectStar paginated cols)
  | None => paginated
  end in
if opt_enableTimeout options
then addQueryTimeout expanded (opt_timeoutMs options)
else expanded.

(** X7.  [optimizeQuery] composes its passes in the order pagination,
    index hints, [SELECT *], subqueries, timeout.  Its SQL is the input
    paginated, then expanded, then prefixed with the timeout statement;
    the count query and the page are those of the pagination, taken
    before the expansion and the prefix, and absent when no pagination is
    asked for; the page reported is at least 1 and its size between 10
    and 1000. *)
Theorem optimizeQuery_composition s options :
  sql (optimizeQuery s options) = rewritten s options
  /\ countSql (optimizeQuery s options)
     = match opt_pagination options with
       | Some p => countSql (paginateQuery s p)
       | None => None
       end
  /\ pagination (optimizeQuery s options)
     = option_map clampedPage (opt_pagination options)
  /\ forall info,
      pagination (optimizeQuery s options) = Some info ->
      1 <= pg_page info /\ 10 <= pg_pageSize info <= 1000
      /\ 0 <= pg_offset info
      /\ pg_offset info = (pg_page info - 1) * pg_pageSize info
      /\ pg_limit info = pg_pageSize info.
Proof.
assert (Hpage : pagination (optimizeQuery s options)
                = option_map clampedPage (opt_pagination options)).
{ unfold optimizeQuery.
  destruct (opt_pagination options), (opt_tableIndexes options),
    (opt_tableColumns options), (opt_enableTimeout options); reflexivity. }
split; [|split; [|split; [exact Hpage|]]].
- unfold optimizeQuery, rewritten.
  destruct (opt_pagination options) as [p|];
    destruct (opt_tableIndexes options) as [ix|];
    destruct (opt_tableColumns options) as [cols|];
    destruct (opt_enableTimeout options);
    cbn [sql countSql pagination hints];
    rewrite ?(proj1 (addIndexHints_sql _ _)); reflexivity.
- unfold optimizeQuery.
  destruct (opt_pagination options), (opt_tableIndexes options),
    (opt_tableColumns options), (opt_enableTimeout options); reflexivity.
- rewrite Hpage. destruct (opt_pagination options) as [p|]; [|discriminate].
  intros info [= <-]. unfold clampedPage. cbn [pg_page pg_pageSize pg_offset pg_limit].
  repeat split; nia.
Qed.

(** What [estimateQueryCost] counts in a text. *)
Definition joins (s : string) : Z := RegExp.count (regexp "\bJOIN\b" f_gi) s.
Definition subqueries (s : string) : Z :=
RegExp.count (regexp "SELECT[\s\S]*?FROM\s*\(" f_gi) s.
Definition aggregations (s : string) : Z :=
RegExp.count (regexp "\b(COUNT|SUM|AVG|MIN|MAX|GROUP BY)\b" f_gi) s.
Definition distinct (s : string) : bool :=
RegExp.test (regexp "\bDISTINCT\b" f_i) s.
Definition ordered (s : string) : bool :=
RegExp.test (regexp "\bORDER BY\b" f_i) s.
Definition likes (s : string) : Z := RegExp.count (regexp "\bLIKE\b" f_gi) s.

(** The points of a text: 10 a JOIN, 15 a subquery, 5 an aggregation,
    10 for DISTINCT, 5 for ORDER BY, 8 a LIKE. *)
Definition points (s : string) : Z :=
10 * joins s + 15 * subqueries s + 5 * aggregations s
+ (if distinct s then 10 else 0) + (if ordered s then 5 else 0) + 8 * likes s.

Lemma count_nonneg x s : 0 <= RegExp.count x s.
Proof. unfold RegExp.count. lia. Qed.

(** X8.  The estimated cost is [low] below 20 points, [medium] from 20
    to 49 and [high] from 50; a text for which no factor is named has no
    points and the cost [low]. *)
Theorem cost_by_points s :
  fst (estimateQueryCost s)
  = (if points s <? 20 then low else if points s <? 50 then medium else high)
  /\ (snd (estimateQueryCost s) = [] ->
      points s = 0 /\ fst (estimateQueryCost s) = low).
Proof.
unfold estimateQueryCost, points. cbv zeta.
fold (joins s) (subqueries s) (aggregations s) (distinct s) (ordered s) (likes s).
pose proof (count_nonneg (regexp "\bJOIN\b" f_gi) s) as Hj.
pose proof (count_nonneg (regexp "SELECT[\s\S]*?FROM\s*\(" f_gi) s) as Hs.
pose proof (count_nonneg
              (regexp "\b(COUNT|SUM|AVG|MIN|MAX|GROUP BY)\b" f_gi) s) as Ha.
pose proof (count_nonneg (regexp "\bLIKE\b" f_gi) s) as Hl.
fold (joins s) in Hj. fold (subqueries s) in Hs.
fold (aggregations s) in Ha. fold (likes s) in Hl.
revert Hj Hs Ha Hl.
generalize (joins s) (subqueries s) (aggregations s) (distinct s) (ordered s)
  (likes s).
intros j q a d o l Hj Hs Ha Hl. cbn [fst snd].
assert (Hscore :
          (if 0 <? j then j * 10 else 0) + (if 0 <? q then q * 15 else 0)
          + (if 0 <? a then a * 5 else 0) + (if d then 10 else 0)
          + (if o then 5 else 0) + (if 0 <? l then l * 8 else 0)
          = 10 * j + 15 * q + 5 * a + (if d then 10 else 0)
            + (if o then 5 else 0) + 8 * l).
{ destruct (0 <? j) eqn:E1, (0 <? q) eqn:E2, (0 <? a) eqn:E3,
    (0 <? l) eqn:E4; lia. }
rewrite Hscore. split; [reflexivity|].
destruct (0 <? j) eqn:E1, (0 <? q) eqn:E2, (0 <? a) eqn:E3, d, o,
  (0 <? l) eqn:E4; cbn [app]; intros H; try discriminate H.
assert (Hzero : 10 * j + 15 * q + 5 * a + 0 + 0 + 8 * l = 0) by lia.
rewrite Hzero. split; reflexivity.
Qed.

End OptimizerTheorems.

(** ** More on the cache *)
Module CacheBehaviour.
Import QueryCache CacheFacts.

Section Behaviour.
Context {T : Type}.
Implicit Types (c : QueryCache.t T) (m : OMap.t (CacheEntry T)).

(** The hits of all entries. *)
Definition sum_hits m : Z :=
fold_right (fun kv acc => hits (snd kv) + acc) 0 m.

Lemma stats_fold m : forall total entries,
  fold_left (fun (acc : Z * Z) (kv : string * CacheEntry T) =>
               (fst acc + hits (snd kv), snd acc + 1))
            m (total, entries)
  = (total + sum_hits m, entries + Z.of_nat (length m)).
Proof.
induction m as [|kv m IH]; intros total entries; cbn [fold_left sum_hits fold_right length].
- f_equal; lia.
- rewrite IH. cbn [fst snd]. fold (sum_hits m). f_equal; lia.
Qed.

Lemma getStats_eq c :
  getStats c
  = {| size := OMap.size (cache c);
       stats_maxSize := maxSize c;
       totalHits := sum_hits (cache c);
       avgHitsPerEntry :=
         if 0 <? OMap.size (cache c)
         then Ratio (sum_hits (cache c)) (OMap.size (cache c))
         else Ratio 0 1;
       utilizationPercent := Ratio (OMap.size (cache c) * 100) (maxSize c) |}.
Proof. unfold getStats. rewrite stats_fold. reflexivity. Qed.

Lemma totalHits_getStats c : totalHits (getStats c) = sum_hits (cache c).
Proof. now rewrite getStats_eq. Qed.

Lemma sum_hits_set k (e e' : CacheEntry T) m :
  OMap.get k m = Some e ->
  sum_hits (OMap.set k e' m) = sum_hits m - hits e + hits e'.
Proof.
induction m as [|[k0 e0] m IH]; [discriminate|].
cbn [OMap.get OMap.set]. destruct (String.eqb k k0).
- intros [= ->]. cbn [sum_hits fold_right snd]. lia.
- intros H. cbn [sum_hits fold_right snd]. fold (sum_hits (OMap.set k e' m)).
  fold (sum_hits m). rewrite IH by assumption. lia.
Qed.

Lemma sum_hits_app m1 m2 : sum_hits (m1 ++ m2) = sum_hits m1 + sum_hits m2.
Proof.
induction m1 as [|kv m1 IH]; [reflexivity|].
cbn [app sum_hits fold_right]. fold (sum_hits (m1 ++ m2)). fold (sum_hits m1).
rewrite IH. lia.
Qed.

Lemma keys_set_present k (e e' : CacheEntry T) m :
  OMap.get k m = Some e -> OMap.keys (OMap.set k e' m) = OMap.keys m.
Proof. intros H. now rewrite OMapFacts.keys_set, H. Qed.

(** X9.  A hit counts and nothing else: the entry has one more hit and
    the same data, time and ttl, every other entry is as it was, and the
    order of the keys, by which [set] evicts, does not change: an entry
    is not kept longer for being used. *)
Theorem hit_keeps_order c now q p (d : T) b :
  fst (get c now q p) = Some (d, b) ->
  exists e,
    OMap.get (generateKey q p) (cache c) = Some e
    /\ data e = d /\ b = true
    /\ OMap.get (generateKey q p) (cache (snd (get c now q p)))
       = Some (Entry d (timestamp e) (ttl e) (hits e + 1))
    /\ (forall k, k <> generateKey q p ->
                  OMap.get k (cache (snd (get c now q p))) = OMap.get k (cache c))
    /\ OMap.keys (cache (snd (get c now q p))) = OMap.keys (cache c)
    /\ OMap.first_key (cache (snd (get c now q p))) = OMap.first_key (cache c).
Proof.
unfold get. destruct (OMap.get (generateKey q p) (cache c)) as [e|] eqn:E;
  [|discriminate].
destruct (ttl e <? now - timestamp e); [discriminate|].
cbn [fst snd with_cache cache]. intros [= <- <-].
exists e. split; [reflexivity|]. split; [reflexivity|]. split; [reflexivity|].
split; [apply OMapFacts.get_set_eq|].
split; [intros k Hk; now apply OMapFacts.get_set_ne|].
split; [now apply (keys_set_present _ e)|].
destruct (cache c) as [|[k0 e0] m]; [discriminate|].
cbn [OMap.set].
destruct (String.eqb_spec (generateKey q p) k0) as [->|_]; reflexivity.
Qed.

(** X10.  The statistics count what the cache holds: the size is the
    number of entries and the total of hits is the sum of the hits of
    the entries.  The total is 0 for a new cache, goes up by one with
    every hit and is not changed by a lookup of an absent key. *)
Theorem stats_count_hits c now q p :
  size (getStats c) = Z.of_nat (length (cache c))
  /\ stats_maxSize (getStats c) = maxSize c
  /\ totalHits (getStats c) = sum_hits (cache c)
  /\ (forall maxSize0 ttl0, totalHits (getStats (new (T:=T) maxSize0 ttl0)) = 0)
  /\ (forall d b,
         fst (get c now q p) = Some (d, b) ->
         totalHits (getStats (snd (get c now q p))) = totalHits (getStats c) + 1)
  /\ (OMap.get (generateKey q p) (cache c) = None ->
      getStats (snd (get c now q p)) = getStats c).
Proof.
split; [now rewrite getStats_eq|]. split; [now rewrite getStats_eq|].
split; [apply totalHits_getStats|]. split; [reflexivity|]. split.
- intros d b. rewrite !totalHits_getStats. unfold get.
  destruct (OMap.get (generateKey q p) (cache c)) as [e|] eqn:E; [|discriminate].
  destruct (ttl e <? now - timestamp e); [discriminate|].
  cbn [fst snd with_cache cache]. intros _.
  rewrite (sum_hits_set _ e) by assumption. cbn [hits]. lia.
- intros E. unfold get. now rewrite E.
Qed.

Lemma get_filter (P : string * CacheEntry T -> bool) k m :
  OMap.wf m ->
  OMap.get k (List.filter P m)
  = match OMap.get k m with
    | Some e => if P (k, e) then Some e else None
    | None => None
    end.
Proof.
unfold OMap.wf. induction m as [|[k0 e0] m IH]; [reflexivity|].
cbn [OMap.keys List.map fst]. rewrite NoDup_cons. intros [Hn Hd].
cbn [List.filter OMap.get].
destruct (String.eqb_spec k k0) as [->|Hne].
- destruct (P (k0, e0)) eqn:HP; cbn [OMap.get]; [now rewrite String.eqb_refl|].
  rewrite IH by assumption.
  destruct (OMap.get k0 m) as [e|] eqn:E; [|reflexivity].
  exfalso. apply Hn. apply OMapFacts.get_Some_in in E. exact E.
- destruct (P (k0, e0)); cbn [OMap.get].
  + destruct (String.eqb_spec k k0); [congruence|]. now apply IH.
  + now apply IH.
Qed.

Lemma filter_filter_same {A} (P : A -> bool) (l : list A) :
  List.filter P (List.filter P l) = List.filter P l.
Proof.
induction l as [|a l IH]; [reflexivity|].
cbn [List.filter]. destruct (P a) eqn:E; [|exact IH].
cbn [List.filter]. now rewrite E, IH.
Qed.

Lemma filter_none {A} (P : A -> bool) (l : list A) :
  List.filter P (List.filter (fun x => negb (P x)) l) = [].
Proof.
induction l as [|a l IH]; [reflexivity|].
cbn [List.filter]. destruct (P a) eqn:E; cbn [negb List.filter]; [exact IH|].
now rewrite E.
Qed.

(** X11.  [cleanup] removes the expired entries and only them: what it
    returns is the number removed, an entry that is left is not expired
    and was there before, an entry that was not expired is left
    untouched, and a second [cleanup] at the same time removes nothing. *)
Theorem cleanup_sweeps_expired c now :
  reachable c ->
  let c' := snd (cleanup c now) in
  fst (cleanup c now) = OMap.size (cache c) - OMap.size (cache c')
  /\ (forall k e,
         OMap.get k (cache c') = Some e ->
         now - timestamp e <= ttl e /\ OMap.get k (cache c) = Some e)
  /\ (forall k e,
         OMap.get k (cache c) = Some e -> now - timestamp e <= ttl e ->
         OMap.get k (cache c') = Some e)
  /\ cleanup c' now = (0, c').
Proof.
intros Hr. pose proof (reachable_inv c Hr) as [Hwf _].
cbv zeta. rewrite cleanup_spec by assumption. cbn [fst snd with_cache cache].
split; [|split; [|split]].
- unfold OMap.size.
  pose proof (InvalidateTheorems.filter_partition (expired now) (cache c)). lia.
- intros k e. rewrite get_filter by assumption.
  destruct (OMap.get k (cache c)) as [e'|]; [|discriminate].
  unfold expired. cbn [snd].
  destruct (ttl e' <? now - timestamp e') eqn:E; cbn [negb]; [discriminate|].
  intros [= <-]. split; [lia | reflexivity].
- intros k e He Hfresh. rewrite get_filter, He by assumption.
  unfold expired. cbn [snd].
  destruct (ttl e <? now - timestamp e) eqn:E; [lia | reflexivity].
- rewrite cleanup_spec by (cbn [cache]; now apply wf_filter).
  cbn [cache with_cache maxSize defaultTTL].
  rewrite filter_none, filter_filter_same. reflexivity.
Qed.

(** X12.  The cache keeps its capacity and its keys apart: in every
    cache the operations can produce no key is held twice, and with a
    capacity of one or more the size never exceeds it. *)
Theorem capacity_respected c :
  reachable c ->
  NoDup (OMap.keys (cache c))
  /\ (1 <= maxSize c -> OMap.size (cache c) <= maxSize c).
Proof.
intros Hr. split; [apply (reachable_inv c Hr)|].
now apply KeyTheorems.bounded.
Qed.

(** The key is the one [set] would evict: the first in the order of
    insertion. *)
Definition oldest c (key : string) : bool :=
match OMap.first_key (cache c) with
| Some k => String.eqb k key
| None => false
end.

(** X13.  Storing under a key that is already held stores the new entry
    with no hits.  With room left the key keeps its place in the order
    of eviction.  When the cache is full the oldest entry is evicted all
    the same, though no room was needed: if that is the entry of another
    key, the key keeps its place among the others; if it is the entry of
    the key itself, the key is deleted and appended again, and so becomes
    the newest. *)
Theorem overwrite_in_place c now q (d : T) p ttl0 e :
  reachable c ->
  OMap.get (generateKey q p) (cache c) = Some e ->
  OMap.get (generateKey q p) (cache (set c now q d p ttl0))
  = Some (Entry d now (ttl_or_default c ttl0) 0)
  /\ OMap.keys (cache (set c now q d p ttl0))
     = if maxSize c <=? OMap.size (cache c)
       then if oldest c (generateKey q p)
            then List.tl (OMap.keys (cache c)) ++ [generateKey q p]
            else List.tl (OMap.keys (cache c))
       else OMap.keys (cache c).
Proof.
intros Hr He. split.
- rewrite KeyTheorems.cache_set. apply OMapFacts.get_set_eq.
- destruct (maxSize c <=? OMap.size (cache c)) eqn:Hfull.
  + apply reachable_inv in Hr as [Hwf Hne].
    unfold set, oldest. rewrite Hfull.
    destruct (cache c) as [|[k0 e0] rest] eqn:Hc; [discriminate He|].
    cbn [OMap.first_key with_cache cache].
    change (OMap.keys ((k0, e0) :: rest)) with (k0 :: OMap.keys rest) in *.
    cbn [List.tl]. apply Forall_cons in Hne as [Hk0 _].
    destruct (String.eqb_spec k0 EmptyString) as [Heq|_]; [contradiction|].
    rewrite OMapFacts.delete_first, OMapFacts.keys_set.
    unfold OMap.wf in Hwf.
    change (OMap.keys ((k0, e0) :: rest)) with (k0 :: OMap.keys rest) in Hwf.
    apply NoDup_cons in Hwf as [Hnotin _].
    cbn [OMap.get] in He.
    destruct (String.eqb_spec k0 (generateKey q p)) as [Heq|Hdiff].
    * subst k0. apply OMapFacts.get_None in Hnotin. now rewrite Hnotin.
    * destruct (String.eqb_spec (generateKey q p) k0) as [Heq|_];
        [congruence|]. now rewrite He.
  + rewrite EvictionTheorems.set_below_capacity by lia.
    now apply (keys_set_present _ e).
Qed.
End Behaviour.

Lemma capacity_respected_witness :
  OMap.size (cache (set (set (new (Some 1) None) 0 "a" 1 None None)
                        1 "b" 2 None None)) <= 1.
Proof.
apply (capacity_respected (T:=Z)).
- repeat apply reach_set. apply reach_new.
- vm_compute. discriminate.
Defined.

Lemma hit_keeps_order_witness :
  OMap.keys (cache (snd (get (set (set (new None None) 0 "a" 1 None None)
                                  1 "b" 2 None None) 2 "a" None)))
  = ["a:"; "b:"].
Proof.
destruct (hit_keeps_order (set (set (new None None) 0 "a" 1 None None)
                               1 "b" 2 None None) 2 "a" None 1 true)
  as (e & _ & _ & _ & _ & _ & Hkeys & _).
- vm_compute. reflexivity.
- rewrite Hkeys. vm_compute. reflexivity.
Defined.

Lemma cleanup_sweeps_expired_witness :
  cleanup (snd (cleanup (set (new None (Some 10)) 0 "a" 1 None None) 11)) 11
  = (0, snd (cleanup (set (new None (Some 10)) 0 "a" 1 None None) 11)).
Proof.
apply (cleanup_sweeps_expired (T:=Z)). apply reach_set, reach_new.
Defined.

Lemma overwrite_in_place_witness :
  OMap.keys (cache (set (set (set (new (Some 2) None) 0 "a" 1 None None)
                             1 "b" 2 None None)
                        2 "a" 3 None None))
  = ["b:"; "a:"].
Proof.
destruct (overwrite_in_place
            (set (set (new (Some 2) None) 0 "a" 1 None None) 1 "b" 2 None None)
            2 "a" 3 None None (Entry 1 0 300000 0))
  as (_ & Hkeys).
- repeat apply reach_set. apply reach_new.
- vm_compute. reflexivity.
- rewrite Hkeys. vm_compute. reflexivity.
Defined.

End CacheBehaviour.

(** ** More on the rate limiter *)
Module LimiterBehaviour.
Import Security.RateLimiter LimiterTheorems.

Lemma remaining_eq l now identifier :
  getRemainingRequests l now identifier
  = Z.max 0 (maxRequests l - window_count l now identifier).
Proof.
unfold getRemainingRequests, window_count. now rewrite validRequests_in_window.
Qed.

Lemma filter_idem {A} (P : A -> bool) (l : list A) :
  List.filter P (List.filter P l) = List.filter P l.
Proof.
induction l as [|a l IH]; [reflexivity|].
cbn [List.filter]. destruct (P a) eqn:E; [|exact IH].
cbn [List.filter]. now rewrite E, IH.
Qed.

Lemma window_count_granted l now identifier :
  0 < windowMs l ->
  window_count l now identifier < maxRequests l ->
  window_count (snd (isAllowed l now identifier)) now identifier
  = window_count l now identifier + 1.
Proof.
intros Hwindow Hroom.
pose proof (limits_kept l now identifier) as [_ Hw].
unfold window_count at 1. rewrite recorded_granted by assumption.
assert (Hsame : forall t, in_window (snd (isAllowed l now identifier)) now t
                          = in_window l now t).
{ intros t. unfold in_window. now rewrite Hw. }
rewrite (filter_ext _ _ Hsame), List.filter_app, filter_idem, length_app.
cbn [List.filter]. unfold in_window at 2.
rewrite bool_decide_eq_true_2 by lia. unfold window_count. cbn [length]. lia.
Qed.

(** X14.  [getRemainingRequests] is the limit less the number of
    requests in the window, and never negative.  At the moment a request
    is granted the number left goes down by exactly one; at the moment a
    request is refused it is 0. *)
Theorem remaining_counts_down l now identifier :
  getRemainingRequests l now identifier
  = Z.max 0 (maxRequests l - window_count l now identifier)
  /\ (0 < windowMs l ->
      fst (isAllowed l now identifier) = true ->
      getRemainingRequests (snd (isAllowed l now identifier)) now identifier
      = getRemainingRequests l now identifier - 1)
  /\ (fst (isAllowed l now identifier) = false ->
      getRemainingRequests l now identifier = 0).
Proof.
split; [apply remaining_eq|]. split.
- intros Hwindow Hgranted. apply isAllowed_iff in Hgranted.
  pose proof (limits_kept l now identifier) as [Hm _].
  rewrite !remaining_eq, Hm, window_count_granted by assumption. lia.
- intros Hdenied. rewrite remaining_eq.
  destruct (Z_lt_le_dec (window_count l now identifier) (maxRequests l)) as [H|H].
  + apply isAllowed_iff in H. congruence.
  + lia.
Qed.

Lemma recorded_reset l identifier other :
  recorded (reset l identifier) other
  = if String.eqb identifier other then [] else recorded l other.
Proof.
unfold recorded, reset. cbn [requests].
destruct (String.eqb_spec identifier other) as [->|Hne].
- now rewrite lookup_delete_eq.
- now rewrite lookup_delete_ne.
Qed.

(** X15.  [reset] forgets the requests of one identifier and of no
    other: afterwards the identifier has the whole limit left and its
    next request is granted (when the limit is positive), and the
    requests recorded for any other identifier are as before. *)
Theorem reset_forgets l identifier now :
  recorded (reset l identifier) identifier = []
  /\ getRemainingRequests (reset l identifier) now identifier
     = Z.max 0 (maxRequests l)
  /\ (fst (isAllowed (reset l identifier) now identifier) = true
      <-> 0 < maxRequests l)
  /\ (forall other,
         other <> identifier ->
         recorded (reset l identifier) other = recorded l other
         /\ getRemainingRequests (reset l identifier) now other
            = getRemainingRequests l now other
         /\ fst (isAllowed (reset l identifier) now other)
            = fst (isAllowed l now other)).
Proof.
assert (Hown : recorded (reset l identifier) identifier = []).
{ rewrite recorded_reset. now rewrite String.eqb_refl. }
assert (Hcount : window_count (reset l identifier) now identifier = 0).
{ unfold window_count. now rewrite Hown. }
split; [exact Hown|]. split; [|split].
- rewrite remaining_eq, Hcount. cbn [reset maxRequests]. f_equal. lia.
- rewrite isAllowed_iff, Hcount. reflexivity.
- intros other Hne.
  assert (Hother : recorded (reset l identifier) other = recorded l other).
  { rewrite recorded_reset. destruct (String.eqb_spec identifier other); congruence. }
  assert (Hcount' : window_count (reset l identifier) now other
                    = window_count l now other).
  { unfold window_count. rewrite Hother. reflexivity. }
  split; [exact Hother|]. split.
  + rewrite !remaining_eq, Hcount'. reflexivity.
  + destruct (fst (isAllowed l now other)) eqn:E.
    * apply isAllowed_iff. apply isAllowed_iff in E. rewrite Hcount'. exact E.
    * destruct (fst (isAllowed (reset l identifier) now other)) eqn:E';
        [|reflexivity].
      apply isAllowed_iff in E'. rewrite Hcount' in E'.
      cbn [reset maxRequests] in E'. apply isAllowed_iff in E'. congruence.
Qed.

(** X16.  The identifiers are limited independently: a request of one
    identifier, granted or refused, changes neither what is recorded for
    another, nor the number another has left, nor whether the other's
    next request is granted. *)
Theorem identifiers_independent l now identifier other later :
  identifier <> other ->
  recorded (snd (isAllowed l now identifier)) other = recorded l other
  /\ getRemainingRequests (snd (isAllowed l now identifier)) later other
     = getRemainingRequests l later other
  /\ fst (isAllowed (snd (isAllowed l now identifier)) later other)
     = fst (isAllowed l later other).
Proof.
intros Hne.
pose proof (recorded_other l now identifier other Hne) as Hrec.
pose proof (limits_kept l now identifier) as [Hm Hw].
assert (Hcount : window_count (snd (isAllowed l now identifier)) later other
                 = window_count l later other).
{ unfold window_count. rewrite Hrec. do 2 f_equal.
  apply filter_ext. intros t. unfold in_window. now rewrite Hw. }
split; [exact Hrec|]. split.
- now rewrite !remaining_eq, Hcount, Hm.
- destruct (fst (isAllowed l later other)) eqn:E.
  + apply isAllowed_iff. apply isAllowed_iff in E. now rewrite Hcount, Hm.
  + destruct (fst (isAllowed (snd (isAllowed l now identifier)) later other))
      eqn:E'; [|reflexivity].
    apply isAllowed_iff in E'. rewrite Hcount, Hm in E'.
    apply isAllowed_iff in E'. congruence.
Qed.

(** The limiters the operations can produce. *)
Inductive reachable : t -> Prop :=
| made_new maxRequests windowMs : reachable (new maxRequests windowMs)
| made_isAllowed l now identifier :
    reachable l -> reachable (snd (isAllowed l now identifier))
| made_reset l identifier : reachable l -> reachable (reset l identifier).

(** X17.  The limiter stores no more than the limit: for every
    identifier the number of recorded timestamps is at most
    [maxRequests] (none when the limit is not positive), whatever the
    sequence of requests and resets. *)
Theorem stored_timestamps_bounded l identifier :
  reachable l ->
  Z.of_nat (length (recorded l identifier)) <= Z.max 0 (maxRequests l).
Proof.
intros Hr. revert identifier.
induction Hr as [m w|l now id Hr IH|l id Hr IH]; intros identifier.
- unfold recorded, new. cbn [requests]. rewrite lookup_empty.
  cbn [default length]. lia.
- pose proof (limits_kept l now id) as [Hm _]. rewrite Hm.
  destruct (String.eqb_spec id identifier) as [<-|Hne].
  + destruct (Z_lt_le_dec (window_count l now id) (maxRequests l)) as [H|H].
    * rewrite recorded_granted by assumption. rewrite length_app. cbn [length].
      unfold window_count in H. lia.
    * rewrite isAllowed_denied by assumption. apply IH.
  + rewrite recorded_other by assumption. apply IH.
- rewrite recorded_reset. cbn [reset maxRequests].
  destruct (String.eqb id identifier); [cbn [length]; lia | apply IH].
Qed.

Lemma remaining_counts_down_witness :
  getRemainingRequests
    (snd (isAllowed (new (Some 5) None) 0 "test-user")) 0 "test-user" = 4.
Proof.
rewrite (proj1 (proj2 (remaining_counts_down (new (Some 5) None) 0 "test-user"))).
- vm_compute. reflexivity.
- vm_compute. reflexivity.
- vm_compute. reflexivity.
Defined.

Lemma identifiers_independent_witness :
  fst (isAllowed (snd (isAllowed (new (Some 1) None) 0 "ann")) 1 "bob") = true.
Proof.
rewrite (proj2 (proj2 (identifiers_independent (new (Some 1) None) 0
                         "ann" "bob" 1 ltac:(discriminate)))).
vm_compute. reflexivity.
Defined.

Lemma stored_timestamps_bounded_witness :
  Z.of_nat (length (recorded
                      (snd (isAllowed (snd (isAllowed (new (Some 1) None) 0 "ann"))
                              1 "ann"))
                      "ann")) <= 1.
Proof.
apply (stored_timestamps_bounded
         (snd (isAllowed (snd (isAllowed (new (Some 1) None) 0 "ann")) 1 "ann"))
         "ann").
repeat apply made_isAllowed. apply made_new.
Defined.

End LimiterBehaviour.

(** ** The request handler *)
Module PipelineFacts.
Import Security Pipeline.

(** *** A weakest-precondition calculus for the handler's monad *)

(** [wp m Q st]: running [m] from [st] ends in a completion and a state
    that [Q] accepts. *)
Definition wp {A} (m : M A) (Q : completion A -> State -> Prop) (st : State)
  : Prop :=
Q (fst (m st)) (snd (m st)).

(** The state after a clock reading, a console line, a statement given
    to the backend, and a new limiter or cache. *)
Definition tick (st : State) : State :=
{| queryCache := queryCache st; rateLimiter := rateLimiter st;
   reads := S (reads st); console := console st; executed := executed st |}.

Definition say (line : string) (st : State) : State :=
{| queryCache := queryCache st; rateLimiter := rateLimiter st;
   reads := reads st; console := console st ++ [line];
   executed := executed st |}.

Definition ran (statement : string) (st : State) : State :=
{| queryCache := queryCache st; rateLimiter := rateLimiter st;
   reads := reads st; console := console st;
   executed := executed st ++ [statement] |}.

Definition with_limiter (l : RateLimiter.t) (st : State) : State :=
{| queryCache := queryCache st; rateLimiter := l;
   reads := reads st; console := console st; executed := executed st |}.

Definition with_queryCache (c : QueryCache.t QueryPipelineResponse) (st : State)
  : State :=
{| queryCache := c; rateLimiter := rateLimiter st;
   reads := reads st; console := console st; executed := executed st |}.

Lemma wp_run {A} (m : M A) Q st :
  wp m Q st -> exists r st', m st = (r, st') /\ Q r st'.
Proof. unfold wp. destruct (m st) as [r st']. eauto. Qed.

Lemma wp_ret {A} (a : A) Q st : Q (Return a) st -> wp (ret a) Q st.
Proof. trivial. Qed.

Lemma wp_bind {A B} (m : M A) (f : A -> M B) Q st :
  wp m (fun r st' =>
          match r with
          | Return a => wp (f a) Q st'
          | Throw e => Q (Throw e) st'
          end) st ->
  wp (bind m f) Q st.
Proof. unfold wp, bind. now destruct (m st) as [[a|e] st']. Qed.

Lemma wp_try_catch {A} (m : M A) (handler : string -> M A) Q st :
  wp m (fun r st' =>
          match r with
          | Return a => Q (Return a) st'
          | Throw e => wp (handler e) Q st'
          end) st ->
  wp (try_catch m handler) Q st.
Proof. unfold wp, try_catch. now destruct (m st) as [[a|e] st']. Qed.

Lemma wp_await {A} (c : completion A) Q st : Q c st -> wp (await c) Q st.
Proof. trivial. Qed.

Lemma wp_log line Q st : Q (Return tt) (say line st) -> wp (log line) Q st.
Proof. trivial. Qed.

Lemma wp_mono {A} (m : M A) (Q Q' : completion A -> State -> Prop) st :
  wp m Q st -> (forall r st', Q r st' -> Q' r st') -> wp m Q' st.
Proof. unfold wp. auto. Qed.

Section Calls.
Variable w : World.

Lemma wp_now Q st : Q (Return (clock w (reads st))) (tick st) -> wp (now w) Q st.
Proof. trivial. Qed.

Lemma wp_execute statement Q st :
  Q (queryRawUnsafe w statement) (ran statement st) ->
  wp (execute w statement) Q st.
Proof. trivial. Qed.

Lemma wp_isAllowed identifier Q st :
  (let r := RateLimiter.isAllowed (rateLimiter st) (clock w (reads st)) identifier in
   Q (Return (fst r)) (with_limiter (snd r) (tick st))) ->
  wp (isAllowed w identifier) Q st.
Proof.
unfold wp, isAllowed, bind, now, get_state, put_limiter, ret.
cbn [fst snd rateLimiter reads].
now destruct (RateLimiter.isAllowed _ _ _).
Qed.

Lemma wp_getRemainingRequests identifier Q st :
  Q (Return (RateLimiter.getRemainingRequests (rateLimiter st)
               (clock w (reads st)) identifier))
    (tick st) ->
  wp (getRemainingRequests w identifier) Q st.
Proof. trivial. Qed.

Lemma wp_cache_get_absent query params Q st :
  OMap.get (QueryCache.generateKey query params)
           (QueryCache.cache (queryCache st)) = None ->
  Q (Return None) st -> wp (cache_get w query params) Q st.
Proof.
intros Hmiss HQ. unfold wp, cache_get, bind, get_state. now rewrite Hmiss.
Qed.

Lemma wp_cache_get_present query params e Q st :
  OMap.get (QueryCache.generateKey query params)
           (QueryCache.cache (queryCache st)) = Some e ->
  (let r := QueryCache.get (queryCache st) (clock w (reads st)) query params in
   Q (Return (fst r)) (with_queryCache (snd r) (tick st))) ->
  wp (cache_get w query params) Q st.
Proof.
intros Hhit HQ. unfold wp, cache_get, bind, get_state. rewrite Hhit.
unfold now, put_cache, ret. cbn [fst snd queryCache reads].
now destruct (QueryCache.get _ _ _ _).
Qed.

Lemma wp_cache_set query d params ttl Q st :
  Q (Return tt)
    (with_queryCache
       (QueryCache.set (queryCache st) (clock w (reads st)) query d params ttl)
       (tick st)) ->
  wp (cache_set w query d params ttl) Q st.
Proof. trivial. Qed.

Lemma wp_cache_getStats Q st :
  Q (Return (QueryCache.getStats (queryCache st))) (tick st) ->
  wp (cache_getStats w) Q st.
Proof. trivial. Qed.

End Calls.

(** *** The calls that catch their own errors *)

(** What such a call leaves of the state: the cache, the limiter, the
    clock readings and the statements given to the backend are the
    same; lines are only added to the console. *)
Record quiet (st st' : State) : Prop := {
  quiet_cache : queryCache st' = queryCache st;
  quiet_limiter : rateLimiter st' = rateLimiter st;
  quiet_reads : reads st' = reads st;
  quiet_executed : executed st' = executed st;
  quiet_console : exists lines, console st' = console st ++ lines
}.

Lemma quiet_refl st : quiet st st.
Proof. split; try reflexivity. exists []. now rewrite app_nil_r. Qed.

Lemma quiet_say line st : quiet st (say line st).
Proof. split; try reflexivity. now exists [line]. Qed.

Lemma quiet_trans st1 st2 st3 : quiet st1 st2 -> quiet st2 st3 -> quiet st1 st3.
Proof.
intros [C1 L1 R1 E1 [l1 K1]] [C2 L2 R2 E2 [l2 K2]].
split; try congruence. exists (l1 ++ l2). now rewrite K2, K1, app_assoc.
Qed.

Lemma quiet_In st st' line :
  quiet st st' -> In line (console st) -> In line (console st').
Proof.
intros [_ _ _ _ [lines E]] H. rewrite E. apply in_or_app. now left.
Qed.

Section Services.
Variable w : World.

(** The answer of [classifyQuery], read off the generation service. *)
Definition classified (query : string) : Classification :=
match geminiGenerate w (classifyPrompt query)
        {| temperature := 0; maxOutputTokens := 50 |} with
| Return classification =>
    let type := Str.toLowerCase (Str.trim classification) in
    if Str.includes type "structured" then structured
    else if Str.includes type "document" then document
    else if Str.includes type "hybrid" then hybrid
    else structured
| Throw _ => structured
end.

Lemma wp_classifyQuery query Q st :
  (forall st', quiet st st' -> Q (Return (classified query)) st') ->
  wp (classifyQuery w query) Q st.
Proof.
unfold classifyQuery, classified.
destruct (geminiGenerate w _ _) as [classification|message];
  cbv beta iota zeta; intros HQ; apply wp_try_catch, wp_bind, wp_await;
  cbv beta iota zeta.
- repeat match goal with
         | HQ : context [if ?b then _ else _] |- _ => destruct b
         end; apply wp_ret, HQ, quiet_refl.
- apply wp_bind, wp_log, wp_ret, HQ, quiet_say.
Qed.

(** The schema description that goes into the generation prompt. *)
Definition schemaContext (tables : list SchemaRow) : string :=
Str.join nl
  (List.map (fun t => sr_table_name t +:+ ": " +:+ Json.stringify (sr_columns t))
            tables).

(** How the generation of the SQL text ends: with the text of the
    service, or with the error of the schema lookup or of the service. *)
Definition generation (query : string) : completion string :=
match schemaTables w with
| Return tables =>
    geminiGenerate w (sqlPrompt (schemaContext tables) query)
      {| temperature := 0; maxOutputTokens := 1024 |}
| Throw message => Throw message
end.

(** The text [generateSQL] returns. *)
Definition generated (query : string) : string :=
match generation query with
| Return sql => stripFences sql
| Throw _ => fallbackSQL
end.

Lemma wp_generateSQL query Q st :
  (forall st',
      quiet st st' ->
      match generation query with
      | Return _ => st' = st
      | Throw message => st' = say ("SQL generation failed: " +:+ message) st
      end ->
      Q (Return (generated query)) st') ->
  wp (generateSQL w query) Q st.
Proof.
unfold generateSQL, generated, generation, schemaContext.
destruct (schemaTables w) as [tables|message].
- destruct (geminiGenerate w _ _) as [sql|message] eqn:E; intros HQ;
    apply wp_try_catch, wp_bind, wp_await; cbv beta iota zeta;
    apply wp_bind, wp_await; rewrite E; cbv beta iota zeta.
  + apply wp_ret, HQ; [apply quiet_refl | reflexivity].
  + apply wp_bind, wp_log, wp_ret, HQ; [apply quiet_say | reflexivity].
- intros HQ. apply wp_try_catch, wp_bind, wp_await; cbv beta iota zeta.
  apply wp_bind, wp_log, wp_ret, HQ; [apply quiet_say | reflexivity].
Qed.

(** The index and column metadata the optimiser is given. *)
Definition tableIndexes : gmap string (list string) :=
match pgIndexes w with
| Return indexes =>
    fold_left
      (fun (map : gmap string (list string)) idx =>
         let existing := default [] (map !! ir_tablename idx) in
         <[ir_tablename idx := existing ++ ir_columns idx]> map)
      indexes ∅
| Throw _ => ∅
end.

Definition tableColumns : gmap string (list string) :=
match schemaColumns w with
| Return columns =>
    fold_left
      (fun (map : gmap string (list string)) col =>
         let existing := default [] (map !! cr_table_name col) in
         <[cr_table_name col := existing ++ [cr_column_name col]]> map)
      columns ∅
| Throw _ => ∅
end.

Lemma wp_getTableIndexes Q st :
  (forall st', quiet st st' -> Q (Return tableIndexes) st') ->
  wp (getTableIndexes w) Q st.
Proof.
unfold getTableIndexes, tableIndexes.
destruct (pgIndexes w) as [indexes|message]; intros HQ;
  apply wp_try_catch, wp_bind, wp_await; cbv beta iota zeta.
- apply wp_ret, HQ, quiet_refl.
- apply wp_bind, wp_log, wp_ret, HQ, quiet_say.
Qed.

Lemma wp_getTableColumns Q st :
  (forall st', quiet st st' -> Q (Return tableColumns) st') ->
  wp (getTableColumns w) Q st.
Proof.
unfold getTableColumns, tableColumns.
destruct (schemaColumns w) as [columns|message]; intros HQ;
  apply wp_try_catch, wp_bind, wp_await; cbv beta iota zeta.
- apply wp_ret, HQ, quiet_refl.
- apply wp_bind, wp_log, wp_ret, HQ, quiet_say.
Qed.

(** The query the handler gives to the backend for a generated text. *)
Definition optimizedFor (page pageSize : Z) (sqlQuery : string)
  : Optimizer.OptimizedQuery :=
Optimizer.optimizeQuery sqlQuery
  {| Optimizer.opt_pagination :=
       Some {| Optimizer.page := page; Optimizer.pageSize := pageSize |};
     Optimizer.opt_tableIndexes := Some tableIndexes;
     Optimizer.opt_tableColumns := Some tableColumns;
     Optimizer.opt_enableTimeout := true;
     Optimizer.opt_timeoutMs := Some 30000 |}.

(** The count query built from the generated text. *)
Definition countFor (sqlQuery : string) : string :=
"SELECT COUNT(*) as total FROM (" +:+ sqlQuery +:+ ") as subquery".

End Services.


Ltac wp_step :=
  lazymatch goal with
  | |- wp (bind _ _) _ _ => apply wp_bind
  | |- wp (try_catch _ _) _ _ => apply wp_try_catch
  | |- wp (ret _) _ _ => apply wp_ret
  | |- wp (await _) _ _ => apply wp_await
  | |- wp (log _) _ _ => apply wp_log
  | |- wp (now _) _ _ => apply wp_now
  | |- wp (execute _ _) _ _ => apply wp_execute
  | |- wp (isAllowed _ _) _ _ => apply wp_isAllowed
  | |- wp (getRemainingRequests _ _) _ _ => apply wp_getRemainingRequests
  | |- wp (cache_set _ _ _ _ _) _ _ => apply wp_cache_set
  | |- wp (cache_getStats _) _ _ => apply wp_cache_getStats
  | |- wp (classifyQuery _ _) _ _ => apply wp_classifyQuery; intros ? ?
  | |- wp (getTableIndexes _) _ _ => apply wp_getTableIndexes; intros ? ?
  | |- wp (getTableColumns _) _ _ => apply wp_getTableColumns; intros ? ?
  end; cbv beta iota zeta.

Ltac wp_go := repeat wp_step.

Ltac state :=
  cbn [tick say ran with_limiter with_queryCache
       queryCache rateLimiter reads console executed fst snd].

(** Facts about a later state, traced back to an earlier one. *)
Ltac frames :=
  state;
  repeat match goal with
         | H : quiet ?a ?b |- context [executed ?b] =>
             rewrite (quiet_executed _ _ H); state
         | H : quiet ?a ?b |- context [queryCache ?b] =>
             rewrite (quiet_cache _ _ H); state
         | H : quiet ?a ?b |- context [rateLimiter ?b] =>
             rewrite (quiet_limiter _ _ H); state
         end.

(** A line is on the console: it is the last one written, or it was
    there before. *)
Ltac logged :=
  state;
  repeat first
    [ apply in_or_app; right; left; reflexivity
    | apply in_or_app; left
    | match goal with
      | H : quiet ?a ?b |- In _ (console ?b) => apply (quiet_In _ _ _ H); state
      end ].

(** Run the handler symbolically: step through the calls, use what is
    [known] of the request, and split on what is not. *)
Ltac drive known :=
  repeat first
    [ progress wp_go
    | progress (state; known)
    | match goal with
      | |- wp (generateSQL _ _) _ _ => apply wp_generateSQL; intros ? ? ?
      | |- wp (cache_get _ _ _) _ _ =>
          match goal with
          | |- wp (cache_get _ ?q ?p) _ ?s =>
              destruct (OMap.get (QueryCache.generateKey q p)
                                 (QueryCache.cache (queryCache s))) eqn:?;
              [eapply wp_cache_get_present; [eassumption|]
              |eapply wp_cache_get_absent; [eassumption|]]
          end
      | |- wp (match ?x with _ => _ end) _ _ => destruct x eqn:?
      | |- match ?x with _ => _ end => destruct x eqn:?
      end; cbv beta iota zeta ].

End PipelineFacts.


Module PipelineTheorems.
Import Security Pipeline PipelineFacts.

(** The fields of a request with their defaults. *)
Definition pageOf (rq : QueryPipelineRequest) : Z := default 1 (rq_page rq).
Definition pageSizeOf (rq : QueryPipelineRequest) : Z := default 50 (rq_pageSize rq).
Definition cachingOf (rq : QueryPipelineRequest) : bool :=
default true (rq_enableCache rq).
Definition userOf (rq : QueryPipelineRequest) : string :=
default "anonymous" (rq_userId rq).
Definition paramsOf (rq : QueryPipelineRequest) : option Json.value :=
Some (Json.Obj [("page", Json.Num (pageOf rq));
                ("pageSize", Json.Num (pageSizeOf rq))]).

(** A request the handler takes up: the query is not blank, the limiter
    grants it, and the cache, if enabled, does not answer it: the lookup
    finds nothing under the key of the request, or an entry that has
    expired (which it deletes). *)
Definition proceeds (w : World) (rq : QueryPipelineRequest) (st : State) : Prop :=
String.eqb (Str.trim (rq_query rq)) EmptyString = false
/\ fst (RateLimiter.isAllowed (rateLimiter st) (clock w (S (S (reads st))))
          (userOf rq)) = true
/\ (cachingOf rq = true ->
    fst (QueryCache.get (queryCache st) (clock w (S (S (S (S (S (reads st)))))))
           (rq_query rq) (paramsOf rq)) = None).

(** The cache as the lookup of the request leaves it: as it was when
    caching is disabled or the key is not held, without the entry of the
    key when that entry has expired. *)
Definition looked (w : World) (rq : QueryPipelineRequest) (st : State)
  : QueryCache.t QueryPipelineResponse :=
if cachingOf rq
then snd (QueryCache.get (queryCache st) (clock w (S (S (S (S (S (reads st)))))))
            (rq_query rq) (paramsOf rq))
else queryCache st.

(** The cache at the end of a path that stores nothing. *)
Ltac lookup_left :=
  frames;
  first [ reflexivity
        | match goal with
          | H : OMap.get _ (QueryCache.cache _) = None |- _ =>
              cbn [tick say ran with_limiter with_queryCache queryCache] in H;
              rewrite (CacheTheorems.get_absent _ _ _ _ H); reflexivity
          end ].

(** [rows.length > 0 ? rows : undefined] *)
Definition nonempty {A} (l : list A) : option (list A) :=
match l with [] => None | _ => Some l end.

(** How the document stage of a request ends: with the documents of the
    vector search, or with the error of the embedding service or of the
    search. *)
Definition documents (w : World) (rq : QueryPipelineRequest)
  : completion (list Json.value) :=
match generateEmbeddings w [rq_query rq] with
| Return embeddings => documentSearch w (head embeddings) (pageSizeOf rq)
| Throw message => Throw message
end.

Lemma fallback_safe :
  validateQuerySecurity fallbackSQL = Check true [] [].
Proof. vm_compute. reflexivity. Qed.

Lemma fallback_nonempty : String.eqb fallbackSQL EmptyString = false.
Proof. vm_compute. reflexivity. Qed.

Lemma empty_unsafe : safe (validateQuerySecurity EmptyString) = false.
Proof. vm_compute. reflexivity. Qed.

Lemma optimizeQuery_pagination sql0 p ix cols tm ms :
  Optimizer.pagination
    (Optimizer.optimizeQuery sql0
       {| Optimizer.opt_pagination := Some p;
          Optimizer.opt_tableIndexes := ix;
          Optimizer.opt_tableColumns := cols;
          Optimizer.opt_enableTimeout := tm;
          Optimizer.opt_timeoutMs := ms |})
  = Some (OptimizerTheorems.clampedPage p).
Proof.
unfold Optimizer.optimizeQuery.
cbn [Optimizer.opt_pagination Optimizer.opt_tableIndexes
     Optimizer.opt_tableColumns Optimizer.opt_enableTimeout
     Optimizer.opt_timeoutMs].
destruct ix, cols, tm; reflexivity.
Qed.

Section Path.
Variable w : World.

Lemma structured_path rq st rows total :
  proceeds w rq st ->
  classified w (rq_query rq) <> document ->
  safe (validateQuerySecurity (generated w (rq_query rq))) = true ->
  queryRawUnsafe w
    (Optimizer.sql (optimizedFor w (pageOf rq) (pageSizeOf rq)
                      (generated w (rq_query rq)))) = Return rows ->
  queryRawUnsafe w (countFor (generated w (rq_query rq))) = Return total ->
  wp (POST w rq)
     (fun r st' =>
        exists resp,
          r = Return (json (Success resp) 200)
          /\ success resp = true
          /\ query_type resp = classified w (rq_query rq)
          /\ sql resp = Some (generated w (rq_query rq))
          /\ structured_results resp = nonempty rows
          /\ errors resp = None
          /\ executed st'
             = executed st
               ++ [Optimizer.sql (optimizedFor w (pageOf rq) (pageSizeOf rq)
                                    (generated w (rq_query rq)));
                   countFor (generated w (rq_query rq))]
          /\ (forall message,
                 generation w (rq_query rq) = Throw message ->
                 In ("SQL generation failed: " +:+ message) (console st'))
          /\ (classified w (rq_query rq) = structured ->
              document_results resp = None)
          /\ (classified w (rq_query rq) = hybrid ->
              match documents w rq with
              | Return docs =>
                  document_results resp = nonempty docs
              | Throw message =>
                  document_results resp = None
                  /\ document_search_ms (performance resp) = 0
                  /\ In ("Document search failed: " +:+ message) (console st')
              end))
     st.
Proof.
intros (Hquery & Hgrant & Hmiss) Hclass Hsafe Hrows Htotal.
assert (Hsql : String.eqb (generated w (rq_query rq)) EmptyString = false).
{ destruct (String.eqb_spec (generated w (rq_query rq)) EmptyString) as [E|E];
    [|reflexivity].
  rewrite E, empty_unsafe in Hsafe. discriminate. }
unfold proceeds, looked, optimizedFor, countFor, documents, paramsOf, pageOf, pageSizeOf,
  cachingOf, userOf in *.
destruct (default true (rq_enableCache rq)) eqn:Hcaching;
  [specialize (Hmiss eq_refl)|clear Hmiss].
all: unfold POST.
all: drive ltac:(rewrite ?Hquery, ?Hgrant, ?Hcaching, ?Hmiss, ?Hsafe, ?Hsql,
                    ?Hrows, ?Htotal, ?optimizeQuery_pagination;
                 cbn [negb safe]).
all: try (exfalso; destruct (classified w (rq_query rq)); congruence).
all: eexists; split; [reflexivity|];
  cbn [success query_type sql structured_results document_results errors
       performance document_search_ms];
  repeat (split; [reflexivity|]).
all: split; [frames; now rewrite <- app_assoc|].
all: split; [intros failure Hfailure; rewrite Hfailure in *; subst; logged|].
all: split; intros Hkind; rewrite Hkind in *; try discriminate;
  try reflexivity.
all: repeat split; logged.
Qed.

Lemma document_path rq st :
  proceeds w rq st ->
  classified w (rq_query rq) = document ->
  wp (POST w rq)
     (fun r st' =>
        exists resp,
          r = Return (json (Success resp) 200)
          /\ success resp = true
          /\ query_type resp = document
          /\ sql resp = None
          /\ structured_results resp = None
          /\ errors resp = None
          /\ executed st' = executed st
          /\ match documents w rq with
             | Return docs => document_results resp = nonempty docs
             | Throw message =>
                 document_results resp = None
                 /\ document_search_ms (performance resp) = 0
                 /\ In ("Document search failed: " +:+ message) (console st')
             end)
     st.
Proof.
intros (Hquery & Hgrant & Hmiss) Hclass.
unfold proceeds, looked, documents, paramsOf, pageOf, pageSizeOf, cachingOf, userOf in *.
destruct (default true (rq_enableCache rq)) eqn:Hcaching;
  [specialize (Hmiss eq_refl)|clear Hmiss].
all: unfold POST.
all: drive ltac:(rewrite ?Hquery, ?Hgrant, ?Hcaching, ?Hmiss, ?Hclass;
                 cbn [negb safe String.eqb]).
all: eexists; split; [reflexivity|];
  cbn [success query_type sql structured_results document_results errors
       performance document_search_ms];
  repeat (split; [reflexivity|]).
all: split; [now frames|].
all: repeat split; logged.
Qed.

Lemma rejected_path rq st :
  proceeds w rq st ->
  classified w (rq_query rq) <> document ->
  safe (validateQuerySecurity (generated w (rq_query rq))) = false ->
  wp (POST w rq)
     (fun r st' =>
        r = Return
              (json (Failure
                       {| error := "Query failed security validation";
                          details :=
                            Messages
                              (Security.errors
                                 (validateQuerySecurity (generated w (rq_query rq))));
                          remaining := None |}) 400)
        /\ executed st' = executed st
        /\ queryCache st' = looked w rq st)
     st.
Proof.
intros (Hquery & Hgrant & Hmiss) Hclass Hsafe.
unfold proceeds, looked, paramsOf, pageOf, pageSizeOf, cachingOf, userOf in *.
destruct (default true (rq_enableCache rq)) eqn:Hcaching;
  [specialize (Hmiss eq_refl)|clear Hmiss].
all: unfold POST.
all: drive ltac:(rewrite ?Hquery, ?Hgrant, ?Hcaching, ?Hmiss, ?Hsafe;
                 cbn [negb safe]).
all: try (exfalso; destruct (classified w (rq_query rq)); congruence).
all: split; [reflexivity|]; split; [now frames | lookup_left].
Qed.

Lemma failed_path rq st message :
  proceeds w rq st ->
  classified w (rq_query rq) <> document ->
  safe (validateQuerySecurity (generated w (rq_query rq))) = true ->
  match queryRawUnsafe w
          (Optimizer.sql (optimizedFor w (pageOf rq) (pageSizeOf rq)
                            (generated w (rq_query rq)))) with
  | Return _ => queryRawUnsafe w (countFor (generated w (rq_query rq))) = Throw message
  | Throw e => e = message
  end ->
  wp (POST w rq)
     (fun r st' =>
        r = Return
              (json (Failure {| error := "Query execution failed";
                                details := Message message;
                                remaining := None |}) 500)
        /\ In ("SQL execution error: " +:+ message) (console st')
        /\ queryCache st' = looked w rq st
        /\ exists ran,
            executed st' = executed st ++ ran
            /\ ran = Optimizer.sql (optimizedFor w (pageOf rq) (pageSizeOf rq)
                                      (generated w (rq_query rq)))
                     :: match queryRawUnsafe w
                                (Optimizer.sql
                                   (optimizedFor w (pageOf rq) (pageSizeOf rq)
                                      (generated w (rq_query rq)))) with
                        | Return _ => [countFor (generated w (rq_query rq))]
                        | Throw _ => []
                        end)
     st.
Proof.
intros (Hquery & Hgrant & Hmiss) Hclass Hsafe Hfail.
assert (Hsql : String.eqb (generated w (rq_query rq)) EmptyString = false).
{ destruct (String.eqb_spec (generated w (rq_query rq)) EmptyString) as [E|E];
    [|reflexivity].
  rewrite E, empty_unsafe in Hsafe. discriminate. }
unfold proceeds, looked, optimizedFor, countFor, paramsOf, pageOf, pageSizeOf,
  cachingOf, userOf in *.
destruct (default true (rq_enableCache rq)) eqn:Hcaching;
  [specialize (Hmiss eq_refl)|clear Hmiss].
all: unfold POST.
all: destruct (queryRawUnsafe w (Optimizer.sql _)) as [rows|e] eqn:Hrows;
  [|subst e].
all: drive ltac:(rewrite ?Hquery, ?Hgrant, ?Hcaching, ?Hmiss, ?Hsafe, ?Hsql,
                    ?Hrows, ?Hfail, ?optimizeQuery_pagination;
                 cbn [negb safe]).
all: try (exfalso; destruct (classified w (rq_query rq)); congruence).
all: split; [reflexivity|]; split; [logged|]; split; [lookup_left|].
all: eexists; split; [|reflexivity]; frames; now rewrite <- ?app_assoc.
Qed.

Lemma blank_path rq st :
  String.eqb (Str.trim (rq_query rq)) EmptyString = true ->
  POST w rq st
  = (Return (json (Failure {| error := "Query is required";
                              details := NoDetails;
                              remaining := None |}) 400),
     tick st).
Proof.
intros Hquery.
enough (Hwp : wp (POST w rq)
                 (fun r st' =>
                    r = Return (json (Failure {| error := "Query is required";
                                                 details := NoDetails;
                                                 remaining := None |}) 400)
                    /\ st' = tick st) st).
{ apply wp_run in Hwp as (r & st' & E & -> & ->). exact E. }
unfold POST. apply wp_try_catch, wp_bind, wp_now. cbv beta iota zeta.
rewrite Hquery. apply wp_ret. split; reflexivity.
Qed.

Lemma limited_path rq st :
  String.eqb (Str.trim (rq_query rq)) EmptyString = false ->
  fst (RateLimiter.isAllowed (rateLimiter st) (clock w (S (S (reads st))))
         (userOf rq)) = false ->
  POST w rq st
  = (Return (json (Failure
                     {| error := "Rate limit exceeded";
                        details := NoDetails;
                        remaining :=
                          Some (RateLimiter.getRemainingRequests (rateLimiter st)
                                  (clock w (S (S (S (reads st))))) (userOf rq)) |})
                  429),
     tick (tick (tick (tick st)))).
Proof.
intros Hquery Hdenied.
assert (Hsame : snd (RateLimiter.isAllowed (rateLimiter st)
                       (clock w (S (S (reads st)))) (userOf rq))
                = rateLimiter st).
{ revert Hdenied. unfold RateLimiter.isAllowed.
  now destruct (RateLimiter.maxRequests _ <=? _). }
enough (Hwp : wp (POST w rq)
                 (fun r st' =>
                    r = Return (json (Failure
                     {| error := "Rate limit exceeded";
                        details := NoDetails;
                        remaining :=
                          Some (RateLimiter.getRemainingRequests (rateLimiter st)
                                  (clock w (S (S (S (reads st))))) (userOf rq)) |})
                  429)
                    /\ st' = tick (tick (tick (tick st)))) st).
{ apply wp_run in Hwp as (r & st' & E & -> & ->). exact E. }
unfold userOf in *. unfold POST.
drive ltac:(rewrite ?Hquery, ?Hdenied, ?Hsame; cbn [negb]).
split; [reflexivity|]. destruct st; reflexivity.
Qed.

(** A cached answer as it is sent: marked as a hit, with the time the
    lookup took. *)
Definition served (d : QueryPipelineResponse) (cache_check : Z)
  : QueryPipelineResponse :=
let p := performance d in
{| success := success d;
   query_type := query_type d;
   structured_results := structured_results d;
   document_results := document_results d;
   sql := sql d;
   performance :=
     {| classification_ms := classification_ms p;
        security_check_ms := security_check_ms p;
        optimization_ms := optimization_ms p;
        cache_check_ms := cache_check;
        sql_generation_ms := sql_generation_ms p;
        sql_execution_ms := sql_execution_ms p;
        embedding_generation_ms := embedding_generation_ms p;
        document_search_ms := document_search_ms p;
        total_ms := total_ms p;
        cache_hit := true;
        cache_stats := cache_stats p |};
   pagination := pagination d;
   optimization := optimization d;
   security := security d;
   errors := errors d |}.

Lemma hit_path rq st d b :
  String.eqb (Str.trim (rq_query rq)) EmptyString = false ->
  fst (RateLimiter.isAllowed (rateLimiter st) (clock w (S (S (reads st))))
         (userOf rq)) = true ->
  cachingOf rq = true ->
  fst (QueryCache.get (queryCache st) (clock w (S (S (S (S (S (reads st)))))))
         (rq_query rq) (paramsOf rq)) = Some (d, b) ->
  wp (POST w rq)
     (fun r st' =>
        r = Return (json (Success
                            (served d (clock w (S (S (S (S (S (S (reads st)))))))
                                       - clock w (S (S (S (S (reads st))))))))
                         200)
        /\ executed st' = executed st
        /\ console st' = console st
        /\ queryCache st'
           = snd (QueryCache.get (queryCache st)
                    (clock w (S (S (S (S (S (reads st)))))))
                    (rq_query rq) (paramsOf rq))
        /\ rateLimiter st'
           = snd (RateLimiter.isAllowed (rateLimiter st)
                    (clock w (S (S (reads st)))) (userOf rq)))
     st.
Proof.
intros Hquery Hgrant Hcaching Hhit.
unfold paramsOf, pageOf, pageSizeOf, cachingOf, userOf in *.
assert (Hkey : exists e,
           OMap.get (QueryCache.generateKey (rq_query rq)
                       (Some (Json.Obj [("page", Json.Num (default 1 (rq_page rq)));
                                        ("pageSize", Json.Num (default 50 (rq_pageSize rq)))])))
                    (QueryCache.cache (queryCache st)) = Some e).
{ revert Hhit. unfold QueryCache.get.
  destruct (OMap.get _ _) as [e|]; [eauto | discriminate]. }
destruct Hkey as [e Hkey].
unfold POST.
drive ltac:(rewrite ?Hquery, ?Hgrant, ?Hcaching, ?Hhit; cbn [negb];
            try (eapply wp_cache_get_present; [state; exact Hkey|])).
repeat split; reflexivity.
Qed.

Lemma success_inj (a b : QueryPipelineResponse) s s' :
  Return (json (Success a) s) = Return (json (Success b) s') -> a = b.
Proof. now intros [= ->]. Qed.

Definition statuses : list Z := [200; 400; 429; 500].

(** What holds of every request, whatever the services answer. *)
Lemma handler_effects rq st :
  wp (POST w rq)
     (fun r st' =>
        (exists b s,
            r = Return (json b s) /\ In s statuses
            /\ (s = 200 <-> exists resp, b = Success resp))
        /\ rateLimiter st'
           = (if String.eqb (Str.trim (rq_query rq)) EmptyString
              then rateLimiter st
              else snd (RateLimiter.isAllowed (rateLimiter st)
                          (clock w (S (S (reads st)))) (userOf rq)))
        /\ (cachingOf rq = false -> queryCache st' = queryCache st)
        /\ (forall resp,
               r = Return (json (Success resp) 200) ->
               cache_hit (performance resp) = false ->
               cachingOf rq = true ->
               exists k,
                 reads st' = S k
                 /\ OMap.get (QueryCache.generateKey (rq_query rq) (paramsOf rq))
                             (QueryCache.cache (queryCache st'))
                    = Some (QueryCache.Entry resp (clock w k) 300000 0))
        /\ exists ran,
            executed st' = executed st ++ ran
            /\ (ran = []
                \/ (String.eqb (Str.trim (rq_query rq)) EmptyString = false
                    /\ fst (RateLimiter.isAllowed (rateLimiter st)
                              (clock w (S (S (reads st)))) (userOf rq)) = true
                    /\ classified w (rq_query rq) <> document
                    /\ safe (validateQuerySecurity (generated w (rq_query rq))) = true
                    /\ (ran = [Optimizer.sql
                                 (optimizedFor w (pageOf rq) (pageSizeOf rq)
                                    (generated w (rq_query rq)))]
                        \/ ran = [Optimizer.sql
                                    (optimizedFor w (pageOf rq) (pageSizeOf rq)
                                       (generated w (rq_query rq)));
                                  countFor (generated w (rq_query rq))]))))
     st.
Proof.
unfold POST, optimizedFor, countFor, paramsOf, pageOf, pageSizeOf, cachingOf, userOf.
drive ltac:(rewrite ?optimizeQuery_pagination).
all: split;
  [eexists; eexists; split; [reflexivity|]; split; [cbn; tauto|];
   split; [intros; try discriminate; eauto
          |intros [resp Hresp]; try discriminate; reflexivity]|].
all: split; [frames; reflexivity|].
all: split; [intros Hcaching; first [discriminate Hcaching | frames; reflexivity]|].
all: split;
  [intros resp Hresp Hhit Hcaching;
   lazymatch type of Hresp with
   | Return (json (Failure _) _) = _ => discriminate Hresp
   | _ =>
       apply success_inj in Hresp; subst resp;
       cbn [cache_hit performance] in Hhit;
       first [discriminate Hhit
             |discriminate Hcaching
             |eexists; split; [state; reflexivity|]; state;
                 unfold QueryCache.set;
                 cbn [QueryCache.cache QueryCache.with_cache];
                 rewrite OMapFacts.get_set_eq; reflexivity]
   end|].
all: eexists; split;
  [frames; rewrite <- ?app_assoc;
   lazymatch goal with
   | |- ?x = ?x ++ _ => symmetry; apply app_nil_r
   | |- ?x ++ _ = ?x ++ _ => apply (f_equal (app x)); reflexivity
   end|].
all: lazymatch goal with
     | |- [] = [] \/ _ => left; reflexivity
     | _ => right
     end.
all: try (exfalso;
          match goal with
          | H : String.eqb (generated _ _) EmptyString = true,
            S : negb (safe (validateQuerySecurity (generated _ _))) = false |- _ =>
              apply String.eqb_eq in H; rewrite H, empty_unsafe in S;
              discriminate S
          end).
all: split; [reflexivity|].
all: split; [apply negb_false_iff; assumption|].
all: split;
  [intros Hkind;
   match goal with
   | H : match classified _ _ with _ => _ end = true |- _ =>
       rewrite Hkind in H; discriminate H
   end|].
all: split; [apply negb_false_iff; assumption|].
all: first [left; reflexivity | right; reflexivity].
Qed.

(** *** Every request *)

(** X18.  Every request whose body has been read is answered: the
    handler never throws, the status is 200, 400, 429 or 500, and it is
    200 exactly for a success body. *)
Theorem handler_always_responds rq st :
  exists b s st',
    POST w rq st = (Return (json b s), st')
    /\ In s statuses
    /\ (s = 200 <-> exists resp, b = Success resp).
Proof.
destruct (wp_run _ _ _ (handler_effects rq st))
  as (r & st' & E & (b & s & -> & Hs & H200) & _).
exists b, s, st'. repeat split; assumption || apply H200.
Qed.

(** X19.  Nothing is given to [$queryRawUnsafe] unless the query is not
    blank, the limiter granted the request, the classification asks for
    SQL and the generated text passed the security validation; what is
    given then is the optimised text, and after it the count query. *)
Theorem execution_needs_validation rq st :
  exists r st' ran,
    POST w rq st = (r, st')
    /\ executed st' = executed st ++ ran
    /\ (ran = []
        \/ (String.eqb (Str.trim (rq_query rq)) EmptyString = false
            /\ fst (RateLimiter.isAllowed (rateLimiter st)
                      (clock w (S (S (reads st)))) (userOf rq)) = true
            /\ classified w (rq_query rq) <> document
            /\ safe (validateQuerySecurity (generated w (rq_query rq))) = true
            /\ (ran = [Optimizer.sql
                         (optimizedFor w (pageOf rq) (pageSizeOf rq)
                            (generated w (rq_query rq)))]
                \/ ran = [Optimizer.sql
                            (optimizedFor w (pageOf rq) (pageSizeOf rq)
                               (generated w (rq_query rq)));
                          countFor (generated w (rq_query rq))]))).
Proof.
destruct (wp_run _ _ _ (handler_effects rq st))
  as (r & st' & E & _ & _ & _ & _ & ran & Hran & Hwhy).
exists r, st', ran. split; [exact E|]. split; assumption.
Qed.

(** X20.  A request that is not blank is charged to its user exactly once,
    served from the cache or not; a blank one is not charged. *)
Theorem limiter_charged_once rq st :
  rateLimiter (snd (POST w rq st))
  = if String.eqb (Str.trim (rq_query rq)) EmptyString
    then rateLimiter st
    else snd (RateLimiter.isAllowed (rateLimiter st)
                (clock w (S (S (reads st)))) (userOf rq)).
Proof.
destruct (wp_run _ _ _ (handler_effects rq st))
  as (r & st' & E & _ & Hlimiter & _).
now rewrite E.
Qed.

(** X21.  With [enableCache: false] the request leaves the cache as it
    was: no entry is stored, dropped or counted as hit. *)
Theorem caching_disabled_leaves_cache rq st :
  cachingOf rq = false ->
  queryCache (snd (POST w rq st)) = queryCache st.
Proof.
intros Hcaching.
destruct (wp_run _ _ _ (handler_effects rq st))
  as (r & st' & E & _ & _ & Hcache & _).
rewrite E. now apply Hcache.
Qed.

(** X22.  A second identical request, granted by the limiter within five
    minutes of the first answer, is served from the cache: the same
    answer marked as a hit, and nothing is executed or logged. *)
Theorem repeated_request_hits_cache rq st resp st1 k :
  POST w rq st = (Return (json (Success resp) 200), st1) ->
  cache_hit (performance resp) = false ->
  cachingOf rq = true ->
  reads st1 = S k ->
  fst (RateLimiter.isAllowed (rateLimiter st1) (clock w (S (S (reads st1))))
         (userOf rq)) = true ->
  clock w (S (S (S (S (S (reads st1)))))) - clock w k <= 300000 ->
  exists st2,
    POST w rq st1
    = (Return (json (Success
                       (served resp
                          (clock w (S (S (S (S (S (S (reads st1)))))))
                           - clock w (S (S (S (S (reads st1))))))))
                    200),
       st2)
    /\ executed st2 = executed st1 /\ console st2 = console st1.
Proof.
intros Hpost Hmiss Hcaching Hreads Hgrant Hage.
assert (Hquery : String.eqb (Str.trim (rq_query rq)) EmptyString = false).
{ destruct (String.eqb (Str.trim (rq_query rq)) EmptyString) eqn:E;
    [|reflexivity].
  rewrite (blank_path rq st E) in Hpost. discriminate Hpost. }
destruct (wp_run _ _ _ (handler_effects rq st))
  as (r & st' & E & _ & _ & _ & Hstored & _).
rewrite Hpost in E. injection E as <- <-.
destruct (Hstored resp eq_refl Hmiss Hcaching) as (k' & Hk' & Hentry).
assert (k' = k) by congruence. subst k'.
assert (Hget : fst (QueryCache.get (queryCache st1)
                      (clock w (S (S (S (S (S (reads st1)))))))
                      (rq_query rq) (paramsOf rq))
               = Some (resp, true)).
{ unfold QueryCache.get. rewrite Hentry.
  cbn [QueryCache.ttl QueryCache.timestamp QueryCache.data].
  destruct (300000 <? _) eqn:Hlate; [lia | reflexivity]. }
destruct (wp_run _ _ _ (hit_path rq st1 resp true Hquery Hgrant Hcaching Hget))
  as (r & st2 & E & -> & Hexecuted & Hconsole & _).
exists st2. split; [exact E|]. split; assumption.
Qed.

(** *** The early exits *)

(** X23.  A request whose query is empty or blank is answered with status 400
    before the limiter, the cache or any service is touched: only the
    clock has been read, once. *)
Theorem blank_query_rejected rq st :
  Str.trim (rq_query rq) = EmptyString ->
  POST w rq st
  = (Return (json (Failure {| error := "Query is required";
                              details := NoDetails;
                              remaining := None |}) 400),
     tick st).
Proof. intros H. apply blank_path. now rewrite H. Qed.

(** X24.  A request the limiter denies is answered with status 429 and the
    number of requests the user has left at that moment; the limiter and
    the cache are as they were, nothing is executed or logged. *)
Theorem rate_limit_rejects rq st :
  Str.trim (rq_query rq) <> EmptyString ->
  fst (RateLimiter.isAllowed (rateLimiter st) (clock w (S (S (reads st))))
         (userOf rq)) = false ->
  POST w rq st
  = (Return (json (Failure
                     {| error := "Rate limit exceeded";
                        details := NoDetails;
                        remaining :=
                          Some (RateLimiter.getRemainingRequests (rateLimiter st)
                                  (clock w (S (S (S (reads st))))) (userOf rq)) |})
                  429),
     tick (tick (tick (tick st)))).
Proof.
intros Hquery. apply limited_path. now apply String.eqb_neq.
Qed.

(** X25.  A request whose answer is in the cache and not expired is answered
    with it, marked as a hit: no service is asked, nothing is executed
    or logged, and the entry counts one more hit. *)
Theorem cache_hit_served rq st d b :
  Str.trim (rq_query rq) <> EmptyString ->
  fst (RateLimiter.isAllowed (rateLimiter st) (clock w (S (S (reads st))))
         (userOf rq)) = true ->
  cachingOf rq = true ->
  fst (QueryCache.get (queryCache st) (clock w (S (S (S (S (S (reads st)))))))
         (rq_query rq) (paramsOf rq)) = Some (d, b) ->
  exists st',
    POST w rq st
    = (Return (json (Success
                       (served d (clock w (S (S (S (S (S (S (reads st)))))))
                                  - clock w (S (S (S (S (reads st))))))))
                    200),
       st')
    /\ executed st' = executed st
    /\ console st' = console st
    /\ queryCache st'
       = snd (QueryCache.get (queryCache st)
                (clock w (S (S (S (S (S (reads st)))))))
                (rq_query rq) (paramsOf rq)).
Proof.
intros Hquery Hgrant Hcaching Hhit. apply String.eqb_neq in Hquery.
destruct (wp_run _ _ _ (hit_path rq st d b Hquery Hgrant Hcaching Hhit))
  as (r & st' & E & -> & Hexecuted & Hconsole & Hcache & _).
exists st'. split; [exact E|]. repeat split; assumption.
Qed.

(** *** The stages of a request that is not answered from the cache *)


(** X27.  On a request the handler takes up and that asks for SQL, an
    error of the backend, on the query or on the count query, ends the
    request with status 500, "Query execution failed" and the message of
    the error; the error is logged and nothing is stored in the cache,
    which is as the lookup left it. *)
Theorem backend_failure_reported rq st message :
  proceeds w rq st ->
  classified w (rq_query rq) <> document ->
  safe (validateQuerySecurity (generated w (rq_query rq))) = true ->
  match queryRawUnsafe w
          (Optimizer.sql (optimizedFor w (pageOf rq) (pageSizeOf rq)
                            (generated w (rq_query rq)))) with
  | Return _ => queryRawUnsafe w (countFor (generated w (rq_query rq))) = Throw message
  | Throw e => e = message
  end ->
  exists st',
    POST w rq st
    = (Return (json (Failure {| error := "Query execution failed";
                                details := Message message;
                                remaining := None |}) 500),
       st')
    /\ In ("SQL execution error: " +:+ message) (console st')
    /\ queryCache st' = looked w rq st.
Proof.
intros Htaken Hclass Hsafe Hfail.
destruct (wp_run _ _ _ (failed_path rq st message Htaken Hclass Hsafe Hfail))
  as (r & st' & E & -> & Hlogged & Hcache & _).
exists st'. split; [exact E|]. repeat split; assumption.
Qed.


(** *** Claims C1 and C2 *)

(** C1 (amended).  On a request the handler takes up and that asks for
    SQL: if the generation call errors (the schema lookup or the
    generation service), [generateSQL] logs the error and returns the
    default query [SELECT * FROM "Document" LIMIT 10], which passes the
    security validation and is optimised and executed in place of a
    generated one, and the request succeeds with the rows of the backend.
    If the generated text, code fences removed, does not start with
    SELECT or WITH (in particular when it contains neither word), the
    request ends with status 400, "Query failed security validation",
    and nothing is executed. *)
Theorem generation_failure_outcome rq st :
  proceeds w rq st ->
  classified w (rq_query rq) <> document ->
  (forall message rows total,
      generation w (rq_query rq) = Throw message ->
      queryRawUnsafe w
        (Optimizer.sql (optimizedFor w (pageOf rq) (pageSizeOf rq) fallbackSQL))
      = Return rows ->
      queryRawUnsafe w (countFor fallbackSQL) = Return total ->
      exists resp st',
        POST w rq st = (Return (json (Success resp) 200), st')
        /\ success resp = true
        /\ sql resp = Some fallbackSQL
        /\ structured_results resp = nonempty rows
        /\ executed st'
           = executed st
             ++ [Optimizer.sql (optimizedFor w (pageOf rq) (pageSizeOf rq) fallbackSQL);
                 countFor fallbackSQL]
        /\ In ("SQL generation failed: " +:+ message) (console st'))
  /\ (forall text,
         generation w (rq_query rq) = Return text ->
         (SecurityFacts.opening (stripFences text) "SELECT" = false
          /\ SecurityFacts.opening (stripFences text) "WITH" = false)
         \/ (Str.includes (Str.toUpperCase (Str.trim (stripFences text))) "SELECT"
             = false
             /\ Str.includes (Str.toUpperCase (Str.trim (stripFences text))) "WITH"
                = false) ->
         exists errs st',
           POST w rq st
           = (Return (json (Failure
                              {| error := "Query failed security validation";
                                 details := Messages errs;
                                 remaining := None |}) 400),
              st')
           /\ In SecurityFacts.notSelect errs
           /\ executed st' = executed st).
Proof.
intros Htaken Hclass. split.
- intros message rows total Hgen Hrows Htotal.
  assert (Hsql : generated w (rq_query rq) = fallbackSQL).
  { unfold generated. now rewrite Hgen. }
  destruct (wp_run _ _ _ (structured_path rq st rows total Htaken Hclass
                            ltac:(rewrite Hsql, fallback_safe; reflexivity)
                            ltac:(now rewrite Hsql)
                            ltac:(now rewrite Hsql)))
    as (r & st' & E & resp & -> & Hok & _ & Hresp & Hrows' & _ & Hexecuted
        & Hlogged & _).
  rewrite Hsql in *. exists resp, st'. repeat split; try assumption.
  now apply Hlogged.
- intros text Hgen Hopening.
  assert (Hsql : generated w (rq_query rq) = stripFences text).
  { unfold generated. now rewrite Hgen. }
  assert (Hopen : SecurityFacts.opening (stripFences text) "SELECT" = false
                  /\ SecurityFacts.opening (stripFences text) "WITH" = false).
  { destruct Hopening as [H|[H1 H2]]; [exact H|].
    split; now apply SecurityFacts.opening_includes. }
  destruct Hopen as [H1 H2].
  destruct (SecurityFacts.not_select_unsafe _ H1 H2) as [Hunsafe Hin].
  rewrite <- Hsql in Hunsafe, Hin.
  destruct (wp_run _ _ _ (rejected_path rq st Htaken Hclass Hunsafe))
    as (r & st' & E & -> & Hexecuted & _).
  eexists. exists st'. split; [exact E|]. split; assumption.
Qed.

(** C2 (amended).  On a request the handler takes up, classified as
    document or hybrid, whose embedding call or vector search throws
    (for a hybrid request after the generated SQL passed the validation
    and the backend answered): the request still succeeds, with the rows
    of the backend as structured results (absent when there are none),
    without document results and without errors, and with a document
    search time of 0.  The failure is written to the console of the
    server only: the response has no field for a warning. *)
Theorem document_failure_swallowed rq st message :
  proceeds w rq st ->
  documents w rq = Throw message ->
  (classified w (rq_query rq) = document ->
   exists resp st',
     POST w rq st = (Return (json (Success resp) 200), st')
     /\ success resp = true
     /\ structured_results resp = None
     /\ document_results resp = None
     /\ errors resp = None
     /\ document_search_ms (performance resp) = 0
     /\ In ("Document search failed: " +:+ message) (console st'))
  /\ (forall rows total,
         classified w (rq_query rq) = hybrid ->
         safe (validateQuerySecurity (generated w (rq_query rq))) = true ->
         queryRawUnsafe w
           (Optimizer.sql (optimizedFor w (pageOf rq) (pageSizeOf rq)
                             (generated w (rq_query rq)))) = Return rows ->
         queryRawUnsafe w (countFor (generated w (rq_query rq))) = Return total ->
         exists resp st',
           POST w rq st = (Return (json (Success resp) 200), st')
           /\ success resp = true
           /\ structured_results resp = nonempty rows
           /\ document_results resp = None
           /\ errors resp = None
           /\ document_search_ms (performance resp) = 0
           /\ In ("Document search failed: " +:+ message) (console st')).
Proof.
intros Htaken Hdocs. split.
- intros Hclass.
  destruct (wp_run _ _ _ (document_path rq st Htaken Hclass))
    as (r & st' & E & resp & -> & Hok & _ & _ & Hrows & Herrors & _ & Hfound).
  rewrite Hdocs in Hfound. destruct Hfound as (Hnone & Hms & Hlogged).
  exists resp, st'. repeat split; assumption.
- intros rows total Hclass Hsafe Hrows Htotal.
  assert (Hsql : classified w (rq_query rq) <> document) by congruence.
  destruct (wp_run _ _ _ (structured_path rq st rows total Htaken Hsql Hsafe
                            Hrows Htotal))
    as (r & st' & E & resp & -> & Hok & _ & _ & Hrows' & Herrors & _ & _ & _
        & Hfound).
  specialize (Hfound Hclass). rewrite Hdocs in Hfound.
  destruct Hfound as (Hnone & Hms & Hlogged).
  exists resp, st'. repeat split; assumption.
Qed.


(** *** Classification and schema metadata *)

(** X29.  [classifyQuery] never throws and treats "structured" as the default:
    it is the answer when the service fails (the error is logged), when
    the reply names none of the three kinds, and whenever the reply
    contains the word, whatever else it contains; nothing but the console
    is touched. *)
Theorem classification_defaults query st :
  exists kind st',
    classifyQuery w query st = (Return kind, st')
    /\ quiet st st'
    /\ match geminiGenerate w (classifyPrompt query)
               {| temperature := 0; maxOutputTokens := 50 |} with
       | Throw message =>
           kind = structured
           /\ console st' = console st ++ ["Classification error: " +:+ message]
       | Return reply =>
           let said := Str.includes (Str.toLowerCase (Str.trim reply)) in
           st' = st
           /\ (said "structured" = true -> kind = structured)
           /\ (kind = document <->
               said "structured" = false /\ said "document" = true)
           /\ (kind = hybrid <->
               said "structured" = false /\ said "document" = false
               /\ said "hybrid" = true)
       end.
Proof.
unfold classifyQuery, try_catch, bind, await.
destruct (geminiGenerate w _ _) as [reply|message].
- destruct (Str.includes (Str.toLowerCase (Str.trim reply)) "structured") eqn:E1;
    [|destruct (Str.includes (Str.toLowerCase (Str.trim reply)) "document") eqn:E2;
      [|destruct (Str.includes (Str.toLowerCase (Str.trim reply)) "hybrid") eqn:E3]];
    cbv zeta; rewrite ?E1, ?E2, ?E3;
    eexists; eexists; (split; [reflexivity|]); (split; [apply quiet_refl|]);
    (split; [reflexivity|]);
    repeat split; try discriminate; try reflexivity;
    try (intros (? & ?); discriminate); try (intros (? & ? & ?); discriminate).
- eexists. eexists. split; [reflexivity|]. split; [apply quiet_say|].
  split; reflexivity.
Qed.

(** The columns the rows of one table list, in the order of the rows. *)
Definition columnsOf {R} (name : R -> string) (columns : R -> list string)
    (table : string) (rows : list R) : list string :=
flat_map columns (List.filter (fun row => String.eqb (name row) table) rows).

Definition listed {R} (name : R -> string) (table : string) (rows : list R)
  : bool :=
existsb (fun row => String.eqb (name row) table) rows.

Lemma grouped_lookup {R} (name : R -> string) (columns : R -> list string)
    (rows : list R) : forall (m : gmap string (list string)) table,
  fold_left
    (fun (map : gmap string (list string)) row =>
       <[name row := default [] (map !! name row) ++ columns row]> map)
    rows m !! table
  = if listed name table rows
    then Some (default [] (m !! table) ++ columnsOf name columns table rows)
    else m !! table.
Proof.
induction rows as [|row rows IH]; intros m table; [reflexivity|].
cbn [fold_left]. rewrite IH. unfold columnsOf, listed.
cbn [List.filter existsb].
destruct (String.eqb_spec (name row) table) as [->|Hne].
- rewrite lookup_insert_eq. cbn [orb flat_map default].
  destruct (existsb _ rows) eqn:E.
  + unfold id. now rewrite <- app_assoc.
  + unfold id. f_equal. f_equal.
    assert (Hnone : List.filter (fun row0 => String.eqb (name row0) table) rows
                    = []).
    { clear IH. induction rows as [|r rows IHr]; [reflexivity|].
      cbn [existsb] in E. apply orb_false_elim in E as [E1 E2].
      cbn [List.filter]. rewrite E1. now apply IHr. }
    rewrite Hnone. cbn [flat_map]. now rewrite app_nil_r.
- rewrite lookup_insert_ne by assumption. cbn [orb]. reflexivity.
Qed.

(** X30.  [getTableIndexes] and [getTableColumns] never throw.  They
    group the catalogue by table: a table is in the map exactly when the
    catalogue lists a row for it, with the columns of all its rows in the
    catalogue's order.  When the catalogue cannot be read, the error is
    logged and the map is empty. *)
Theorem table_metadata_grouped st :
  (exists map st',
      getTableIndexes w st = (Return map, st')
      /\ quiet st st'
      /\ match pgIndexes w with
         | Return rows =>
             st' = st
             /\ forall table,
                 map !! table
                 = if listed ir_tablename table rows
                   then Some (columnsOf ir_tablename ir_columns table rows)
                   else None
         | Throw message =>
             map = ∅
             /\ console st'
                = console st ++ ["Failed to fetch table indexes: " +:+ message]
         end)
  /\ (exists map st',
         getTableColumns w st = (Return map, st')
         /\ quiet st st'
         /\ match schemaColumns w with
            | Return rows =>
                st' = st
                /\ forall table,
                    map !! table
                    = if listed cr_table_name table rows
                      then Some (columnsOf cr_table_name
                                   (fun row => [cr_column_name row]) table rows)
                      else None
            | Throw message =>
                map = ∅
                /\ console st'
                   = console st ++ ["Failed to fetch table columns: " +:+ message]
            end).
Proof.
split.
- unfold getTableIndexes, try_catch, bind, await.
  destruct (pgIndexes w) as [rows|message].
  + eexists. eexists. split; [reflexivity|]. split; [apply quiet_refl|].
    split; [reflexivity|]. intros table.
    rewrite (grouped_lookup ir_tablename ir_columns). now rewrite lookup_empty.
  + eexists. eexists. split; [reflexivity|]. split; [apply quiet_say|].
    split; reflexivity.
- unfold getTableColumns, try_catch, bind, await.
  destruct (schemaColumns w) as [rows|message].
  + eexists. eexists. split; [reflexivity|]. split; [apply quiet_refl|].
    split; [reflexivity|]. intros table.
    rewrite (grouped_lookup cr_table_name (fun row => [cr_column_name row])).
    now rewrite lookup_empty.
  + eexists. eexists. split; [reflexivity|]. split; [apply quiet_say|].
    split; reflexivity.
Qed.

End Path.

(** *** Scenarios *)

(** The state of a process that has served nothing yet. *)
Definition started : State :=
{| queryCache := QueryCache.new None None;
   rateLimiter := RateLimiter.new None None;
   reads := 0; console := []; executed := [] |}.

Definition ask (query : string) : QueryPipelineRequest :=
{| rq_query := query; rq_page := None; rq_pageSize := None;
   rq_enableCache := None; rq_userId := None |}.

(** The services of a scenario: a clock that advances [tickMs] with every
    reading, a classification that answers [kind], a generation of SQL
    that ends as [sqlText], a backend that answers every statement as
    [backend] does, an embedding service and a vector search that end as
    [embeddings] and [found]; no schema metadata. *)
Definition scenario (tickMs : Z) (kind : string) (sqlText : completion string)
    (backend : string -> completion (list Json.value))
    (embeddings found : completion (list Json.value)) : World :=
{| clock := fun n => tickMs * Z.of_nat n;
   geminiGenerate :=
     fun prompt _ =>
       if Str.startsWith prompt "Classify" then Return kind else sqlText;
   schemaTables := Return [];
   pgIndexes := Return [];
   schemaColumns := Return [];
   queryRawUnsafe := backend;
   generateEmbeddings := fun _ => embeddings;
   documentSearch := fun _ _ => found |}.

Definition employee : Json.value := Json.Obj [("name", Json.Text "Ada")].
Definition total1 : Json.value := Json.Obj [("total", Json.Num 1)].
Definition vector : Json.value := Json.Arr [Json.Num 1; Json.Num 0].

(** A backend with one employee. *)
Definition staff (statement : string) : completion (list Json.value) :=
if Str.startsWith statement "SELECT COUNT" then Return [total1]
else Return [employee].

(** The generation service is out of quota. *)
Definition quota : World :=
scenario 1 "structured" (Throw "quota exceeded") staff (Return []) (Return []).

(** The generation service answers with prose. *)
Definition chatty : World :=
scenario 1 "structured" (Return "I cannot help with that.") staff
  (Return []) (Return []).

(** The backend is down. *)
Definition down : World :=
scenario 1 "structured" (Return "SELECT name FROM employees")
  (fun _ => Throw "connection refused") (Return []) (Return []).


(** A hybrid request whose embedding service fails, and the same request
    when the service works and the search finds nothing. *)
Definition failing (tickMs : Z) : World :=
scenario tickMs "hybrid" (Return "SELECT name FROM employees") staff
  (Throw "embedding service unavailable") (Return []).

Definition matchless (tickMs : Z) : World :=
scenario tickMs "hybrid" (Return "SELECT name FROM employees") staff
  (Return [vector]) (Return []).

Definition employees : QueryPipelineRequest := ask "Show employees".

(** The statements the fallback makes the handler execute. *)
Definition fallbackStatements : list string :=
["SET LOCAL statement_timeout = 30000; SELECT * FROM " +:+ dq +:+ "Document"
   +:+ dq +:+ nl +:+ "LIMIT 50 OFFSET 0";
 "SELECT COUNT(*) as total FROM (SELECT * FROM " +:+ dq +:+ "Document" +:+ dq
   +:+ " LIMIT 10) as subquery"].

(** C1, counterexample.  The generation service throws; the request is
    not fatal: the handler substitutes the default query, gives it to the
    backend, and answers with status 200 and the rows of the table
    [Document] as the result of the user's question. *)
Lemma fallback_is_executed :
  generation quota "Show employees" = Throw "quota exceeded"
  /\ exists resp st',
      POST quota employees started = (Return (json (Success resp) 200), st')
      /\ success resp = true
      /\ sql resp = Some fallbackSQL
      /\ structured_results resp = Some [employee]
      /\ errors resp = None
      /\ executed st' = fallbackStatements.
Proof.
split; [vm_compute; reflexivity|].
destruct (POST quota employees started) as [r st'] eqn:E.
vm_compute in E. injection E as <- <-.
eexists. eexists. split; [reflexivity|].
repeat split; vm_compute; reflexivity.
Qed.

(** The fields of a response other than the timings. *)
Definition content (resp : QueryPipelineResponse) :=
(success resp, query_type resp, structured_results resp, document_results resp,
 sql resp, pagination resp, optimization resp, security resp, errors resp).

(** The body of a success response. *)
Definition answer (r : completion HttpResponse * State)
  : option QueryPipelineResponse :=
match fst r with
| Return (json (Success resp) _) => Some resp
| _ => None
end.

(** C2, counterexample.  The embedding service throws; the response
    carries no warning: it has no errors and no document results, every
    field but the timings is the one of the response to the same request
    when the search works and finds nothing, and on a clock that does
    not advance the two responses are the same. *)
Lemma document_failure_unreported :
  documents (failing 1) employees = Throw "embedding service unavailable"
  /\ documents (matchless 1) employees = Return []
  /\ (exists resp resp',
         answer (POST (failing 1) employees started) = Some resp
         /\ answer (POST (matchless 1) employees started) = Some resp'
         /\ structured_results resp = Some [employee]
         /\ document_results resp = None
         /\ errors resp = None
         /\ content resp = content resp')
  /\ fst (POST (failing 0) employees started)
     = fst (POST (matchless 0) employees started).
Proof.
split; [vm_compute; reflexivity|].
split; [vm_compute; reflexivity|].
split.
- destruct (answer (POST (failing 1) employees started)) as [resp|] eqn:E;
    vm_compute in E; [|discriminate E].
  destruct (answer (POST (matchless 1) employees started)) as [resp'|] eqn:E';
    vm_compute in E'; [|discriminate E'].
  injection E as <-. injection E' as <-.
  eexists. eexists. split; [reflexivity|]. split; [reflexivity|].
  repeat split; vm_compute; reflexivity.
- vm_compute. reflexivity.
Qed.

Lemma proceeds_started w query :
  String.eqb (Str.trim query) EmptyString = false ->
  proceeds w (ask query) started.
Proof.
intros H. split; [exact H|]. split; [vm_compute; reflexivity|].
intros _. reflexivity.
Qed.

Lemma generation_failure_outcome_witness :
  exists resp st',
    POST quota employees started = (Return (json (Success resp) 200), st')
    /\ sql resp = Some fallbackSQL
    /\ structured_results resp = Some [employee].
Proof.
destruct (proj1 (generation_failure_outcome quota employees started
                   (proceeds_started quota "Show employees" eq_refl)
                   ltac:(vm_compute; discriminate))
            "quota exceeded" [employee] [total1])
  as (resp & st' & E & _ & Hsql & Hrows & _).
- vm_compute. reflexivity.
- vm_compute. reflexivity.
- vm_compute. reflexivity.
- exists resp, st'. split; [exact E|]. split; assumption.
Defined.

Lemma document_failure_swallowed_witness :
  exists resp st',
    POST (failing 1) employees started = (Return (json (Success resp) 200), st')
    /\ structured_results resp = Some [employee]
    /\ document_results resp = None
    /\ In "Document search failed: embedding service unavailable" (console st').
Proof.
destruct (proj2 (document_failure_swallowed (failing 1) employees started
                   "embedding service unavailable"
                   (proceeds_started (failing 1) "Show employees" eq_refl)
                   ltac:(vm_compute; reflexivity))
            [employee] [total1])
  as (resp & st' & E & _ & Hrows & Hdocs & _ & _ & Hlogged).
- vm_compute. reflexivity.
- vm_compute. reflexivity.
- vm_compute. reflexivity.
- vm_compute. reflexivity.
- exists resp, st'. split; [exact E|]. repeat split; assumption.
Defined.


(** *** Instances of the theorems above *)

Definition uncached : QueryPipelineRequest :=
{| rq_query := "Show employees"; rq_page := None; rq_pageSize := None;
   rq_enableCache := Some false; rq_userId := None |}.

(** A process whose limiter allows one request a minute and has granted
    it. *)
Definition exhausted : State :=
{| queryCache := QueryCache.new None None;
   rateLimiter :=
     snd (RateLimiter.isAllowed (RateLimiter.new (Some 1) None) 0 "anonymous");
   reads := 0; console := []; executed := [] |}.

Lemma caching_disabled_leaves_cache_witness :
  queryCache (snd (POST quota uncached started)) = queryCache started.
Proof.
apply (caching_disabled_leaves_cache quota uncached started). reflexivity.
Defined.

Lemma repeated_request_hits_cache_witness :
  exists resp st1 st2 cache_check,
    POST quota employees started = (Return (json (Success resp) 200), st1)
    /\ POST quota employees st1
       = (Return (json (Success (served resp cache_check)) 200), st2)
    /\ executed st2 = executed st1.
Proof.
pose (p := POST quota employees started).
assert (E : POST quota employees started = p) by reflexivity.
vm_compute in p. subst p.
eexists. eexists.
epose proof (repeated_request_hits_cache quota employees started _ _ _ E
               eq_refl eq_refl eq_refl) as Hagain.
destruct Hagain as (st2 & E2 & Hexecuted & _).
- vm_compute. reflexivity.
- vm_compute. discriminate.
- exists st2. eexists. split; [exact E|]. split; [exact E2 | exact Hexecuted].
Defined.

Lemma blank_query_rejected_witness :
  Str.trim "   " = EmptyString
  /\ fst (POST quota (ask "   ") started)
     = Return (json (Failure {| error := "Query is required";
                                details := NoDetails;
                                remaining := None |}) 400).
Proof.
split; [reflexivity|].
rewrite (blank_query_rejected quota (ask "   ") started eq_refl). reflexivity.
Defined.

Lemma rate_limit_rejects_witness :
  fst (POST quota employees exhausted)
  = Return (json (Failure {| error := "Rate limit exceeded";
                             details := NoDetails;
                             remaining := Some 0 |}) 429).
Proof.
rewrite (rate_limit_rejects quota employees exhausted).
- vm_compute. reflexivity.
- vm_compute. discriminate.
- vm_compute. reflexivity.
Defined.

Lemma cache_hit_served_witness :
  exists resp st1 st2 cache_check,
    POST quota employees started = (Return (json (Success resp) 200), st1)
    /\ POST quota employees st1
       = (Return (json (Success (served resp cache_check)) 200), st2)
    /\ console st2 = console st1.
Proof.
pose (p := POST quota employees started).
assert (E : POST quota employees started = p) by reflexivity.
vm_compute in p. subst p.
eexists. eexists.
match type of E with
| _ = (_, ?st1) =>
    edestruct (cache_hit_served quota employees st1)
      as (st2 & E2 & _ & Hconsole & _)
end.
- vm_compute. discriminate.
- vm_compute. reflexivity.
- reflexivity.
- vm_compute. reflexivity.
- exists st2. eexists. split; [exact E|]. split; [exact E2 | exact Hconsole].
Defined.




Lemma backend_failure_reported_witness :
  fst (POST down employees started)
  = Return (json (Failure {| error := "Query execution failed";
                             details := Message "connection refused";
                             remaining := None |}) 500).
Proof.
destruct (backend_failure_reported down employees started "connection refused"
            (proceeds_started down "Show employees" eq_refl))
  as (st' & E & _).
- vm_compute. discriminate.
- vm_compute. reflexivity.
- vm_compute. reflexivity.
- rewrite E. reflexivity.
Defined.


End PipelineTheorems.
